(** * Outline Filter Engine: the bookmark filter of the Flask PDF services

    Shallow embedding of the two [clean] procedures of
    [src/Bookmark/Api_bookmark_v1.py] (backward iteration) and
    [src/Bookmark/app.py] (forward, index-adjusting iteration), together
    with the part of [remove_filtered_bookmarks] that drives them.

    Bookmarks are mutable objects of the host document library, reached
    through handles and shared between the variables of the Python code;
    they are modelled as a store from handles to records, threaded through
    a state-and-error monad. *)

From Stdlib Require Import String Ascii.
From stdpp Require Import base option list relations gmap strings.

Local Open Scope string_scope.
Local Open Scope list_scope.
Local Open Scope nat_scope.

(** ** Labels: lower-casing and the substring test *)

(** Labels and patterns are strings of code points below 256.

    Python's [str.lower] on these: the ASCII capitals and the Latin-1
    capitals (all of U+00C0..U+00DE but the multiplication sign U+00D7)
    move up by 32, every other code point stays. *)
Definition lower_char (c : ascii) : ascii :=
  let n := nat_of_ascii c in
  if ((65 <=? n) && (n <=? 90)) || ((192 <=? n) && (n <=? 222) && negb (n =? 215))
  then ascii_of_nat (n + 32) else c.

Fixpoint lower (s : string) : string :=
  match s with
  | EmptyString => EmptyString
  | String c s' => String (lower_char c) (lower s')
  end.

(** [starts_with pat s]: [s] begins with [pat]. *)
Fixpoint starts_with (pat s : string) : bool :=
  match pat, s with
  | EmptyString, _ => true
  | String _ _, EmptyString => false
  | String a pat', String b s' => if Ascii.eqb a b then starts_with pat' s' else false
  end.

(** Python's [pat in s] on strings. *)
Fixpoint contains (pat s : string) : bool :=
  starts_with pat s ||
  match s with
  | EmptyString => false
  | String _ s' => contains pat s'
  end.

(** [child.GetTitle() or ""]: an absent title reads as the empty string. *)
Definition title_or_empty (t : option string) : string :=
  match t with
  | Some s => s
  | None => ""
  end.

(** [any(f in title for f in filters_lower)] with
    [title = (child.GetTitle() or "").lower()]. *)
Definition is_filtered (filters_lower : list string) (t : option string) : bool :=
  existsb (fun f => contains f (lower (title_or_empty t))) filters_lower.

(** ** The store of bookmarks *)

Definition handle := nat.

Record bookmark := Bookmark {
  bk_title : option string;
  bk_kids : list handle
}.

(** The mutating calls of the host. *)
Inductive event :=
| Inserted (p : handle) (i : nat) (s : handle)
| Removed (p : handle) (i : nat).

Definition is_removal (e : event) : bool :=
  match e with
  | Inserted _ _ _ => false
  | Removed _ _ => true
  end.

(** The state of a run: the current store, and the mutating calls made so
    far, oldest first, each with the store it has produced. *)
Record world := World {
  heap : gmap handle bookmark;
  trace : list (event * gmap handle bookmark)
}.

Inductive error :=
| StructuralAccessError
| NoneDereference
| OutOfFuel.

Inductive result (A : Type) :=
| Ok (a : A)
| Raise (e : error).
Arguments Ok {A} a.
Arguments Raise {A} e.

Definition M (A : Type) : Type := world -> result (A * world).

Definition ret {A} (a : A) : M A := fun w => Ok (a, w).

Definition raise {A} (e : error) : M A := fun _ => Raise e.

Definition bind {A B} (m : M A) (k : A -> M B) : M B :=
  fun w =>
    match m w with
    | Ok (a, w') => k a w'
    | Raise e => Raise e
    end.

Notation "x <- m ;; k" := (bind m (fun x => k))
  (at level 20, m at level 99, k at level 200, only parsing).
Notation "m ;; k" := (bind m (fun _ => k))
  (at level 100, k at level 200, only parsing, right associativity).

(** A [for] loop over a finite range with loop-carried variables [s]. *)
Fixpoint foldM {A S} (body : S -> A -> M S) (l : list A) (s : S) : M S :=
  match l with
  | [] => ret s
  | x :: l' => s' <- body s x ;; foldM body l' s'
  end.

(** A [for] loop without loop-carried variables. *)
Fixpoint for_each {A} (l : list A) (body : A -> M unit) : M unit :=
  match l with
  | [] => ret tt
  | x :: l' => body x ;; for_each l' body
  end.

(** A method call on a variable that may hold [None]. *)
Definition deref (h : option handle) : M handle :=
  match h with
  | Some x => ret x
  | None => raise NoneDereference
  end.

(** A write to the store by the call [e]; the call and the store it
    produces are added to the trace. *)
Definition store (e : event) (p : handle) (b : bookmark) : M unit :=
  fun w =>
    let d := <[p := b]> (heap w) in
    Ok (tt, World d (trace w ++ [(e, d)])).

(** ** The host document abstraction *)

Module Host.

(** Modelled from the spec: the bookmark objects of the third-party
    document library are not part of the repository; the five
    capabilities the engine calls are taken from the capability table of
    the spec (section 6). A handle that the store does not know is an
    unreachable reference, a [StructuralAccessError]. *)
Definition load (n : handle) : M bookmark :=
  fun w =>
    match heap w !! n with
    | Some b => Ok (b, w)
    | None => Raise StructuralAccessError
    end.

(** Modelled from the spec: [childCount(node)], the number of direct
    children. *)
Definition GetNumChildren (n : handle) : M nat :=
  b <- load n ;; ret (length (bk_kids b)).

(** Modelled from the spec: [childAt(node, index)], which fails softly
    (none) when the index is out of range. *)
Definition GetChild (n : handle) (i : nat) : M (option handle) :=
  b <- load n ;; ret (bk_kids b !! i).

(** Modelled from the spec: [label(node)], which never fails; an absent
    title is reported as [None] and read as empty by the caller. *)
Definition GetTitle (n : handle) : M (option string) :=
  b <- load n ;; ret (bk_title b).

(** Modelled from the spec: [insertChildAt(parent, index, child)] inserts
    the child in the parent's child list, at any index up to and including
    the child count (append). It only inserts: the child list of any other
    bookmark is left as it is. Indices beyond the child count and an absent
    child are refused. *)
Definition AddChild (p : handle) (i : nat) (sub : option handle) : M unit :=
  b <- load p ;;
  match sub with
  | None => raise StructuralAccessError
  | Some s =>
      if i <=? length (bk_kids b)
      then store (Inserted p i s) p
             (Bookmark (bk_title b) (take i (bk_kids b) ++ s :: drop i (bk_kids b)))
      else raise StructuralAccessError
  end.

(** Modelled from the spec: [removeChildAt(parent, index)] removes the
    child at the index, and fails with [StructuralAccessError] when the
    index is invalid. *)
Definition RemoveChild (p : handle) (i : nat) : M unit :=
  b <- load p ;;
  if i <? length (bk_kids b)
  then store (Removed p i) p
         (Bookmark (bk_title b) (take i (bk_kids b) ++ drop (S i) (bk_kids b)))
  else raise StructuralAccessError.

End Host.

Import Host.

(** ** [src/Bookmark/Api_bookmark_v1.py]: backward iteration *)

Module Api_bookmark_v1.

(** Lines 47-49: one round of the loop that reads the child's children. *)
Definition collect (child : handle) (grandchildren : list handle) (j : nat)
    : M (list handle) :=
  sub <- GetChild child j ;;
  ret (match sub with
       | Some s => grandchildren ++ [s]
       | None => grandchildren
       end).

(** Lines 44-49: the handles of the child's children, read before any
    insertion. *)
Definition grandchildren_of (child : handle) : M (list handle) :=
  gc_count <- GetNumChildren child ;;
  foldM (collect child) (seq 0 gc_count) [].

(** Lines 53-54: one round of the loop that inserts them. *)
Definition insert_at (parent : handle) (insert_pos : nat) (sub : handle) : M nat :=
  AddChild parent insert_pos (Some sub) ;;
  ret (insert_pos + 1).

(** Lines 51-54: the grandchildren go in after position [i], one after
    the other. *)
Definition move_up (parent : handle) (i : nat) (grandchildren : list handle) : M nat :=
  foldM (insert_at parent) grandchildren (i + 1).

(** Lines 34-57: the body of the loop over [i]. *)
Definition visit (clean : option handle -> M unit) (filters_lower : list string)
    (parent : handle) (i : nat) : M unit :=
  child <- GetChild parent i ;;
  match child with
  | None => ret tt
  | Some c =>
      clean (Some c) ;;
      title <- GetTitle c ;;
      if is_filtered filters_lower title
      then grandchildren <- grandchildren_of c ;;
           move_up parent i grandchildren ;;
           RemoveChild parent i
      else ret tt
  end.

(** Lines 27-57. [range(count - 1, -1, -1)] is [count-1, ..., 0]. The
    recursion follows the store, not a datatype, and is bounded by
    [fuel]. *)
Fixpoint clean (filters_lower : list string) (fuel : nat) (parent : option handle) : M unit :=
  match parent with
  | None => ret tt
  | Some p =>
      match fuel with
      | 0 => raise OutOfFuel
      | S fuel' =>
          count <- GetNumChildren p ;;
          for_each (rev (seq 0 count)) (visit (clean filters_lower fuel') filters_lower p)
      end
  end.

(** Lines 23-59: the part of [remove_filtered_bookmarks] between opening
    and saving the document; [root] is [doc.GetBookmarkRoot()]. *)
Definition remove_filtered_bookmarks (fuel : nat) (root : option handle)
    (filters : list string) : M unit :=
  match root with
  | Some r => clean (map lower filters) fuel (Some r)
  | None => ret tt
  end.

End Api_bookmark_v1.

(** ** [src/Bookmark/app.py]: forward iteration with index adjustment *)

Module Bookmark_app.

(** Lines 38-42: one round of the loop over the sub-bookmarks; [ic] holds
    [i] and [count]. *)
Definition splice_one (parent child : handle) (ic : nat * nat) (s : nat)
    : M (nat * nat) :=
  sub <- GetChild child s ;;
  AddChild parent (fst ic) sub ;;
  ret (fst ic + 1, snd ic + 1).

(** Lines 36-42: each sub-bookmark is inserted at [i], and [i] and
    [count] both move up by one. *)
Definition splice (parent child : handle) (sub_count : nat) (i count : nat)
    : M (nat * nat) :=
  foldM (splice_one parent child) (seq 0 sub_count) (i, count).

(** Lines 28-48: the [while i < count] loop; [n] bounds the number of
    iterations. *)
Fixpoint while_loop (clean : option handle -> M unit) (filters_lower : list string)
    (parent : handle) (n : nat) (i count : nat) : M unit :=
  match n with
  | 0 => raise OutOfFuel
  | S n' =>
      if i <? count
      then child <- GetChild parent i ;;
           clean child ;;
           c <- deref child ;;
           title <- GetTitle c ;;
           if is_filtered filters_lower title
           then sub_count <- GetNumChildren c ;;
                ic <- splice parent c sub_count i count ;;
                RemoveChild parent (fst ic) ;;
                while_loop clean filters_lower parent n' (fst ic) (snd ic - 1)
           else while_loop clean filters_lower parent n' (i + 1) count
      else ret tt
  end.

(** Lines 25-48. There is no test for [None]: [parent.GetNumChildren()]
    on [None] raises. The fuel bounds the depth of the recursion and,
    what is left of it, the number of rounds of the [while] loop. *)
Fixpoint clean (filters_lower : list string) (fuel : nat) (parent : option handle) : M unit :=
  match fuel with
  | 0 => raise OutOfFuel
  | S fuel' =>
      p <- deref parent ;;
      count <- GetNumChildren p ;;
      while_loop (clean filters_lower fuel') filters_lower p fuel' 0 count
  end.

(** Lines 20-49. *)
Definition remove_filtered_bookmarks (fuel : nat) (root : option handle)
    (filters : list string) : M unit :=
  match root with
  | None => ret tt
  | Some r => clean (map lower filters) fuel (Some r)
  end.

End Bookmark_app.

#[local] Set Warnings "-register-all".

(** ** Outlines as trees

    A well-formed input is a store in which the bookmarks under the root
    form a finite ordered tree. [tree] is that tree, every node with its
    handle; [repr d t] says that the store [d] holds [t]. *)

Inductive tree :=
| Node (h : handle) (title : option string) (kids : list tree).

Definition root_of (t : tree) : handle :=
  match t with Node h _ _ => h end.

Definition title_of (t : tree) : option string :=
  match t with Node _ ti _ => ti end.

Definition kids_of (t : tree) : list tree :=
  match t with Node _ _ ks => ks end.

(** The handles of a tree, in pre-order. *)
Fixpoint ids (t : tree) : list handle :=
  match t with
  | Node h _ ks => h :: flat_map ids ks
  end.

(** The nodes of a tree with their titles, in pre-order. *)
Fixpoint nodes (t : tree) : list (handle * option string) :=
  match t with
  | Node h ti ks => (h, ti) :: flat_map nodes ks
  end.

(** The nodes strictly below the root. *)
Definition below (t : tree) : list (handle * option string) :=
  flat_map nodes (kids_of t).

(** The number of nodes. *)
Fixpoint size (t : tree) : nat :=
  match t with
  | Node _ _ ks => S (list_sum (map size ks))
  end.

(** The store [d] holds the tree [t]: the record of every node has the
    title of the node and lists the handles of its children, in order. *)
Inductive repr (d : gmap handle bookmark) : tree -> Prop :=
| repr_node h ti ks :
    d !! h = Some (Bookmark ti (map root_of ks)) ->
    Forall (repr d) ks ->
    repr d (Node h ti ks).

(** The store holds a proper rooted tree under [r]: no handle occurs
    twice, so there is no cycle and no bookmark with two parents. *)
Definition proper_tree (d : gmap handle bookmark) (r : handle) : Prop :=
  exists t, root_of t = r /\ repr d t /\ NoDup (ids t).

(** [edge d p k]: in the store [d], [k] is listed as a child of [p]. *)
Definition edge (d : gmap handle bookmark) (p k : handle) : Prop :=
  exists b, d !! p = Some b /\ k ∈ bk_kids b.

Definition reachable (d : gmap handle bookmark) (r n : handle) : Prop :=
  rtc (edge d) r n.

(** No bookmark reachable from [r] lies on a cycle. *)
Definition acyclic_from (d : gmap handle bookmark) (r : handle) : Prop :=
  forall n, reachable d r n -> ~ tc (edge d) n n.

Definition label_at (d : gmap handle bookmark) (n : handle) : option string :=
  match d !! n with
  | Some b => bk_title b
  | None => None
  end.

Definition kids_at (d : gmap handle bookmark) (n : handle) : list handle :=
  match d !! n with
  | Some b => bk_kids b
  | None => []
  end.

(** ** The explicit rebuild of the specification

    Section 9 of the specification describes the filter as a rebuild:
    the filtered tree is built bottom-up, a matched child being replaced
    by its own filtered children. [rebuild] follows those words; the
    theorems below compare the two [clean] procedures with it. *)
Fixpoint rebuild (filters_lower : list string) (t : tree) : tree :=
  match t with
  | Node h ti ks =>
      Node h ti
        (flat_map (fun c =>
                     if is_filtered filters_lower (title_of c)
                     then kids_of (rebuild filters_lower c)
                     else [rebuild filters_lower c])
                  ks)
  end.

(** What a child leaves in its parent's child list. *)
Definition promoted (filters_lower : list string) (c : tree) : list tree :=
  if is_filtered filters_lower (title_of c)
  then kids_of (rebuild filters_lower c)
  else [rebuild filters_lower c].

(** The store after [clean] on [t]: every bookmark of the original tree,
    the removed ones too, keeps its title and lists the roots of its
    rebuilt children. *)
Inductive cleaned (filters_lower : list string) (d : gmap handle bookmark) : tree -> Prop :=
| cleaned_node h ti ks :
    d !! h = Some (Bookmark ti (map root_of (flat_map (promoted filters_lower) ks))) ->
    Forall (cleaned filters_lower d) ks ->
    cleaned filters_lower d (Node h ti ks).

(** The child list of a parent after filtering, from its child list
    before: a matched child gives way to its own children as they are
    after filtering, an unmatched child stays. *)
Definition spliced (filters_lower : list string) (d d' : gmap handle bookmark)
    (l : list handle) : list handle :=
  flat_map (fun c =>
              if is_filtered filters_lower (label_at d c)
              then kids_at d' c
              else [c])
           l.

(** What the proofs ask of the recursive call on a child [c]: it returns,
    leaves the subtree of [c] cleaned, and touches nothing outside it. *)
Definition cleans (filters_lower : list string) (rec : option handle -> M unit)
    (c : tree) : Prop :=
  forall w, repr (heap w) c ->
    exists w', rec (Some (root_of c)) w = Ok (tt, w') /\
               cleaned filters_lower (heap w') c /\
               (forall n, n ∉ ids c -> heap w' !! n = heap w !! n).

(** The store [d] holds, under the root of [c], a proper tree made of
    bookmarks of [c]. *)
Definition settled (d : gmap handle bookmark) (c : tree) : Prop :=
  exists t',
    root_of t' = root_of c /\ repr d t' /\ NoDup (ids t') /\
    forall n, n ∈ ids t' -> n ∈ ids c.

(** What a run on the tree [c] from [w] to [w'] has added to the trace:
    calls that touch no bookmark outside [c], every removal leaving a
    proper tree under the root of [c]. *)
Definition during (c : tree) (w w' : world) : Prop :=
  exists new,
    trace w' = trace w ++ new /\
    Forall (fun x => (forall n, n ∉ ids c -> x.2 !! n = heap w !! n) /\
                     (is_removal x.1 = true -> settled x.2 c))
           new.

(** [cleans], with the account of the trace. *)
Definition cleans_quietly (filters_lower : list string) (rec : option handle -> M unit)
    (c : tree) : Prop :=
  forall w, repr (heap w) c ->
    exists w', rec (Some (root_of c)) w = Ok (tt, w') /\
               cleaned filters_lower (heap w') c /\
               (forall n, n ∉ ids c -> heap w' !! n = heap w !! n) /\
               during c w w'.

(** A trace entry [x] of the loop over the children of [h]: outside [h]
    and the handles [within], the store is [d0]; after a removal the child
    list of [h] is [left], then the roots of proper trees made of handles
    of [within], then [right]. *)
Definition level_settled (h : handle) (ti : option string) (within left right : list handle)
    (d0 : gmap handle bookmark) (x : event * gmap handle bookmark) : Prop :=
  (forall n, n ≠ h -> n ∉ within -> x.2 !! n = d0 !! n) /\
  (is_removal x.1 = true ->
   exists ks',
     x.2 !! h = Some (Bookmark ti (left ++ map root_of ks' ++ right)) /\
     Forall (repr x.2) ks' /\
     NoDup (flat_map ids ks') /\
     forall n, n ∈ flat_map ids ks' -> n ∈ within).

(** The index of a mutating call is valid for the store [before] the
    call: up to the child count for an insertion, below it for a
    removal. *)
Definition in_range (before : gmap handle bookmark) (e : event) : Prop :=
  match e with
  | Inserted p i _ => i <= length (kids_at before p)
  | Removed p i => i < length (kids_at before p)
  end.

(** Every call of a trace is in range for the store it is made on: the
    first for [before], each other one for the store its predecessor has
    produced. *)
Fixpoint all_in_range (before : gmap handle bookmark)
    (tr : list (event * gmap handle bookmark)) : Prop :=
  match tr with
  | [] => True
  | x :: tr' => in_range before x.1 /\ all_in_range x.2 tr'
  end.

(** The store that a trace ends with. *)
Definition last_store (before : gmap handle bookmark)
    (tr : list (event * gmap handle bookmark)) : gmap handle bookmark :=
  fold_left (fun _ x => x.2) tr before.

(** From [w] to [w'] the trace has grown by calls in range, and the store
    of [w'] is the one they have produced. *)
Definition chained (w w' : world) : Prop :=
  exists new,
    trace w' = trace w ++ new /\
    all_in_range (heap w) new /\
    heap w' = last_store (heap w) new.

Definition chains {A} (m : M A) : Prop :=
  forall w a w', m w = Ok (a, w') -> chained w w'.

(** [m1] is [m2] run with less fuel: it gives the same outcome, unless
    it runs out of fuel first. *)
Definition fuel_le {A} (m1 m2 : M A) : Prop :=
  forall w, m1 w = Raise OutOfFuel \/ m1 w = m2 w.

(** Every parent-child link of the store [d] lies in the relation [R]. *)
Definition edges_within (R : relation handle) (d : gmap handle bookmark) : Prop :=
  forall p b k, d !! p = Some b -> k ∈ bk_kids b -> R p k.

(** The same, of the current store and of every store of the trace. *)
Definition links_within (R : relation handle) (w : world) : Prop :=
  edges_within R (heap w) /\ Forall (fun x => edges_within R x.2) (trace w).

(** The label, lower-cased, contains one of the patterns, lower-cased. *)
Definition matches (filters : list string) (label : option string) : Prop :=
  exists f pre post,
    f ∈ filters /\
    lower (title_or_empty label) = String.append pre (String.append (lower f) post).

(** ** Inputs of the examples *)

(** Scenario 3 of the specification: a nested match. *)
Definition nested_match_tree : tree :=
  Node 0 None [Node 1 (Some "a.PDF") [Node 2 (Some "b.pdf") [Node 3 (Some "Real") []]]].

Definition nested_match : gmap handle bookmark :=
  <[0 := Bookmark None [1]]>
  (<[1 := Bookmark (Some "a.PDF") [2]]>
  (<[2 := Bookmark (Some "b.pdf") [3]]>
  (<[3 := Bookmark (Some "Real") []]> ∅))).

(** Two adjacent matched siblings between two unmatched ones. *)
Definition adjacent_tree : tree :=
  Node 0 None
    [Node 1 (Some "Intro") [];
     Node 2 (Some "x.pdf") [Node 5 (Some "Ch1") []; Node 6 (Some "Ch2") []];
     Node 3 (Some "Outline Placeholder") [Node 7 (Some "Ch3") []];
     Node 4 (Some "End") []].

Definition adjacent : gmap handle bookmark :=
  <[0 := Bookmark None [1; 2; 3; 4]]>
  (<[1 := Bookmark (Some "Intro") []]>
  (<[2 := Bookmark (Some "x.pdf") [5; 6]]>
  (<[3 := Bookmark (Some "Outline Placeholder") [7]]>
  (<[4 := Bookmark (Some "End") []]>
  (<[5 := Bookmark (Some "Ch1") []]>
  (<[6 := Bookmark (Some "Ch2") []]>
  (<[7 := Bookmark (Some "Ch3") []]> ∅))))))).

(** A root with a title that the filter matches. *)
Definition titled_root_tree : tree :=
  Node 0 (Some "Book.pdf") [Node 1 (Some "Intro") []].

Definition titled_root : gmap handle bookmark :=
  <[0 := Bookmark (Some "Book.pdf") [1]]>
  (<[1 := Bookmark (Some "Intro") []]> ∅).

(** A root without a title. *)
Definition untitled_root_tree : tree :=
  Node 0 None [Node 1 (Some "Intro") []].

Definition untitled_root : gmap handle bookmark :=
  <[0 := Bookmark None [1]]>
  (<[1 := Bookmark (Some "Intro") []]> ∅).

(** A matched child with one child of its own. *)
Definition one_match_tree : tree :=
  Node 0 None [Node 1 (Some "x.pdf") [Node 2 (Some "Real") []]].

Definition one_match : gmap handle bookmark :=
  <[0 := Bookmark None [1]]>
  (<[1 := Bookmark (Some "x.pdf") [2]]>
  (<[2 := Bookmark (Some "Real") []]> ∅)).

(** The store of [one_match] after the promotion insert of bookmark 2
    under the root, and before the removal of bookmark 1. *)
Definition one_match_midway : gmap handle bookmark :=
  <[0 := Bookmark None [1; 2]]> one_match.

(** ** Further notions for the runs of [clean] *)

(** The two stores know the same bookmarks, with the same titles. *)
Definition same_titles (d d' : gmap handle bookmark) : Prop :=
  forall n, bk_title <$> (d' !! n) = bk_title <$> (d !! n).

(** From [w] to [w'] titles and bookmarks have stayed as they were, in
    the store and in every store that the trace has gained. *)
Definition titles_kept (w w' : world) : Prop :=
  same_titles (heap w) (heap w') /\
  exists new,
    trace w' = trace w ++ new /\
    Forall (fun x => same_titles (heap w) x.2) new.

Definition keeps_titles {A} (m : M A) : Prop :=
  forall w a w', m w = Ok (a, w') -> titles_kept w w'.

(** The title of the node is matched. *)
Definition matched_node (filters_lower : list string) (x : handle * option string) : bool :=
  is_filtered filters_lower x.2.

(** Every path of the store of [w'], and of every store of its trace, is
    a path of [d]. *)
Definition no_new_paths (d : gmap handle bookmark) (w' : world) : Prop :=
  (forall r n, reachable (heap w') r n -> reachable d r n) /\
  Forall (fun x => forall r n, reachable x.2 r n -> reachable d r n) (trace w').

(** ** Python's string methods, on strings of code points below 256 *)

(** [str.isspace] of one character: the ASCII white space (tab to
    carriage return, the four separators U+001C..U+001F, the space), the
    next-line control U+0085 and the no-break space U+00A0. *)
Definition is_space (c : ascii) : bool :=
  let n := nat_of_ascii c in
  ((9 <=? n) && (n <=? 13)) || ((28 <=? n) && (n <=? 32)) || (n =? 133) || (n =? 160).

(** [s.lstrip()]. *)
Fixpoint str_lstrip (s : string) : string :=
  match s with
  | EmptyString => EmptyString
  | String c s' => if is_space c then str_lstrip s' else s
  end.

(** [s.rstrip()]. *)
Fixpoint str_rstrip (s : string) : string :=
  match s with
  | EmptyString => EmptyString
  | String c s' =>
      match str_rstrip s' with
      | EmptyString => if is_space c then EmptyString else String c EmptyString
      | r => String c r
      end
  end.

(** [s.strip()]. *)
Definition str_strip (s : string) : string := str_rstrip (str_lstrip s).

(** [s.split(sep)] for a separator of one character: the pieces between
    the separators, the empty ones too; never the empty list. *)
Fixpoint str_split (sep : ascii) (s : string) : list string :=
  match s with
  | EmptyString => [EmptyString]
  | String c s' =>
      if Ascii.eqb c sep then EmptyString :: str_split sep s'
      else match str_split sep s' with
           | x :: xs => String c x :: xs
           | [] => [String c EmptyString]
           end
  end.

(** [sep.join(l)]. *)
Fixpoint str_join (sep : string) (l : list string) : string :=
  match l with
  | [] => EmptyString
  | [x] => x
  | x :: l' => String.append x (String.append sep (str_join sep l'))
  end.

(** [s.endswith(suffix)]. *)
Fixpoint str_endswith (suffix s : string) : bool :=
  String.eqb s suffix ||
  match s with
  | EmptyString => false
  | String _ s' => str_endswith suffix s'
  end.

(** ** [src/Bookmark/app.py], [filter_bookmarks]: the tests on the upload
    and the filters of the form *)

Module Bookmark_app_route.

(** Line 356: [[f.strip() for f in filters_input.split(',') if f.strip()]]. *)
Definition parse_filters (filters_input : string) : list string :=
  flat_map (fun f => match str_strip f with
                     | EmptyString => []
                     | g => [g]
                     end)
           (str_split "," filters_input).

(** Lines 342-351: the three tests before anything is saved; [None] is
    the upload going on to be processed, [Some (error, status)] the
    response that refuses it. [has_file] is ['file' in request.files]. *)
Definition refuse_upload (has_file : bool) (filename : string) : option (string * nat) :=
  if negb has_file then Some ("No file uploaded", 400)
  else if String.eqb filename "" then Some ("No file selected", 400)
  else if negb (str_endswith ".pdf" (lower filename)) then Some ("File must be a PDF", 400)
  else None.

(** Lines 355-356 and 376: the filters of the form field go, lower-cased
    by [remove_filtered_bookmarks], to [clean]. [form_filters] is
    [request.form.get('filters', '.pdf, outline placeholder')]: the field
    when the form has one, the default otherwise. *)
Definition form_filters (field : option string) : string :=
  match field with
  | Some f => f
  | None => ".pdf, outline placeholder"
  end.

Definition filter_outline (fuel : nat) (root : option handle) (field : option string)
    : M unit :=
  Bookmark_app.remove_filtered_bookmarks fuel root (parse_filters (form_filters field)).

End Bookmark_app_route.

(** ** [src/Bookmark/Api_bookmark_v1.py] and [Bookmark_URL_v1.py],
    [filter_bookmarks]: the tests on the upload *)

Module Api_bookmark_v1_route.

(** Lines 86-91 (lines 150-155 of [Bookmark_URL_v1.py]). *)
Definition refuse_upload (has_file : bool) (filename : string) : option (string * nat) :=
  if negb has_file then Some ("No file uploaded", 400)
  else if negb (str_endswith ".pdf" (lower filename)) then Some ("File must be a PDF", 400)
  else None.

(** Line 93 (line 158 of [Bookmark_URL_v1.py]): the filters are fixed. *)
Definition filters : list string := [".pdf"; "outline placeholder"].

End Api_bookmark_v1_route.

(** The character [c] occurs in [s]. *)
Fixpoint has_char (c : ascii) (s : string) : bool :=
  match s with
  | EmptyString => false
  | String a s' => Ascii.eqb a c || has_char c s'
  end.

(** A filter as the form delivers it: not empty, without white space at
    either end, without a comma. *)
Definition tidy (f : string) : Prop :=
  f <> EmptyString /\ str_strip f = f /\ has_char "," f = false.

(** ** [remove_filtered_bookmarks] with its document, and the worker *)

(** What the calls of the document library return is given: [GetPdfix()]
    (is it not [None]), [pdfix.OpenDoc] ([None], or the document: the
    result of [GetBookmarkRoot()] and the store of its outline),
    [doc.Save] and [pdfix.GetError()]; [describe] is [str(e)] of the
    exception with which the host refuses a call. *)
Record sdk := Sdk {
  pdfix : bool;
  document : option (option handle * gmap handle bookmark);
  save_ok : bool;
  error_text : string;
  describe : error -> string
}.

(** The calls made on the document, in order; [Save] with the outline
    that the document holds when it is called. *)
Inductive io_call :=
| OpenDoc (path : string)
| Save (path : string) (outline : gmap handle bookmark)
| Close.

(** What a Python function ends with: it returns, or raises
    [Exception(msg)], or lets through what the host has raised. *)
Inductive outcome :=
| Returned
| Exception (msg : string)
| HostRaised (e : error).

(** The dictionary that the worker puts on the queue. *)
Record message := Message {
  success : bool;
  error_field : option string
}.

Module Api_bookmark_v1_doc.

(** [Api_bookmark_v1.py], lines 15-66 ([Bookmark_URL_v1.py], lines
    15-67). *)
Definition remove_filtered_bookmarks (env : sdk) (fuel : nat)
    (input_pdf output_pdf : string) (filters : list string) : list io_call * outcome :=
  if negb (pdfix env) then ([], Exception "PDFix initialization failed")
  else
    match document env with
    | None =>
        ([OpenDoc input_pdf],
         Exception (String.append "Failed to open PDF: " (error_text env)))
    | Some (root, d) =>
        match Api_bookmark_v1.remove_filtered_bookmarks fuel root filters (World d []) with
        | Raise e => ([OpenDoc input_pdf], HostRaised e)
        | Ok (_, w') =>
            if save_ok env
            then ([OpenDoc input_pdf; Save output_pdf (heap w'); Close], Returned)
            else ([OpenDoc input_pdf; Save output_pdf (heap w'); Close],
                  Exception (String.append "Save failed: " (error_text env)))
        end
    end.

(** Lines 70-79 ([Bookmark_URL_v1.py], lines 71-79): the calls made, and
    the one message put on the queue. *)
Definition bookmark_worker (env : sdk) (fuel : nat)
    (input_pdf output_pdf : string) (filters : list string) : list io_call * message :=
  match remove_filtered_bookmarks env fuel input_pdf output_pdf filters with
  | (calls, Returned) => (calls, Message true None)
  | (calls, Exception msg) => (calls, Message false (Some msg))
  | (calls, HostRaised e) => (calls, Message false (Some (describe env e)))
  end.

End Api_bookmark_v1_doc.

Module Bookmark_app_doc.

(** [app.py], lines 13-56; the [print] calls are left out. *)
Definition remove_filtered_bookmarks (env : sdk) (fuel : nat)
    (input_pdf output_pdf : string) (filters : list string) : list io_call * outcome :=
  if negb (pdfix env) then ([], Exception "PDFix initialization failed")
  else
    match document env with
    | None =>
        ([OpenDoc input_pdf],
         Exception (String.append "Failed to open PDF: " (error_text env)))
    | Some (root, d) =>
        match Bookmark_app.remove_filtered_bookmarks fuel root filters (World d []) with
        | Raise e => ([OpenDoc input_pdf], HostRaised e)
        | Ok (_, w') =>
            if save_ok env
            then ([OpenDoc input_pdf; Save output_pdf (heap w'); Close], Returned)
            else ([OpenDoc input_pdf; Save output_pdf (heap w'); Close],
                  Exception (String.append "Save failed: " (error_text env)))
        end
    end.

End Bookmark_app_doc.

(** The outline of the document is absent, or a proper tree [t] under
    the root. *)
Inductive outline_of (env : sdk) : option tree -> Prop :=
| no_outline d :
    document env = Some (None, d) -> outline_of env None
| proper_outline d t :
    document env = Some (Some (root_of t), d) -> repr d t -> NoDup (ids t) ->
    outline_of env (Some t).

(** The store [d'] is the store [d] after filtering: as it was when there
    is no outline, and else holding the outline in document order without
    the bookmarks of matched title. *)
Definition filtered_outline (env : sdk) (filters : list string) (ot : option tree)
    (d' : gmap handle bookmark) : Prop :=
  match ot with
  | None => exists d, document env = Some (None, d) /\ d' = d
  | Some t =>
      exists t',
        repr d' t' /\ NoDup (ids t') /\
        nodes t' =
        (root_of t, title_of t)
        :: List.filter (fun x => negb (matched_node (map lower filters) x)) (below t)
  end.

Definition size_of (ot : option tree) : nat :=
  match ot with
  | None => 0
  | Some t => size t
  end.

(** * [src/pagelabel/pdfmodules/transformer.py]: page labels

    The same functions are in [src/pagelabel/app.py], lines 512-679. *)

Module Transformer.

Local Open Scope Z_scope.

(** ** [int_to_roman], lines 95-106 *)

Definition val : list Z := [10; 9; 5; 4; 1].
Definition syms : list string := ["x"; "ix"; "v"; "iv"; "i"].

(** Lines 102-104: [for _ in range(k)], each turn appending the symbol
    and taking its value off. *)
Fixpoint for_range (k : nat) (v : Z) (sym : string) (roman_num : string) (num : Z)
    : string * Z :=
  match k with
  | O => (roman_num, num)
  | S k' => for_range k' v sym (String.append roman_num sym) (num - v)
  end.

(** Lines 101-105: [while num > 0 and i < len(val)]; [rest] holds
    [val[i:]] with [syms[i:]], and [//] is the division that rounds
    down. *)
Fixpoint roman_while (rest : list (Z * string)) (roman_num : string) (num : Z) : string :=
  match rest with
  | [] => roman_num
  | (v, sym) :: rest' =>
      if 0 <? num
      then let (r, n) := for_range (Z.to_nat (num / v)) v sym roman_num num in
           roman_while rest' r n
      else roman_num
  end.

(** Line 106: [roman_num or ""] is [roman_num]. *)
Definition int_to_roman (num : Z) : string := roman_while (zip val syms) "" num.

(** ** [PageNumberSetter.set_page_labels], lines 113-259 *)

(** The objects of the array [Nums]: numbers and dictionaries, a
    dictionary with its entries in the order in which they were put. *)
Inductive pdf_value :=
| Name (s : string)
| Text (s : string)
| Int (n : Z).

Inductive pdf_object :=
| Number (n : Z)
| Dict (entries : list (string * pdf_value)).

(** Lines 176-179, 198-202 and 222-226: [PutNumber] and [InsertDict] at
    index [GetNumObjects()] append to the array. *)
Definition put_range (nums_array : list pdf_object) (page_idx : Z) (d : pdf_object)
    : list pdf_object :=
  nums_array ++ [Number page_idx; d].

Definition cover_dict : pdf_object :=
  Dict [("Type", Name "PageLabel"); ("P", Text "Cover")].

Definition roman_dict (st : Z) : pdf_object :=
  Dict [("Type", Name "PageLabel"); ("S", Name "r"); ("St", Int st)].

Definition arabic_dict (st : Z) : pdf_object :=
  Dict [("Type", Name "PageLabel"); ("S", Name "D"); ("St", Int st)].

(** Lines 172-173: [while nums_array.GetNumObjects() > 0:
    nums_array.RemoveNth(0)]. [None] is the fuel running out. *)
Fixpoint clear (fuel : nat) (nums_array : list pdf_object) : option (list pdf_object) :=
  match fuel with
  | O => None
  | S fuel' =>
      if (0 <? length nums_array)%nat then clear fuel' (drop 1 nums_array)
      else Some nums_array
  end.

(** Lines 191-192. *)
Fixpoint skip_roman (fuel : nat) (roman_skip : list Z) (roman_max_num : Z)
    (current_roman_num : Z) : option Z :=
  match fuel with
  | O => None
  | S fuel' =>
      if bool_decide (current_roman_num ∈ roman_skip) && (current_roman_num <=? roman_max_num)
      then skip_roman fuel' roman_skip roman_max_num (current_roman_num + 1)
      else Some current_roman_num
  end.

(** Lines 186-206; the result is the array with [current_page_idx]. *)
Fixpoint roman_section (fuel : nat) (num_pages : Z) (roman_skip : list Z)
    (roman_max_num : Z) (nums_array : list pdf_object)
    (current_page_idx current_roman_num : Z) : option (list pdf_object * Z) :=
  match fuel with
  | O => None
  | S fuel' =>
      if (current_page_idx <? num_pages) && (current_roman_num <=? roman_max_num)
      then
        match skip_roman fuel' roman_skip roman_max_num current_roman_num with
        | None => None
        | Some current_roman_num =>
            if roman_max_num <? current_roman_num
            then Some (nums_array, current_page_idx)
            else roman_section fuel' num_pages roman_skip roman_max_num
                   (put_range nums_array current_page_idx (roman_dict current_roman_num))
                   (current_page_idx + 1) (current_roman_num + 1)
        end
      else Some (nums_array, current_page_idx)
  end.

(** Lines 219-220. *)
Fixpoint skip_arabic (fuel : nat) (arabic_skip : list Z) (printed_arabic : Z) : option Z :=
  match fuel with
  | O => None
  | S fuel' =>
      if bool_decide (printed_arabic ∈ arabic_skip)
      then skip_arabic fuel' arabic_skip (printed_arabic + 1)
      else Some printed_arabic
  end.

(** Lines 217-229. *)
Fixpoint arabic_section (fuel : nat) (num_pages : Z) (arabic_skip : list Z)
    (nums_array : list pdf_object) (page_idx printed_arabic : Z)
    : option (list pdf_object) :=
  match fuel with
  | O => None
  | S fuel' =>
      if page_idx <? num_pages
      then
        match skip_arabic fuel' arabic_skip printed_arabic with
        | None => None
        | Some printed_arabic =>
            arabic_section fuel' num_pages arabic_skip
              (put_range nums_array page_idx (arabic_dict printed_arabic))
              (page_idx + 1) (printed_arabic + 1)
        end
      else Some nums_array
  end.

(** Lines 153-157. *)
Definition roman_max_num (num_pages : Z) (roman_pages_count : option Z) : Z :=
  let roman_pages_count :=
    match roman_pages_count with
    | None => Z.min 24 (Z.max 0 (num_pages - 1))
    | Some c => c
    end in
  Z.max 0 roman_pages_count.

(** Lines 172-229: the array [Nums] as it is when [Save] is called, from
    the array [nums_array] as it was found. *)
Definition label_array (fuel : nat) (num_pages : Z) (roman_pages_count : option Z)
    (roman_skip arabic_skip : list Z) (nums_array : list pdf_object)
    : option (list pdf_object) :=
  let roman_max_num := roman_max_num num_pages roman_pages_count in
  match clear fuel nums_array with
  | None => None
  | Some nums_array =>
      let nums_array := put_range nums_array 0 cover_dict in
      match roman_section fuel num_pages roman_skip roman_max_num nums_array 1 1 with
      | None => None
      | Some (nums_array, current_page_idx) =>
          let arabic_start_idx := current_page_idx in
          if arabic_start_idx <? num_pages
          then arabic_section fuel num_pages arabic_skip nums_array arabic_start_idx 1
          else Some nums_array
      end
  end.

(** What the calls on the document return is given: [OpenDoc] (is there
    a document), [GetErrorType()] as the f-string prints it,
    [GetNumPages()], [GetRootObject()] (is there one),
    [GetDictionary("PageLabels")] with its [GetArray("Nums")], and
    [Save]. *)
Record pdf := Pdf {
  doc_opens : bool;
  doc_error : string;
  doc_pages : Z;
  doc_root : bool;
  doc_labels : option (option (list pdf_object));
  doc_saves : bool
}.

(** The calls made on the document, in order; [Save] with the array
    [Nums] that the document holds when it is called. *)
Inductive call :=
| OpenDoc (path : string)
| Save (path : string) (nums : list pdf_object)
| Close.

(** Lines 163-169: the array [Nums] of the dictionary [PageLabels], each
    made anew when the document has none. *)
Definition nums_of (doc : pdf) : list pdf_object :=
  match doc_labels doc with
  | Some (Some a) => a
  | _ => []
  end.

(** Lines 135-259; [finally: doc.Close()] closes the document on every
    way out of the [try]. The [print] calls are left out. [None] is the
    fuel running out. *)
Definition set_page_labels (doc : pdf) (fuel : nat) (input_pdf output_pdf : string)
    (roman_pages_count : option Z) (roman_skip arabic_skip : option (list Z))
    : option (list call * outcome) :=
  let roman_skip := default [] roman_skip in
  let arabic_skip := default [] arabic_skip in
  if negb (doc_opens doc)
  then Some ([OpenDoc input_pdf],
             Exception (String.append "Unable to open PDF: " (doc_error doc)))
  else
    let num_pages := doc_pages doc in
    if num_pages =? 0
    then Some ([OpenDoc input_pdf; Close], Exception "PDF has no pages")
    else if negb (doc_root doc)
    then Some ([OpenDoc input_pdf; Close], Exception "Unable to get root object")
    else
      match label_array fuel num_pages roman_pages_count roman_skip arabic_skip
              (nums_of doc) with
      | None => None
      | Some nums =>
          if doc_saves doc
          then Some ([OpenDoc input_pdf; Save output_pdf nums; Close], Returned)
          else Some ([OpenDoc input_pdf; Save output_pdf nums; Close],
                     Exception (String.append "Unable to save PDF: " (doc_error doc)))
      end.

End Transformer.

(** ** Reading page labels *)

(** The value of a letter of a lower-case Roman numeral; 0 for any other
    character. *)
Definition letter_value (c : ascii) : Z :=
  if Ascii.eqb c "x" then 10%Z
  else if Ascii.eqb c "v" then 5%Z
  else if Ascii.eqb c "i" then 1%Z
  else 0%Z.

(** The number that a Roman numeral reads as: a letter before a letter
    of greater value is taken off, every other letter is added. *)
Fixpoint roman_value (s : string) : Z :=
  match s with
  | EmptyString => 0%Z
  | String c s' =>
      match s' with
      | EmptyString => letter_value c
      | String d _ =>
          if (letter_value c <? letter_value d)%Z
          then (roman_value s' - letter_value c)%Z
          else (roman_value s' + letter_value c)%Z
      end
  end.

(** [sym] written [k] times. *)
Fixpoint str_repeat (sym : string) (k : nat) : string :=
  match k with
  | O => EmptyString
  | S k' => String.append sym (str_repeat sym k')
  end.

(** The array of the ranges that start at the pages from [page_idx] on,
    one page each, with the start values [starts] in the dictionaries
    that [dict] makes. *)
Fixpoint numbered (dict : Z -> Transformer.pdf_object) (page_idx : Z) (starts : list Z)
    : list Transformer.pdf_object :=
  match starts with
  | [] => []
  | st :: rest =>
      Transformer.Number page_idx :: dict st :: numbered dict (page_idx + 1)%Z rest
  end.

(** The numbers from [first] to [last] that are not in [skip], in
    order. *)
Definition unskipped (skip : list Z) (first last : Z) : list Z :=
  filter (fun v => v ∉ skip) (seqZ first (last + 1 - first)).

(** How many numbers of [skip] are not below [r]. *)
Definition above (skip : list Z) (r : Z) : nat :=
  length (filter (fun x => (r <= x)%Z) skip).

(** The page indices of an array [Nums]: the numbers at its even
    places. *)
Fixpoint page_indices (nums : list Transformer.pdf_object) : list Z :=
  match nums with
  | Transformer.Number p :: _ :: rest => p :: page_indices rest
  | _ => []
  end.

(** The start values of the Roman ranges: of the numbers from 1 to the
    greatest Roman number that are not skipped, as many as there are
    pages after the cover. *)
Definition roman_starts (num_pages : Z) (roman_pages_count : option Z)
    (roman_skip : list Z) : list Z :=
  take (Z.to_nat (num_pages - 1))
       (unskipped roman_skip 1 (Transformer.roman_max_num num_pages roman_pages_count)).

(** The start values of the Arabic ranges: of the numbers from 1 on that
    are not skipped, as many as there are pages after the Roman ones. *)
Definition arabic_starts (num_pages : Z) (roman_pages_count : option Z)
    (roman_skip arabic_skip : list Z) : list Z :=
  take (Z.to_nat (num_pages - 1)
        - length (roman_starts num_pages roman_pages_count roman_skip))
       (unskipped arabic_skip 1 (num_pages + Z.of_nat (length arabic_skip))).

(** The array [Nums] with the cover, the Roman ranges of start values
    [R] and the Arabic ranges of start values [A], a range to a page. *)
Definition labelled (R A : list Z) : list Transformer.pdf_object :=
  Transformer.Number 0 :: Transformer.cover_dict
  :: numbered Transformer.roman_dict 1 R
  ++ numbered Transformer.arabic_dict (1 + Z.of_nat (length R)) A.

(** The document [doc] with [labels] for its page labels. *)
Definition with_labels (doc : Transformer.pdf)
    (labels : option (option (list Transformer.pdf_object))) : Transformer.pdf :=
  Transformer.Pdf (Transformer.doc_opens doc) (Transformer.doc_error doc)
    (Transformer.doc_pages doc) (Transformer.doc_root doc) labels
    (Transformer.doc_saves doc).

(** Every number of the list is less than those after it. *)
Fixpoint increasing (l : list Z) : Prop :=
  match l with
  | [] => True
  | x :: l' => Forall (Z.lt x) l' /\ increasing l'
  end.

(** ** The same procedures, with the state kept when a call raises

    An exception ends a run of the Python code, but what the run has
    done to the bookmarks before stays done. [M] drops the state of a
    run that raises; [L] hands it back, so that a property can be stated
    of the runs that do not return too: of a run that meets a refused
    call, and of a run that never ends, of which every fuel shows a
    longer part. *)

Module Logged.

Definition L (A : Type) : Type := world -> (error + A) * world.

Definition ret {A} (a : A) : L A := fun w => (inr a, w).

Definition raise {A} (e : error) : L A := fun w => (inl e, w).

Definition bind {A B} (m : L A) (k : A -> L B) : L B :=
  fun w =>
    match m w with
    | (inr a, w') => k a w'
    | (inl e, w') => (inl e, w')
    end.

Notation "x <~ m ;; k" := (bind m (fun x => k))
  (at level 20, m at level 99, k at level 200, only parsing).
Notation "m ;;; k" := (bind m (fun _ => k))
  (at level 100, k at level 200, only parsing, right associativity).

(** A call of the host: it changes the store as its last step, so a
    call that raises has changed nothing. *)
Definition lift {A} (m : M A) : L A :=
  fun w =>
    match m w with
    | Ok (a, w') => (inr a, w')
    | Raise e => (inl e, w)
    end.

Fixpoint foldM {A S} (body : S -> A -> L S) (l : list A) (s : S) : L S :=
  match l with
  | [] => ret s
  | x :: l' => s' <~ body s x ;; foldM body l' s'
  end.

Fixpoint for_each {A} (l : list A) (body : A -> L unit) : L unit :=
  match l with
  | [] => ret tt
  | x :: l' => body x ;;; for_each l' body
  end.

Definition deref (h : option handle) : L handle :=
  match h with
  | Some x => ret x
  | None => raise NoneDereference
  end.

(** [src/Bookmark/Api_bookmark_v1.py], as in [Api_bookmark_v1] above. *)
Module Api_bookmark_v1.

(** Lines 47-49. *)
Definition collect (child : handle) (grandchildren : list handle) (j : nat)
    : L (list handle) :=
  sub <~ lift (GetChild child j) ;;
  ret (match sub with
       | Some s => grandchildren ++ [s]
       | None => grandchildren
       end).

(** Lines 44-49. *)
Definition grandchildren_of (child : handle) : L (list handle) :=
  gc_count <~ lift (GetNumChildren child) ;;
  foldM (collect child) (seq 0 gc_count) [].

(** Lines 53-54. *)
Definition insert_at (parent : handle) (insert_pos : nat) (sub : handle) : L nat :=
  lift (AddChild parent insert_pos (Some sub)) ;;;
  ret (insert_pos + 1).

(** Lines 51-54. *)
Definition move_up (parent : handle) (i : nat) (grandchildren : list handle) : L nat :=
  foldM (insert_at parent) grandchildren (i + 1).

(** Lines 34-57. *)
Definition visit (clean : option handle -> L unit) (filters_lower : list string)
    (parent : handle) (i : nat) : L unit :=
  child <~ lift (GetChild parent i) ;;
  match child with
  | None => ret tt
  | Some c =>
      clean (Some c) ;;;
      title <~ lift (GetTitle c) ;;
      if is_filtered filters_lower title
      then grandchildren <~ grandchildren_of c ;;
           move_up parent i grandchildren ;;;
           lift (RemoveChild parent i)
      else ret tt
  end.

(** Lines 27-57. *)
Fixpoint clean (filters_lower : list string) (fuel : nat) (parent : option handle) : L unit :=
  match parent with
  | None => ret tt
  | Some p =>
      match fuel with
      | 0 => raise OutOfFuel
      | S fuel' =>
          count <~ lift (GetNumChildren p) ;;
          for_each (rev (seq 0 count)) (visit (clean filters_lower fuel') filters_lower p)
      end
  end.

End Api_bookmark_v1.

(** [src/Bookmark/app.py], as in [Bookmark_app] above. *)
Module Bookmark_app.

(** Lines 38-42. *)
Definition splice_one (parent child : handle) (ic : nat * nat) (s : nat)
    : L (nat * nat) :=
  sub <~ lift (GetChild child s) ;;
  lift (AddChild parent (fst ic) sub) ;;;
  ret (fst ic + 1, snd ic + 1).

(** Lines 36-42. *)
Definition splice (parent child : handle) (sub_count : nat) (i count : nat)
    : L (nat * nat) :=
  foldM (splice_one parent child) (seq 0 sub_count) (i, count).

(** Lines 28-48. *)
Fixpoint while_loop (clean : option handle -> L unit) (filters_lower : list string)
    (parent : handle) (n : nat) (i count : nat) : L unit :=
  match n with
  | 0 => raise OutOfFuel
  | S n' =>
      if i <? count
      then child <~ lift (GetChild parent i) ;;
           clean child ;;;
           c <~ deref child ;;
           title <~ lift (GetTitle c) ;;
           if is_filtered filters_lower title
           then sub_count <~ lift (GetNumChildren c) ;;
                ic <~ splice parent c sub_count i count ;;
                lift (RemoveChild parent (fst ic)) ;;;
                while_loop clean filters_lower parent n' (fst ic) (snd ic - 1)
           else while_loop clean filters_lower parent n' (i + 1) count
      else ret tt
  end.

(** Lines 25-48. *)
Fixpoint clean (filters_lower : list string) (fuel : nat) (parent : option handle) : L unit :=
  match fuel with
  | 0 => raise OutOfFuel
  | S fuel' =>
      p <~ deref parent ;;
      count <~ lift (GetNumChildren p) ;;
      while_loop (clean filters_lower fuel') filters_lower p fuel' 0 count
  end.

End Bookmark_app.

(** The outcome of a run of [L] as [M] gives it. *)
Definition erase {A} (m : L A) : M A :=
  fun w =>
    match m w with
    | (inr a, w') => Ok (a, w')
    | (inl e, _) => Raise e
    end.

End Logged.

(** The state [w] of a run from [w0]: titles and bookmarks have stayed
    as they were, and every link lies in [R], in the store and in every
    store of the trace. *)
Definition stays (w0 : world) (R : relation handle) (w : world) : Prop :=
  titles_kept w0 w /\ links_within R w.

(** From a state that [stays] the run [m] leaves a state that [stays],
    whether it returns or raises, and a value it returns meets [Q]. *)
Definition holds {A} (w0 : world) (R : relation handle) (m : Logged.L A) (Q : A -> Prop)
    : Prop :=
  forall w, stays w0 R w ->
    stays w0 R (m w).2 /\ forall a, (m w).1 = inr a -> Q a.

(** A store with a cycle between two matched bookmarks: bookmark 1 is
    its own child. *)
Definition cyclic_middle : gmap handle bookmark :=
  <[0 := Bookmark None [2; 1; 4]]>
  (<[1 := Bookmark (Some "Loop") [1]]>
  (<[2 := Bookmark (Some "a.pdf") [3]]>
  (<[3 := Bookmark (Some "Ch1") []]>
  (<[4 := Bookmark (Some "b.pdf") [5]]>
  (<[5 := Bookmark (Some "Ch2") []]> ∅))))).

(** The store [d] with the title of bookmark [n] changed to [title]. *)
Definition retitle (n : handle) (title : option string) (d : gmap handle bookmark)
    : gmap handle bookmark :=
  <[n := Bookmark title (kids_at d n)]> d.

(** ** The monad *)

Lemma bind_ok {A B} (m : M A) (k : A -> M B) w a w' :
  m w = Ok (a, w') -> bind m k w = k a w'.
Proof. unfold bind. intros ->. reflexivity. Qed.

Lemma bind_inv {A B} (m : M A) (k : A -> M B) w r :
  bind m k w = Ok r -> exists a w1, m w = Ok (a, w1) /\ k a w1 = Ok r.
Proof.
  unfold bind. destruct (m w) as [[a w1]|e]; [|discriminate].
  intros H. exists a, w1. split; [reflexivity|exact H].
Qed.

Lemma ret_inv {A} (a b : A) w w' : ret a w = Ok (b, w') -> b = a /\ w' = w.
Proof. unfold ret. intros [= -> ->]. auto. Qed.

(** ** The host operations *)

Lemma load_ok w n b : heap w !! n = Some b -> load n w = Ok (b, w).
Proof. unfold load. intros ->. reflexivity. Qed.

Lemma load_inv w n r : load n w = Ok r -> exists b, heap w !! n = Some b /\ r = (b, w).
Proof.
  unfold load. destruct (heap w !! n) as [b|]; [|discriminate].
  intros [= <-]. eauto.
Qed.

Lemma GetNumChildren_ok w n b :
  heap w !! n = Some b -> GetNumChildren n w = Ok (length (bk_kids b), w).
Proof. intros H. unfold GetNumChildren. rewrite (bind_ok _ _ _ _ _ (load_ok _ _ _ H)). reflexivity. Qed.

Lemma GetChild_ok w n i b :
  heap w !! n = Some b -> GetChild n i w = Ok (bk_kids b !! i, w).
Proof. intros H. unfold GetChild. rewrite (bind_ok _ _ _ _ _ (load_ok _ _ _ H)). reflexivity. Qed.

Lemma GetTitle_ok w n b :
  heap w !! n = Some b -> GetTitle n w = Ok (bk_title b, w).
Proof. intros H. unfold GetTitle. rewrite (bind_ok _ _ _ _ _ (load_ok _ _ _ H)). reflexivity. Qed.

Lemma AddChild_ok w p s ti pre post :
  heap w !! p = Some (Bookmark ti (pre ++ post)) ->
  exists w', AddChild p (length pre) (Some s) w = Ok (tt, w') /\
             heap w' = <[p := Bookmark ti (pre ++ s :: post)]> (heap w) /\
             trace w' = trace w ++ [(Inserted p (length pre) s, heap w')].
Proof.
  intros H. unfold AddChild. rewrite (bind_ok _ _ _ _ _ (load_ok _ _ _ H)). simpl.
  assert ((length pre <=? length (pre ++ post)) = true) as ->.
  { apply Nat.leb_le. rewrite length_app. lia. }
  rewrite take_app_length, drop_app_length.
  eexists. split; [reflexivity|]. split; reflexivity.
Qed.

Lemma RemoveChild_ok w p x ti pre post :
  heap w !! p = Some (Bookmark ti (pre ++ x :: post)) ->
  exists w', RemoveChild p (length pre) w = Ok (tt, w') /\
             heap w' = <[p := Bookmark ti (pre ++ post)]> (heap w) /\
             trace w' = trace w ++ [(Removed p (length pre), heap w')].
Proof.
  intros H. unfold RemoveChild. rewrite (bind_ok _ _ _ _ _ (load_ok _ _ _ H)). simpl.
  assert ((length pre <? length (pre ++ x :: post)) = true) as ->.
  { apply Nat.ltb_lt. rewrite length_app. simpl. lia. }
  rewrite take_app_length.
  replace (drop (S (length pre)) (pre ++ x :: post)) with post.
  - eexists. split; [reflexivity|]. split; reflexivity.
  - change (S (length pre)) with (1 + length pre).
    rewrite Nat.add_comm, <- drop_drop, drop_app_length. reflexivity.
Qed.

(** ** Lists *)

Lemma elem_of_flat_map {A B} (f : A -> list B) (l : list A) (x : B) :
  x ∈ flat_map f l <-> exists y, y ∈ l /\ x ∈ f y.
Proof.
  rewrite list_elem_of_In, in_flat_map. split.
  - intros (y & Hy & Hx). exists y. rewrite !list_elem_of_In. auto.
  - intros (y & Hy & Hx). exists y. rewrite <- !list_elem_of_In. auto.
Qed.

Lemma elem_of_map {A B} (f : A -> B) (l : list A) (y : B) :
  y ∈ map f l <-> exists x, y = f x /\ x ∈ l.
Proof.
  rewrite list_elem_of_In, in_map_iff. split.
  - intros (x & Hx & Hin). exists x. rewrite list_elem_of_In. auto.
  - intros (x & Hx & Hin). exists x. rewrite <- list_elem_of_In. auto.
Qed.

Lemma map_flat_map {A B C} (g : B -> C) (f : A -> list B) (l : list A) :
  map g (flat_map f l) = flat_map (fun x => map g (f x)) l.
Proof.
  induction l as [|x l IH]; simpl; [reflexivity|].
  rewrite map_app, IH. reflexivity.
Qed.

Lemma flat_map_flat_map {A B C} (g : B -> list C) (f : A -> list B) (l : list A) :
  flat_map g (flat_map f l) = flat_map (fun x => flat_map g (f x)) l.
Proof.
  induction l as [|x l IH]; simpl; [reflexivity|].
  rewrite flat_map_app, IH. reflexivity.
Qed.

Lemma flat_map_map {A B C} (g : B -> list C) (f : A -> B) (l : list A) :
  flat_map g (map f l) = flat_map (fun x => g (f x)) l.
Proof.
  induction l as [|x l IH]; simpl; [reflexivity|].
  rewrite IH. reflexivity.
Qed.

Lemma flat_map_Forall_ext {A B} (f g : A -> list B) (l : list A) :
  Forall (fun x => f x = g x) l -> flat_map f l = flat_map g l.
Proof.
  induction 1 as [|x l Hx _ IH]; simpl; [reflexivity|].
  rewrite Hx, IH. reflexivity.
Qed.

Lemma filter_flat_map {A B} (p : B -> bool) (f : A -> list B) (l : list A) :
  List.filter p (flat_map f l) = flat_map (fun x => List.filter p (f x)) l.
Proof.
  induction l as [|x l IH]; simpl; [reflexivity|].
  rewrite List.filter_app, IH. reflexivity.
Qed.

Lemma elem_of_filter_bool {A} (p : A -> bool) (l : list A) (x : A) :
  x ∈ List.filter p l <-> x ∈ l /\ p x = true.
Proof. rewrite !list_elem_of_In. apply filter_In. Qed.

Lemma NoDup_map_filter {A B} (g : A -> B) (p : A -> bool) (l : list A) :
  NoDup (map g l) -> NoDup (map g (List.filter p l)).
Proof.
  induction l as [|x l IH]; simpl; [auto|].
  rewrite NoDup_cons. intros [Hx Hl].
  destruct (p x); simpl; [|auto].
  apply NoDup_cons. split; [|auto].
  intros Hin. apply Hx.
  apply elem_of_map in Hin as (y & Hy & Hin).
  apply elem_of_filter_bool in Hin as [Hin _].
  apply elem_of_map. eauto.
Qed.

Lemma list_sum_elem (l : list nat) (x : nat) : x ∈ l -> x <= list_sum l.
Proof.
  induction 1 as [x l|x y l _ IH]; simpl; lia.
Qed.

Lemma rev_seq_S (n : nat) : rev (seq 0 (S n)) = n :: rev (seq 0 n).
Proof. rewrite seq_S. simpl. apply rev_unit. Qed.

(** ** Trees *)

Lemma tree_ind' (P : tree -> Prop) :
  (forall h ti ks, Forall P ks -> P (Node h ti ks)) ->
  forall t, P t.
Proof.
  intros H. fix IH 1. intros [h ti ks]. apply H.
  induction ks as [|c ks IHks]; constructor; [apply IH|exact IHks].
Qed.

Lemma ids_nodes (t : tree) : ids t = map fst (nodes t).
Proof.
  induction t as [h ti ks IH] using tree_ind'. simpl. f_equal.
  rewrite map_flat_map. apply flat_map_Forall_ext. exact IH.
Qed.

Lemma nodes_eq (t : tree) : nodes t = (root_of t, title_of t) :: below t.
Proof. destruct t. reflexivity. Qed.

Lemma ids_eq (t : tree) : ids t = root_of t :: map fst (below t).
Proof. rewrite ids_nodes, nodes_eq. reflexivity. Qed.

Lemma root_in_ids (t : tree) : root_of t ∈ ids t.
Proof. destruct t. simpl. apply elem_of_cons. auto. Qed.

Lemma ids_child (t c : tree) (n : handle) :
  c ∈ kids_of t -> n ∈ ids c -> n ∈ ids t.
Proof.
  destruct t as [h ti ks]. simpl. intros Hc Hn.
  apply elem_of_cons. right. apply elem_of_flat_map. eauto.
Qed.

Lemma size_child (t c : tree) : c ∈ kids_of t -> size c < size t.
Proof.
  destruct t as [h ti ks]. simpl. intros Hc.
  assert (size c <= list_sum (map size ks)); [|lia].
  apply list_sum_elem, elem_of_map. eauto.
Qed.

Lemma size_kids (t : tree) : length (kids_of t) < size t.
Proof.
  destruct t as [h ti ks]. simpl.
  assert (length ks <= list_sum (map size ks)); [|lia].
  induction ks as [|c ks IH]; simpl; [lia|].
  destruct c; simpl; lia.
Qed.

Lemma NoDup_flat_map_elem {A B} (f : A -> list B) (l : list A) (x : A) :
  NoDup (flat_map f l) -> x ∈ l -> NoDup (f x).
Proof.
  induction l as [|y l IH]; simpl; intros Hnd Hx.
  - apply elem_of_nil in Hx. destruct Hx.
  - apply NoDup_app in Hnd as (H1 & _ & H2).
    apply elem_of_cons in Hx as [->|Hx]; auto.
Qed.

Lemma NoDup_child (t c : tree) : NoDup (ids t) -> c ∈ kids_of t -> NoDup (ids c).
Proof.
  destruct t as [h ti ks]. simpl. rewrite NoDup_cons. intros [_ Hnd] Hc.
  eapply NoDup_flat_map_elem; eauto.
Qed.

Lemma root_not_in_child (t c : tree) :
  NoDup (ids t) -> c ∈ kids_of t -> root_of t ∉ ids c.
Proof.
  destruct t as [h ti ks]. simpl. rewrite NoDup_cons. intros [Hh _] Hc Hin.
  apply Hh, elem_of_flat_map. eauto.
Qed.

(** ** What the store says about a tree *)

Lemma repr_frame (d d' : gmap handle bookmark) (t : tree) :
  (forall n, n ∈ ids t -> d' !! n = d !! n) -> repr d t -> repr d' t.
Proof.
  induction t as [h ti ks IH] using tree_ind'. intros Hfr Hr.
  inversion Hr as [h0 ti0 ks0 Hh Hks]; subst. constructor.
  - rewrite Hfr; [exact Hh|]. apply (root_in_ids (Node h ti ks)).
  - rewrite Forall_forall in IH, Hks |- *. intros c Hc. apply IH; auto.
    intros n Hn. apply Hfr. eapply (ids_child (Node h ti ks)); eauto.
Qed.

Lemma cleaned_frame F (d d' : gmap handle bookmark) (t : tree) :
  (forall n, n ∈ ids t -> d' !! n = d !! n) -> cleaned F d t -> cleaned F d' t.
Proof.
  induction t as [h ti ks IH] using tree_ind'. intros Hfr Hr.
  inversion Hr as [h0 ti0 ks0 Hh Hks]; subst. constructor.
  - rewrite Hfr; [exact Hh|]. apply (root_in_ids (Node h ti ks)).
  - rewrite Forall_forall in IH, Hks |- *. intros c Hc. apply IH; auto.
    intros n Hn. apply Hfr. eapply (ids_child (Node h ti ks)); eauto.
Qed.

Lemma repr_lookup (d : gmap handle bookmark) (t : tree) :
  repr d t -> d !! root_of t = Some (Bookmark (title_of t) (map root_of (kids_of t))).
Proof. destruct 1. assumption. Qed.

Lemma repr_kids (d : gmap handle bookmark) (t : tree) :
  repr d t -> Forall (repr d) (kids_of t).
Proof. destruct 1. assumption. Qed.

(** ** The rebuilt tree *)

Section Rebuild.

Variable F : list string.

Lemma rebuild_eq h ti ks :
  rebuild F (Node h ti ks) = Node h ti (flat_map (promoted F) ks).
Proof. reflexivity. Qed.

Lemma root_rebuild (t : tree) : root_of (rebuild F t) = root_of t.
Proof. destruct t. reflexivity. Qed.

Lemma title_rebuild (t : tree) : title_of (rebuild F t) = title_of t.
Proof. destruct t. reflexivity. Qed.

Lemma kids_rebuild (t : tree) :
  kids_of (rebuild F t) = flat_map (promoted F) (kids_of t).
Proof. destruct t. reflexivity. Qed.

Lemma promoted_hit (c : tree) :
  is_filtered F (title_of c) = true -> promoted F c = kids_of (rebuild F c).
Proof. unfold promoted. intros ->. reflexivity. Qed.

Lemma promoted_keep (c : tree) :
  is_filtered F (title_of c) = false -> promoted F c = [rebuild F c].
Proof. unfold promoted. intros ->. reflexivity. Qed.

Lemma nodes_promoted (c : tree) :
  Forall (fun x => below (rebuild F x) =
                   List.filter (fun x => negb (is_filtered F x.2)) (below x)) [c] ->
  flat_map nodes (promoted F c) =
  List.filter (fun x => negb (is_filtered F x.2)) (nodes c).
Proof.
  intros Hc. apply Forall_inv in Hc.
  rewrite (nodes_eq c). unfold promoted. simpl.
  destruct (is_filtered F (title_of c)); simpl.
  - exact Hc.
  - rewrite app_nil_r, nodes_eq, root_rebuild, title_rebuild, Hc. reflexivity.
Qed.

(** The nodes below the root of the rebuilt tree are the nodes below the
    root of the original whose title is not matched, in the same order. *)
Lemma below_rebuild (t : tree) :
  below (rebuild F t) = List.filter (fun x => negb (is_filtered F x.2)) (below t).
Proof.
  induction t as [h ti ks IH] using tree_ind'.
  unfold below at 1. rewrite kids_rebuild. simpl kids_of.
  rewrite flat_map_flat_map. unfold below. simpl kids_of.
  rewrite filter_flat_map. apply flat_map_Forall_ext.
  rewrite Forall_forall in IH |- *. intros c Hc.
  apply nodes_promoted. constructor; auto.
Qed.

Lemma ids_rebuild (t : tree) :
  ids (rebuild F t) =
  root_of t :: map fst (List.filter (fun x => negb (is_filtered F x.2)) (below t)).
Proof. rewrite ids_eq, root_rebuild, below_rebuild. reflexivity. Qed.

Lemma ids_rebuild_sub (t : tree) (n : handle) : n ∈ ids (rebuild F t) -> n ∈ ids t.
Proof.
  rewrite ids_rebuild, (ids_eq t), !elem_of_cons, !elem_of_map.
  intros [->|(x & -> & Hx)]; [auto|].
  apply elem_of_filter_bool in Hx as [Hx _]. eauto.
Qed.

Lemma NoDup_rebuild (t : tree) : NoDup (ids t) -> NoDup (ids (rebuild F t)).
Proof.
  rewrite ids_rebuild, (ids_eq t), !NoDup_cons. intros [Hr Hnd]. split.
  - intros Hin. apply Hr. apply elem_of_map in Hin as (x & -> & Hx).
    apply elem_of_filter_bool in Hx as [Hx _]. apply elem_of_map. eauto.
  - apply NoDup_map_filter. exact Hnd.
Qed.

Lemma cleaned_lookup (d : gmap handle bookmark) (t : tree) :
  cleaned F d t ->
  d !! root_of t = Some (Bookmark (title_of t) (map root_of (kids_of (rebuild F t)))).
Proof. destruct 1. assumption. Qed.

Lemma cleaned_kids (d : gmap handle bookmark) (t : tree) :
  cleaned F d t -> Forall (cleaned F d) (kids_of t).
Proof. destruct 1. assumption. Qed.

(** The cleaned store holds the rebuilt tree. *)
Lemma cleaned_repr (d : gmap handle bookmark) (t : tree) :
  cleaned F d t -> repr d (rebuild F t).
Proof.
  induction t as [h ti ks IH] using tree_ind'. intros Hc.
  inversion Hc as [h0 ti0 ks0 Hh Hks]; subst.
  rewrite rebuild_eq. constructor; [exact Hh|].
  rewrite Forall_forall in IH, Hks |- *. intros x Hx.
  apply elem_of_flat_map in Hx as (c & Hc' & Hx).
  specialize (IH c Hc' (Hks c Hc')). unfold promoted in Hx.
  destruct (is_filtered F (title_of c)).
  - apply repr_kids in IH. rewrite Forall_forall in IH. auto.
  - apply elem_of_cons in Hx as [->|Hx]; [exact IH|].
    apply elem_of_nil in Hx. destruct Hx.
Qed.

(** Two cleaned stores agree on every bookmark of the tree. *)
Lemma cleaned_agree (d1 d2 : gmap handle bookmark) (t : tree) (n : handle) :
  cleaned F d1 t -> cleaned F d2 t -> n ∈ ids t -> d1 !! n = d2 !! n.
Proof.
  induction t as [h ti ks IH] using tree_ind'. intros H1 H2 Hn.
  inversion H1 as [? ? ? Hh1 Hks1]; subst.
  inversion H2 as [? ? ? Hh2 Hks2]; subst.
  simpl in Hn. apply elem_of_cons in Hn as [->|Hn].
  - rewrite Hh1, Hh2. reflexivity.
  - apply elem_of_flat_map in Hn as (c & Hc & Hn).
    rewrite Forall_forall in IH, Hks1, Hks2.
    exact (IH c Hc (Hks1 c Hc) (Hks2 c Hc) Hn).
Qed.

End Rebuild.

(** ** Reachability in a store that holds a tree *)

Lemma repr_edge (d : gmap handle bookmark) (t : tree) (k : handle) :
  repr d t -> (edge d (root_of t) k <-> exists c, c ∈ kids_of t /\ root_of c = k).
Proof.
  intros Hr. pose proof (repr_lookup _ _ Hr) as Hl. unfold edge. split.
  - intros (b & Hb & Hk). rewrite Hl in Hb. injection Hb as <-. simpl in Hk.
    apply elem_of_map in Hk as (c & -> & Hc). eauto.
  - intros (c & Hc & <-). eexists. split; [exact Hl|]. simpl.
    apply elem_of_map. eauto.
Qed.

Lemma reachable_ids_1 (d : gmap handle bookmark) (x n : handle) :
  rtc (edge d) x n -> forall t, root_of t = x -> repr d t -> n ∈ ids t.
Proof.
  induction 1 as [x|x y z Hxy _ IH]; intros t <- Hr.
  - apply root_in_ids.
  - apply (repr_edge _ _ _ Hr) in Hxy as (c & Hc & <-).
    apply (ids_child t c); [exact Hc|].
    apply IH; [reflexivity|].
    pose proof (repr_kids _ _ Hr) as Hks. rewrite Forall_forall in Hks. auto.
Qed.

Lemma reachable_ids_2 (d : gmap handle bookmark) (t : tree) (n : handle) :
  repr d t -> n ∈ ids t -> rtc (edge d) (root_of t) n.
Proof.
  induction t as [h ti ks IH] using tree_ind'. intros Hr Hn.
  simpl in Hn. apply elem_of_cons in Hn as [->|Hn]; [apply rtc_refl|].
  apply elem_of_flat_map in Hn as (c & Hc & Hn).
  pose proof (repr_kids _ _ Hr) as Hks. simpl in Hks.
  rewrite Forall_forall in IH, Hks.
  apply rtc_l with (root_of c); [|auto].
  apply (repr_edge _ _ _ Hr). eauto.
Qed.

Lemma reachable_ids (d : gmap handle bookmark) (t : tree) (n : handle) :
  repr d t -> (reachable d (root_of t) n <-> n ∈ ids t).
Proof.
  intros Hr. split.
  - intros H. eapply reachable_ids_1; eauto.
  - apply reachable_ids_2. exact Hr.
Qed.

Lemma tc_below (d : gmap handle bookmark) (t : tree) (n : handle) :
  repr d t -> tc (edge d) (root_of t) n -> n ∈ flat_map ids (kids_of t).
Proof.
  intros Hr Htc.
  assert (exists y, edge d (root_of t) y /\ rtc (edge d) y n) as (y & Hxy & Hyn).
  { inversion Htc as [? ? Hxy|? y ? Hxy Hyn]; subst.
    - exists n. split; [exact Hxy|apply rtc_refl].
    - exists y. split; [exact Hxy|apply tc_rtc; exact Hyn]. }
  apply (repr_edge _ _ _ Hr) in Hxy as (c & Hc & <-).
  apply elem_of_flat_map. exists c. split; [exact Hc|].
  eapply reachable_ids_1; [exact Hyn|reflexivity|].
  pose proof (repr_kids _ _ Hr) as Hks. rewrite Forall_forall in Hks. auto.
Qed.

(** Every handle of a proper tree is the root of a proper tree. *)
Lemma subtree_at (d : gmap handle bookmark) (t : tree) (n : handle) :
  repr d t -> NoDup (ids t) -> n ∈ ids t ->
  exists s, root_of s = n /\ repr d s /\ NoDup (ids s).
Proof.
  induction t as [h ti ks IH] using tree_ind'. intros Hr Hnd Hn.
  simpl in Hn. apply elem_of_cons in Hn as [->|Hn].
  - exists (Node h ti ks). auto.
  - apply elem_of_flat_map in Hn as (c & Hc & Hn).
    pose proof (repr_kids _ _ Hr) as Hks. simpl in Hks.
    rewrite Forall_forall in IH, Hks.
    apply (IH c Hc); auto.
    apply (NoDup_child (Node h ti ks)); auto.
Qed.

Lemma proper_acyclic (d : gmap handle bookmark) (t : tree) (n : handle) :
  repr d t -> NoDup (ids t) -> n ∈ ids t -> ~ tc (edge d) n n.
Proof.
  intros Hr Hnd Hn Htc.
  destruct (subtree_at _ _ _ Hr Hnd Hn) as (s & <- & Hrs & Hnds).
  apply (tc_below _ _ _ Hrs) in Htc.
  destruct s as [h ti ks]. simpl in *.
  apply NoDup_cons in Hnds as [Hh _]. auto.
Qed.

Lemma NoDup_flat_map_common {A B} (f : A -> list B) (l : list A) (x y : A) (z : B) :
  NoDup (flat_map f l) -> x ∈ l -> y ∈ l -> z ∈ f x -> z ∈ f y -> x = y.
Proof.
  induction l as [|a l IH]; simpl; intros Hnd Hx Hy Hzx Hzy.
  - apply elem_of_nil in Hx. destruct Hx.
  - apply NoDup_app in Hnd as (_ & Hdisj & Hnd).
    apply elem_of_cons in Hx as [->|Hx]; apply elem_of_cons in Hy as [->|Hy].
    + reflexivity.
    + exfalso. apply (Hdisj z Hzx), elem_of_flat_map. eauto.
    + exfalso. apply (Hdisj z Hzy), elem_of_flat_map. eauto.
    + auto.
Qed.

Lemma edge_below (d : gmap handle bookmark) (t : tree) (p k : handle) :
  repr d t -> p ∈ ids t -> edge d p k -> k ∈ flat_map ids (kids_of t).
Proof.
  intros Hr Hp He. apply (tc_below d t k Hr).
  eapply tc_rtc_l; [apply reachable_ids_2; eauto|]. apply tc_once. exact He.
Qed.

(** In a proper tree no bookmark has two parents. *)
Lemma one_parent (d : gmap handle bookmark) (t : tree) (p1 p2 k : handle) :
  repr d t -> NoDup (ids t) -> p1 ∈ ids t -> p2 ∈ ids t ->
  edge d p1 k -> edge d p2 k -> p1 = p2.
Proof.
  induction t as [h ti ks IH] using tree_ind'. intros Hr Hnd H1 H2 He1 He2.
  pose proof (repr_kids _ _ Hr) as Hks. simpl in Hks.
  rewrite Forall_forall in IH, Hks.
  assert (forall c p, c ∈ ks -> p ∈ ids c -> edge d p k ->
                      k ∈ ids c /\ k ≠ root_of c) as Hlow.
  { intros c p Hc Hp He.
    pose proof (edge_below d c p k (Hks c Hc) Hp He) as Hk.
    pose proof (NoDup_child (Node h ti ks) c Hnd Hc) as Hndc.
    destruct c as [hc tc kc]. simpl in *. apply NoDup_cons in Hndc as [Hhc _].
    split; [apply elem_of_cons; auto|]. intros ->. contradiction. }
  assert (forall c, c ∈ ks -> edge d h k -> k ∈ ids c -> k = root_of c) as Htop.
  { intros c Hc He Hk. apply (repr_edge d (Node h ti ks) k Hr) in He as (c' & Hc' & <-).
    simpl in Hc', Hnd. apply NoDup_cons in Hnd as [_ Hnd].
    rewrite (NoDup_flat_map_common ids ks c' c (root_of c') Hnd Hc' Hc
               (root_in_ids c') Hk). reflexivity. }
  simpl in H1, H2, Hnd.
  apply elem_of_cons in H1 as [->|H1]; apply elem_of_cons in H2 as [->|H2].
  - reflexivity.
  - apply elem_of_flat_map in H2 as (c & Hc & H2).
    destruct (Hlow c p2 Hc H2 He2) as [Hk Hne]. exfalso. apply Hne. auto.
  - apply elem_of_flat_map in H1 as (c & Hc & H1).
    destruct (Hlow c p1 Hc H1 He1) as [Hk Hne]. exfalso. apply Hne. auto.
  - apply elem_of_flat_map in H1 as (c1 & Hc1 & H1).
    apply elem_of_flat_map in H2 as (c2 & Hc2 & H2).
    destruct (Hlow c1 p1 Hc1 H1 He1) as [Hk1 _].
    destruct (Hlow c2 p2 Hc2 H2 He2) as [Hk2 _].
    apply NoDup_cons in Hnd as [_ Hnd].
    pose proof (NoDup_flat_map_common ids ks c1 c2 k Hnd Hc1 Hc2 Hk1 Hk2) as <-.
    apply (IH c1 Hc1); auto.
    apply (NoDup_flat_map_elem ids ks c1 Hnd Hc1).
Qed.

Lemma proper_tree_one_parent (d : gmap handle bookmark) (r p1 p2 k : handle) :
  proper_tree d r -> reachable d r p1 -> reachable d r p2 ->
  edge d p1 k -> edge d p2 k -> p1 = p2.
Proof.
  intros (t & <- & Hr & Hnd) H1 H2.
  apply (reachable_ids d t p1 Hr) in H1. apply (reachable_ids d t p2 Hr) in H2.
  apply (one_parent d t); auto.
Qed.

Lemma proper_tree_acyclic (d : gmap handle bookmark) (r : handle) :
  proper_tree d r -> acyclic_from d r.
Proof.
  intros (t & <- & Hr & Hnd) n Hn.
  apply (proper_acyclic d t n Hr Hnd), (reachable_ids d t n Hr), Hn.
Qed.

(** ** The backward variant cleans a proper tree *)

Section Backward.

Import Api_bookmark_v1.

Variable F : list string.

Lemma collect_loop (c : handle) (b : bookmark) w (suffix : list handle) :
  heap w !! c = Some b ->
  forall prefix acc,
    bk_kids b = prefix ++ suffix ->
    foldM (collect c) (seq (length prefix) (length suffix)) acc w = Ok (acc ++ suffix, w).
Proof.
  intros Hc. induction suffix as [|x suffix IH]; intros prefix acc Hk; simpl.
  - rewrite app_nil_r. reflexivity.
  - unfold collect at 1.
    rewrite (bind_ok _ _ _ _ _ (bind_ok _ _ _ _ _ (GetChild_ok _ _ (length prefix) _ Hc))).
    rewrite Hk, list_lookup_middle by reflexivity.
    replace (S (length prefix)) with (length (prefix ++ [x])) by (rewrite length_app; simpl; lia).
    rewrite IH.
    + rewrite <- app_assoc. reflexivity.
    + rewrite Hk, <- app_assoc. reflexivity.
Qed.

Lemma grandchildren_of_ok (c : handle) (b : bookmark) w :
  heap w !! c = Some b -> grandchildren_of c w = Ok (bk_kids b, w).
Proof.
  intros Hc. unfold grandchildren_of.
  rewrite (bind_ok _ _ _ _ _ (GetNumChildren_ok _ _ _ Hc)).
  apply (collect_loop c b w (bk_kids b) Hc [] []). reflexivity.
Qed.

Lemma insert_loop (p : handle) ti (gcs : list handle) :
  forall w pre post,
    heap w !! p = Some (Bookmark ti (pre ++ post)) ->
    exists w', foldM (insert_at p) gcs (length pre) w = Ok (length pre + length gcs, w') /\
               heap w' = <[p := Bookmark ti (pre ++ gcs ++ post)]> (heap w) /\
               exists new,
                 trace w' = trace w ++ new /\
                 Forall (fun x => is_removal x.1 = false /\
                                  forall n, n ≠ p -> x.2 !! n = heap w !! n) new.
Proof.
  induction gcs as [|g gcs IH]; intros w pre post Hp; simpl.
  - exists w. split; [unfold ret; f_equal; f_equal; lia|]. split.
    + symmetry. apply insert_id. exact Hp.
    + exists []. rewrite app_nil_r. auto.
  - destruct (AddChild_ok w p g ti pre post Hp) as (w1 & Hadd & Hw1 & Ht1).
    unfold insert_at at 1.
    rewrite (bind_ok _ _ _ _ _ (bind_ok _ _ _ _ _ Hadd)).
    destruct (IH w1 (pre ++ [g]) post) as (w' & Hloop & Hw' & new & Ht' & Hnew).
    { rewrite Hw1, lookup_insert_eq, <- app_assoc. reflexivity. }
    rewrite length_app in Hloop. simpl in Hloop.
    exists w'. split; [|split].
    + rewrite Hloop. f_equal. f_equal. lia.
    + rewrite Hw', Hw1, insert_insert_eq, <- app_assoc. reflexivity.
    + exists ((Inserted p (length pre) g, heap w1) :: new). split.
      * rewrite Ht', Ht1, <- app_assoc. reflexivity.
      * constructor.
        -- split; [reflexivity|]. intros n Hn. simpl.
           rewrite Hw1, lookup_insert_ne by auto. reflexivity.
        -- eapply Forall_impl; [exact Hnew|]. intros x [Hx1 Hx2]. split; [exact Hx1|].
           intros n Hn. rewrite Hx2, Hw1, lookup_insert_ne by auto. reflexivity.
Qed.

Lemma for_each_cons {A} (x : A) (l : list A) (body : A -> M unit) :
  for_each (x :: l) body = bind (body x) (fun _ => for_each l body).
Proof. reflexivity. Qed.

Lemma promoted_repr (d : gmap handle bookmark) (c : tree) :
  cleaned F d c -> Forall (repr d) (promoted F c).
Proof.
  intros Hc. apply (cleaned_repr F) in Hc. unfold promoted.
  destruct (is_filtered F (title_of c)).
  - apply repr_kids. exact Hc.
  - constructor; [exact Hc|constructor].
Qed.

Lemma promoted_ids (c : tree) (n : handle) :
  n ∈ flat_map ids (promoted F c) -> n ∈ ids c.
Proof.
  intros Hn. apply (ids_rebuild_sub F). unfold promoted in Hn.
  destruct (is_filtered F (title_of c)).
  - apply elem_of_flat_map in Hn as (k & Hk & Hn). eapply ids_child; eauto.
  - simpl in Hn. rewrite app_nil_r in Hn. exact Hn.
Qed.

Lemma promoted_NoDup (c : tree) :
  NoDup (ids c) -> NoDup (flat_map ids (promoted F c)).
Proof.
  intros Hnd. apply (NoDup_rebuild F) in Hnd. unfold promoted.
  destruct (is_filtered F (title_of c)).
  - destruct (rebuild F c) as [h ti ks]. simpl in *.
    apply NoDup_cons in Hnd as [_ Hnd]. exact Hnd.
  - simpl. rewrite app_nil_r. exact Hnd.
Qed.

(** One round of the loop: the child at position [length pre] is cleaned
    and, when its title is matched, gives way to its children. *)
Lemma visit_ok (rec : option handle -> M unit) (h : handle) ti (c : tree)
    (pre done : list handle) w :
  cleans_quietly F rec c ->
  h ∉ ids c ->
  NoDup (ids c) ->
  heap w !! h = Some (Bookmark ti (pre ++ root_of c :: done)) ->
  repr (heap w) c ->
  exists w2,
    visit rec F h (length pre) w = Ok (tt, w2) /\
    heap w2 !! h = Some (Bookmark ti (pre ++ map root_of (promoted F c) ++ done)) /\
    cleaned F (heap w2) c /\
    (forall n, n ≠ h -> n ∉ ids c -> heap w2 !! n = heap w !! n) /\
    exists new,
      trace w2 = trace w ++ new /\
      Forall (level_settled h ti (ids c) pre done (heap w)) new.
Proof.
  intros Hrec Hh Hnd Hp Hrepr. unfold visit.
  rewrite (bind_ok _ _ _ _ _ (GetChild_ok _ _ _ _ Hp)). cbn [bk_kids].
  rewrite list_lookup_middle by reflexivity.
  destruct (Hrec w Hrepr) as (w1 & Hrun & Hcl & Hfr & new1 & Ht1 & Hnew1).
  rewrite (bind_ok _ _ _ _ _ Hrun).
  pose proof (cleaned_lookup F _ _ Hcl) as Hc1.
  rewrite (bind_ok _ _ _ _ _ (GetTitle_ok _ _ _ Hc1)). cbn [bk_title].
  assert (heap w1 !! h = Some (Bookmark ti (pre ++ root_of c :: done))) as Hp1.
  { rewrite Hfr; auto. }
  assert (Forall (level_settled h ti (ids c) pre done (heap w)) new1) as Hlev1.
  { eapply Forall_impl; [exact Hnew1|]. intros x [Hx1 Hx2]. split; [auto|].
    intros Hrm. destruct (Hx2 Hrm) as (t' & Hroot & Hr' & Hnd' & Hsub).
    exists [t']. simpl. rewrite Hroot, app_nil_r.
    split; [rewrite Hx1; auto|]. split; [constructor; auto|]. auto. }
  unfold promoted. destruct (is_filtered F (title_of c)) eqn:Hhit.
  - rewrite (bind_ok _ _ _ _ _ (grandchildren_of_ok _ _ _ Hc1)). cbn [bk_kids].
    set (gcs := map root_of (kids_of (rebuild F c))).
    unfold move_up.
    destruct (insert_loop h ti gcs w1 (pre ++ [root_of c]) done)
      as (w2 & Hins & Hw2 & new2 & Ht2 & Hnew2).
    { rewrite <- app_assoc. exact Hp1. }
    rewrite length_app in Hins. simpl in Hins.
    rewrite (bind_ok _ _ _ _ _ Hins).
    destruct (RemoveChild_ok w2 h (root_of c) ti pre (gcs ++ done)) as (w3 & Hrm & Hw3 & Ht3).
    { rewrite Hw2, lookup_insert_eq, <- app_assoc. reflexivity. }
    rewrite Hrm.
    assert (cleaned F (heap w3) c) as Hcl3.
    { apply (cleaned_frame F (heap w1)); [|exact Hcl].
      intros n Hn. rewrite Hw3, Hw2, !lookup_insert_ne; auto; intros ->; contradiction. }
    assert (forall n, n ≠ h -> n ∉ ids c -> heap w3 !! n = heap w !! n) as Hfr3.
    { intros n Hn1 Hn2. rewrite Hw3, Hw2, !lookup_insert_ne by auto. auto. }
    exists w3. split; [reflexivity|].
    split; [rewrite Hw3, lookup_insert_eq; reflexivity|].
    split; [exact Hcl3|]. split; [exact Hfr3|].
    exists (new1 ++ new2 ++ [(Removed h (length pre), heap w3)]). split.
    + rewrite Ht3, Ht2, Ht1, <- !app_assoc. reflexivity.
    + apply Forall_app. split; [exact Hlev1|]. apply Forall_app. split.
      * eapply Forall_impl; [exact Hnew2|]. intros x [Hx1 Hx2]. split.
        -- intros n Hn1 Hn2. rewrite Hx2 by exact Hn1. auto.
        -- rewrite Hx1. discriminate.
      * constructor; [|constructor]. split; [exact Hfr3|]. intros _. simpl.
        exists (kids_of (rebuild F c)). split; [|split; [|split]].
        -- rewrite Hw3, lookup_insert_eq. reflexivity.
        -- apply repr_kids, cleaned_repr. exact Hcl3.
        -- pose proof (promoted_NoDup c Hnd) as Hpn.
           rewrite (promoted_hit F c Hhit) in Hpn. exact Hpn.
        -- intros n Hn. apply promoted_ids. rewrite (promoted_hit F c Hhit). exact Hn.
  - exists w1. split; [reflexivity|]. simpl. rewrite root_rebuild.
    split; [exact Hp1|]. split; [exact Hcl|]. split; [auto|].
    exists new1. auto.
Qed.

(** The loop over [range(count - 1, -1, -1)], from any position down:
    [pre] holds the children not yet visited, [done] what the rounds so
    far have left to their right. *)
Lemma visit_loop (rec : option handle -> M unit) (h : handle) ti (pre : list tree) :
  Forall (cleans_quietly F rec) pre ->
  h ∉ flat_map ids pre ->
  NoDup (flat_map ids pre) ->
  forall done w,
    heap w !! h = Some (Bookmark ti (map root_of pre ++ done)) ->
    Forall (repr (heap w)) pre ->
    exists w',
      for_each (rev (seq 0 (length pre))) (visit rec F h) w = Ok (tt, w') /\
      heap w' !! h = Some (Bookmark ti (map root_of (flat_map (promoted F) pre) ++ done)) /\
      Forall (cleaned F (heap w')) pre /\
      (forall n, n ≠ h -> n ∉ flat_map ids pre -> heap w' !! n = heap w !! n) /\
      exists new,
        trace w' = trace w ++ new /\
        Forall (level_settled h ti (flat_map ids pre) [] done (heap w)) new.
Proof.
  induction pre as [|c pre IH] using rev_ind; intros Hrec Hh Hnd done w Hp Hrepr.
  - exists w. simpl. repeat split; auto. exists []. rewrite app_nil_r. auto.
  - apply Forall_app in Hrec as [Hrec Hc]. apply Forall_inv in Hc.
    apply Forall_app in Hrepr as [Hrepr Hrc]. apply Forall_inv in Hrc.
    rewrite flat_map_app in Hh, Hnd. simpl in Hh, Hnd. rewrite app_nil_r in Hh, Hnd.
    apply not_elem_of_app in Hh as [Hh Hhc].
    apply NoDup_app in Hnd as (Hnd & Hdisj & Hndc).
    rewrite map_app, <- app_assoc in Hp. simpl in Hp.
    destruct (visit_ok rec h ti c (map root_of pre) done w Hc Hhc Hndc Hp Hrc)
      as (w2 & Hvis & Hp2 & Hcl2 & Hfr2 & newA & HtA & HnewA).
    rewrite length_map in Hvis.
    assert (forall (d : gmap handle bookmark),
              (forall n, n ≠ h -> n ∉ ids c -> d !! n = heap w !! n) ->
              Forall (repr d) pre) as Hkeep.
    { intros d Hd. rewrite Forall_forall in Hrepr |- *. intros x Hx.
      apply (repr_frame (heap w)); [|auto].
      intros n Hn. apply Hd.
      - intros ->. apply Hh, elem_of_flat_map. eauto.
      - apply Hdisj, elem_of_flat_map. eauto. }
    destruct (IH Hrec Hh Hnd (map root_of (promoted F c) ++ done) w2 Hp2 (Hkeep _ Hfr2))
      as (w' & Hloop & Hp' & Hcl' & Hfr' & newB & HtB & HnewB).
    exists w'. split; [|split; [|split; [|split]]].
    + rewrite length_app. simpl. rewrite Nat.add_1_r, rev_seq_S, for_each_cons.
      rewrite (bind_ok _ _ _ _ _ Hvis). exact Hloop.
    + rewrite Hp', flat_map_app, map_app. simpl. rewrite app_nil_r, <- app_assoc.
      reflexivity.
    + apply Forall_app. split; [exact Hcl'|]. constructor; [|constructor].
      apply (cleaned_frame F (heap w2)); [|exact Hcl2].
      intros n Hn. apply Hfr'.
      * intros ->. contradiction.
      * intros Hin. apply (Hdisj n Hin Hn).
    + intros n Hn1 Hn2. rewrite flat_map_app in Hn2. simpl in Hn2.
      rewrite app_nil_r in Hn2. apply not_elem_of_app in Hn2 as [Hn2 Hn3].
      rewrite Hfr', Hfr2; auto.
    + exists (newA ++ newB). split; [rewrite HtB, HtA, <- app_assoc; reflexivity|].
      rewrite flat_map_app. simpl. rewrite app_nil_r.
      apply Forall_app. split.
      * eapply Forall_impl; [exact HnewA|]. intros x [Hx1 Hx2]. split.
        -- intros n Hn1 Hn2. apply not_elem_of_app in Hn2 as [Hn2 Hn3]. auto.
        -- intros Hrm. destruct (Hx2 Hrm) as (ks' & Hxh & Hxr & Hxn & Hxs).
           exists (pre ++ ks'). split; [|split; [|split]].
           ++ rewrite Hxh, map_app, <- app_assoc. reflexivity.
           ++ apply Forall_app. split; [apply Hkeep; exact Hx1|exact Hxr].
           ++ rewrite flat_map_app. apply NoDup_app. split; [exact Hnd|].
              split; [|exact Hxn]. intros n Hn1 Hn2. apply (Hdisj n Hn1). auto.
           ++ intros n Hn. rewrite flat_map_app in Hn.
              apply elem_of_app in Hn as [Hn|Hn]; apply elem_of_app; auto.
      * eapply Forall_impl; [exact HnewB|]. intros x [Hx1 Hx2]. split.
        -- intros n Hn1 Hn2. apply not_elem_of_app in Hn2 as [Hn2 Hn3].
           rewrite Hx1, Hfr2; auto.
        -- intros Hrm. destruct (Hx2 Hrm) as (ks' & Hxh & Hxr & Hxn & Hxs).
           exists (ks' ++ promoted F c). split; [|split; [|split]].
           ++ rewrite Hxh, map_app, <- app_assoc. reflexivity.
           ++ apply Forall_app. split; [exact Hxr|].
              pose proof (promoted_repr _ _ Hcl2) as Hpr.
              rewrite Forall_forall in Hpr |- *. intros k Hk.
              apply (repr_frame (heap w2)); [|auto].
              intros n Hn.
              assert (n ∈ ids c) as Hnc.
              { apply promoted_ids, elem_of_flat_map. eauto. }
              apply Hx1.
              ** intros ->. contradiction.
              ** intros Hin. apply (Hdisj n Hin Hnc).
           ++ rewrite flat_map_app. apply NoDup_app. split; [exact Hxn|].
              split; [|apply promoted_NoDup; exact Hndc].
              intros n Hn1 Hn2. apply (Hdisj n (Hxs n Hn1)), promoted_ids, Hn2.
           ++ intros n Hn. rewrite flat_map_app in Hn.
              apply elem_of_app in Hn as [Hn|Hn]; apply elem_of_app;
                [left; auto|right; apply promoted_ids; exact Hn].
Qed.

(** [clean] of [Api_bookmark_v1] returns on every proper tree, and leaves
    it cleaned. *)
Lemma clean_bwd_sound (t : tree) :
  forall fuel w,
    size t < fuel -> NoDup (ids t) -> repr (heap w) t ->
    exists w',
      clean F fuel (Some (root_of t)) w = Ok (tt, w') /\
      cleaned F (heap w') t /\
      (forall n, n ∉ ids t -> heap w' !! n = heap w !! n) /\
      during t w w'.
Proof.
  induction t as [h ti ks IH] using tree_ind'. intros fuel w Hfuel Hnd Hr.
  destruct fuel as [|fuel]; [lia|]. simpl clean. simpl root_of.
  pose proof (repr_lookup _ _ Hr) as Hp. simpl in Hp.
  rewrite (bind_ok _ _ _ _ _ (GetNumChildren_ok _ _ _ Hp)). cbn [bk_kids].
  rewrite length_map.
  assert (Forall (cleans_quietly F (clean F fuel)) ks) as Hrec.
  { rewrite Forall_forall in IH |- *. intros c Hc w0 Hr0.
    apply IH; auto.
    - pose proof (size_child (Node h ti ks) c Hc). lia.
    - apply (NoDup_child (Node h ti ks)); auto. }
  simpl in Hnd. apply NoDup_cons in Hnd as [Hh Hnd].
  destruct (visit_loop (clean F fuel) h ti ks Hrec Hh Hnd [] w)
    as (w' & Hloop & Hp' & Hcl' & Hfr' & new & Ht & Hnew).
  { rewrite app_nil_r. exact Hp. }
  { apply (repr_kids _ _ Hr). }
  exists w'. split; [exact Hloop|]. split; [|split].
  - constructor; [|exact Hcl']. rewrite app_nil_r in Hp'. exact Hp'.
  - intros n Hn. simpl in Hn. apply not_elem_of_cons in Hn as [Hn1 Hn2]. auto.
  - exists new. split; [exact Ht|].
    eapply Forall_impl; [exact Hnew|]. intros x [Hx1 Hx2]. split.
    + intros n Hn. simpl in Hn. apply not_elem_of_cons in Hn as [Hn1 Hn2]. auto.
    + intros Hrm. destruct (Hx2 Hrm) as (ks' & Hxh & Hxr & Hxn & Hxs).
      exists (Node h ti ks'). split; [reflexivity|]. split; [|split].
      * constructor; [|exact Hxr]. rewrite app_nil_r in Hxh. exact Hxh.
      * simpl. apply NoDup_cons. split; [|exact Hxn]. intros Hin. apply Hh. auto.
      * intros n Hn. simpl in Hn |- *. apply elem_of_cons in Hn as [->|Hn];
          apply elem_of_cons; auto.
Qed.

End Backward.

(** ** The forward variant cleans a proper tree *)

Section Forward.

Import Bookmark_app.

Variable F : list string.

Lemma splice_loop (p c : handle) ti (bc : bookmark) (suffix : list handle) :
  p ≠ c ->
  forall w prefix pre post count,
    heap w !! c = Some bc ->
    bk_kids bc = prefix ++ suffix ->
    heap w !! p = Some (Bookmark ti (pre ++ post)) ->
    exists w',
      foldM (splice_one p c) (seq (length prefix) (length suffix)) (length pre, count) w
      = Ok ((length pre + length suffix, count + length suffix), w') /\
      heap w' = <[p := Bookmark ti (pre ++ suffix ++ post)]> (heap w).
Proof.
  intros Hne. induction suffix as [|x suffix IH]; intros w prefix pre post count Hc Hk Hp; simpl.
  - exists w. split; [unfold ret; rewrite !Nat.add_0_r; reflexivity|].
    symmetry. apply insert_id. exact Hp.
  - destruct (AddChild_ok w p x ti pre post Hp) as (w1 & Hadd & Hw1 & _).
    destruct (IH w1 (prefix ++ [x]) (pre ++ [x]) post (count + 1)) as (w' & Hloop & Hw').
    { rewrite Hw1, lookup_insert_ne by exact Hne. exact Hc. }
    { rewrite Hk, <- app_assoc. reflexivity. }
    { rewrite Hw1, lookup_insert_eq, <- app_assoc. reflexivity. }
    rewrite !length_app in Hloop. simpl in Hloop.
    exists w'. split.
    + assert (splice_one p c (length pre, count) (length prefix) w
              = Ok ((length pre + 1, count + 1), w1)) as Hone.
      { unfold splice_one.
        rewrite (bind_ok _ _ _ _ _ (GetChild_ok _ _ (length prefix) _ Hc)).
        rewrite Hk, list_lookup_middle by reflexivity. cbn [fst snd].
        rewrite (bind_ok _ _ _ _ _ Hadd). reflexivity. }
      rewrite (bind_ok _ _ _ _ _ Hone).
      replace (S (length prefix)) with (length prefix + 1) by lia.
      rewrite Hloop. f_equal. f_equal. f_equal; lia.
    + rewrite Hw', Hw1, insert_insert_eq, <- app_assoc. reflexivity.
Qed.

(** The [while] loop from any position on: [done] holds what the rounds
    so far have left to the left of [i], [todo] the children not yet
    visited. *)
Lemma while_loop_ok (rec : option handle -> M unit) (h : handle) ti (todo : list tree) :
  Forall (cleans F rec) todo ->
  h ∉ flat_map ids todo ->
  NoDup (flat_map ids todo) ->
  forall n done w,
    length todo < n ->
    heap w !! h = Some (Bookmark ti (done ++ map root_of todo)) ->
    Forall (repr (heap w)) todo ->
    exists w',
      while_loop rec F h n (length done) (length done + length todo) w = Ok (tt, w') /\
      heap w' !! h = Some (Bookmark ti (done ++ map root_of (flat_map (promoted F) todo))) /\
      Forall (cleaned F (heap w')) todo /\
      (forall n, n ≠ h -> n ∉ flat_map ids todo -> heap w' !! n = heap w !! n).
Proof.
  induction todo as [|c todo IH]; intros Hrec Hh Hnd n done w Hn Hp Hrepr;
    (destruct n as [|n]; [simpl in Hn; lia|]); cbn [while_loop].
  - assert ((length done <? length done + length (@nil tree)) = false) as ->.
    { apply Nat.ltb_ge. simpl. lia. }
    exists w. simpl. auto.
  - assert ((length done <? length done + length (c :: todo)) = true) as ->.
    { apply Nat.ltb_lt. simpl. lia. }
    apply Forall_cons in Hrec as [Hc Hrec].
    apply Forall_cons in Hrepr as [Hrc Hrepr].
    simpl in Hh, Hnd, Hp, Hn.
    apply not_elem_of_app in Hh as [Hhc Hh].
    apply NoDup_app in Hnd as (Hndc & Hdisj & Hnd).
    rewrite (bind_ok _ _ _ _ _ (GetChild_ok _ _ _ _ Hp)). cbn [bk_kids].
    rewrite list_lookup_middle by reflexivity.
    destruct (Hc w Hrc) as (w1 & Hrun & Hcl & Hfr).
    rewrite (bind_ok _ _ _ _ _ Hrun). unfold deref.
    rewrite (bind_ok _ _ w1 (root_of c) w1) by reflexivity.
    pose proof (cleaned_lookup F _ _ Hcl) as Hc1.
    rewrite (bind_ok _ _ _ _ _ (GetTitle_ok _ _ _ Hc1)). cbn [bk_title].
    assert (heap w1 !! h = Some (Bookmark ti (done ++ root_of c :: map root_of todo))) as Hp1.
    { rewrite Hfr; auto. }
    assert (h ≠ root_of c) as Hne.
    { intros ->. apply Hhc, root_in_ids. }
    assert (forall w2, (forall n, n ≠ h -> heap w2 !! n = heap w1 !! n) ->
                       Forall (repr (heap w2)) todo) as Hkeep.
    { intros w2 Hw2. rewrite Forall_forall in Hrepr |- *. intros x Hx.
      apply (repr_frame (heap w)); [|auto].
      intros m Hm. rewrite Hw2, Hfr; auto.
      - intros Hin. apply (Hdisj m Hin), elem_of_flat_map. eauto.
      - intros ->. apply Hh, elem_of_flat_map. eauto. }
    destruct (is_filtered F (title_of c)) eqn:Hhit.
    + rewrite (bind_ok _ _ _ _ _ (GetNumChildren_ok _ _ _ Hc1)). cbn [bk_kids].
      set (gcs := map root_of (kids_of (rebuild F c))).
      unfold splice.
      destruct (splice_loop h (root_of c) ti _ gcs Hne w1 [] done
                  (root_of c :: map root_of todo) (length done + S (length todo)) Hc1
                  eq_refl Hp1) as (w2 & Hspl & Hw2).
      simpl in Hspl. rewrite (bind_ok _ _ _ _ _ Hspl). cbn [fst snd].
      destruct (RemoveChild_ok w2 h (root_of c) ti (done ++ gcs) (map root_of todo))
        as (w3 & Hrm & Hw3 & _).
      { rewrite Hw2, lookup_insert_eq, <- app_assoc. reflexivity. }
      rewrite length_app in Hrm. rewrite (bind_ok _ _ _ _ _ Hrm).
      destruct (IH Hrec Hh Hnd n (done ++ gcs) w3) as (w' & Hloop & Hp' & Hcl' & Hfr').
      { lia. }
      { rewrite Hw3, lookup_insert_eq. reflexivity. }
      { apply Hkeep. intros m Hm. rewrite Hw3, Hw2, !lookup_insert_ne by auto. reflexivity. }
      rewrite length_app in Hloop.
      replace (length done + S (length todo) + length gcs - 1)
        with (length done + length gcs + length todo) by lia.
      exists w'. split; [exact Hloop|]. split; [|split].
      * rewrite Hp'. simpl. rewrite (promoted_hit F c Hhit), map_app, <- app_assoc.
        reflexivity.
      * constructor; [|exact Hcl'].
        apply (cleaned_frame F (heap w1)); [|exact Hcl].
        intros m Hm.
        assert (m ≠ h) as Hmh by (intros ->; contradiction).
        assert (m ∉ flat_map ids todo) as Hmt by (intros Hin; apply (Hdisj m Hm Hin)).
        rewrite (Hfr' m Hmh Hmt), Hw3, Hw2, !lookup_insert_ne by auto. reflexivity.
      * intros m Hm1 Hm2. simpl in Hm2. apply not_elem_of_app in Hm2 as [Hm2 Hm3].
        rewrite Hfr', Hw3, Hw2, !lookup_insert_ne by auto. auto.
    + destruct (IH Hrec Hh Hnd n (done ++ [root_of c]) w1) as (w' & Hloop & Hp' & Hcl' & Hfr').
      { lia. }
      { rewrite <- app_assoc. exact Hp1. }
      { apply Hkeep. auto. }
      rewrite length_app in Hloop. simpl in Hloop.
      cbn [length].
      replace (length done + S (length todo)) with (length done + 1 + length todo) by lia.
      exists w'. split; [exact Hloop|]. split; [|split].
      * rewrite Hp'. simpl. rewrite (promoted_keep F c Hhit). simpl.
        rewrite root_rebuild, <- app_assoc. reflexivity.
      * constructor; [|exact Hcl'].
        apply (cleaned_frame F (heap w1)); [|exact Hcl].
        intros m Hm. apply Hfr'.
        -- intros ->. contradiction.
        -- intros Hin. apply (Hdisj m Hm Hin).
      * intros m Hm1 Hm2. simpl in Hm2. apply not_elem_of_app in Hm2 as [Hm2 Hm3].
        rewrite Hfr'; auto.
Qed.

(** [clean] of [app.py] returns on every proper tree, and leaves it
    cleaned. *)
Lemma clean_fwd_sound (t : tree) :
  forall fuel w,
    size t < fuel -> NoDup (ids t) -> repr (heap w) t ->
    exists w',
      clean F fuel (Some (root_of t)) w = Ok (tt, w') /\
      cleaned F (heap w') t /\
      (forall n, n ∉ ids t -> heap w' !! n = heap w !! n).
Proof.
  induction t as [h ti ks IH] using tree_ind'. intros fuel w Hfuel Hnd Hr.
  destruct fuel as [|fuel]; [lia|]. simpl clean. simpl root_of. unfold deref.
  rewrite (bind_ok _ _ w h w) by reflexivity.
  pose proof (repr_lookup _ _ Hr) as Hp. simpl in Hp.
  rewrite (bind_ok _ _ _ _ _ (GetNumChildren_ok _ _ _ Hp)). cbn [bk_kids].
  rewrite length_map.
  assert (Forall (cleans F (clean F fuel)) ks) as Hrec.
  { rewrite Forall_forall in IH |- *. intros c Hc w0 Hr0.
    apply IH; auto.
    - pose proof (size_child (Node h ti ks) c Hc). lia.
    - apply (NoDup_child (Node h ti ks)); auto. }
  simpl in Hnd. apply NoDup_cons in Hnd as [Hh Hnd].
  destruct (while_loop_ok (clean F fuel) h ti ks Hrec Hh Hnd fuel [] w)
    as (w' & Hloop & Hp' & Hcl' & Hfr').
  { pose proof (size_kids (Node h ti ks)). simpl in *. lia. }
  { exact Hp. }
  { apply (repr_kids _ _ Hr). }
  exists w'. split; [exact Hloop|]. split.
  - constructor; [|exact Hcl']. exact Hp'.
  - intros n Hn. simpl in Hn. apply not_elem_of_cons in Hn as [Hn1 Hn2]. auto.
Qed.

End Forward.

(** ** A tree without matched titles is left alone *)

Section Unmatched.

Import Api_bookmark_v1.

Variable F : list string.

Lemma visit_noop (rec : option handle -> M unit) (h c : handle) (i : nat)
    (b bc : bookmark) w :
  heap w !! h = Some b ->
  bk_kids b !! i = Some c ->
  rec (Some c) w = Ok (tt, w) ->
  heap w !! c = Some bc ->
  is_filtered F (bk_title bc) = false ->
  visit rec F h i w = Ok (tt, w).
Proof.
  intros Hh Hi Hrec Hc Hkeep. unfold visit.
  rewrite (bind_ok _ _ _ _ _ (GetChild_ok _ _ _ _ Hh)), Hi.
  rewrite (bind_ok _ _ _ _ _ Hrec).
  rewrite (bind_ok _ _ _ _ _ (GetTitle_ok _ _ _ Hc)), Hkeep.
  reflexivity.
Qed.

Lemma noop_loop (rec : option handle -> M unit) (h : handle) (b : bookmark) w :
  heap w !! h = Some b ->
  (forall c, c ∈ bk_kids b ->
     rec (Some c) w = Ok (tt, w) /\
     exists bc, heap w !! c = Some bc /\ is_filtered F (bk_title bc) = false) ->
  forall n, n <= length (bk_kids b) ->
    for_each (rev (seq 0 n)) (visit rec F h) w = Ok (tt, w).
Proof.
  intros Hh Hkids. induction n as [|n IH]; intros Hn; [reflexivity|].
  rewrite rev_seq_S, for_each_cons.
  destruct (lookup_lt_is_Some_2 (bk_kids b) n) as [c Hc]; [lia|].
  destruct (Hkids c) as (Hrec & bc & Hbc & Hkeep).
  { apply list_elem_of_lookup. eauto. }
  rewrite (bind_ok _ _ _ _ _ (visit_noop rec h c n b bc w Hh Hc Hrec Hbc Hkeep)).
  apply IH. lia.
Qed.

Lemma nodes_child (t c : tree) x : c ∈ kids_of t -> x ∈ nodes c -> x ∈ below t.
Proof. intros Hc Hx. apply elem_of_flat_map. eauto. Qed.

Lemma clean_bwd_noop (t : tree) :
  forall fuel w,
    size t < fuel -> repr (heap w) t ->
    (forall x, x ∈ below t -> is_filtered F x.2 = false) ->
    clean F fuel (Some (root_of t)) w = Ok (tt, w).
Proof.
  induction t as [h ti ks IH] using tree_ind'. intros fuel w Hfuel Hr Hkeep.
  destruct fuel as [|fuel]; [lia|]. simpl clean. simpl root_of.
  pose proof (repr_lookup _ _ Hr) as Hp. simpl in Hp.
  pose proof (repr_kids _ _ Hr) as Hks. simpl in Hks.
  rewrite (bind_ok _ _ _ _ _ (GetNumChildren_ok _ _ _ Hp)).
  apply (noop_loop _ h _ w Hp); [|reflexivity].
  cbn [bk_kids]. intros x Hx. apply elem_of_map in Hx as (c & -> & Hc).
  rewrite Forall_forall in IH, Hks.
  assert (forall y, y ∈ nodes c -> is_filtered F y.2 = false) as Hkc.
  { intros y Hy. apply Hkeep. apply (nodes_child (Node h ti ks) c); auto. }
  split.
  - apply IH; auto.
    + pose proof (size_child (Node h ti ks) c Hc). lia.
    + intros y Hy. apply Hkc. rewrite nodes_eq. apply elem_of_cons. auto.
  - eexists. split; [apply repr_lookup; auto|]. cbn [bk_title].
    apply (Hkc (root_of c, title_of c)). rewrite nodes_eq. apply elem_of_cons. auto.
Qed.

Lemma size_ids (t : tree) : size t = length (ids t).
Proof.
  induction t as [h ti ks IH] using tree_ind'. simpl. f_equal.
  induction IH as [|c ks Hc _ IHks]; simpl; [reflexivity|].
  rewrite length_app, Hc, IHks. reflexivity.
Qed.

Lemma size_rebuild (t : tree) : size (rebuild F t) <= size t.
Proof.
  rewrite !size_ids, ids_rebuild, (ids_eq t). simpl. rewrite !length_map.
  pose proof (filter_length_le (fun x => negb (is_filtered F x.2)) (below t)). lia.
Qed.

Lemma below_rebuild_unmatched (t : tree) x :
  x ∈ below (rebuild F t) -> is_filtered F x.2 = false.
Proof.
  rewrite below_rebuild. intros Hx. apply elem_of_filter_bool in Hx as [_ Hx].
  apply negb_true_iff. exact Hx.
Qed.

End Unmatched.

(** ** More fuel never changes an outcome *)

Lemma fuel_le_refl {A} (m : M A) : fuel_le m m.
Proof. intros w. auto. Qed.

Lemma fuel_le_bind {A B} (m1 m2 : M A) (k1 k2 : A -> M B) :
  fuel_le m1 m2 -> (forall a, fuel_le (k1 a) (k2 a)) ->
  fuel_le (bind m1 k1) (bind m2 k2).
Proof.
  intros Hm Hk w. unfold bind. destruct (Hm w) as [->| ->]; [auto|].
  destruct (m2 w) as [[a w1]|e]; [apply Hk|auto].
Qed.

Lemma fuel_le_for_each {A} (l : list A) (b1 b2 : A -> M unit) :
  (forall x, fuel_le (b1 x) (b2 x)) -> fuel_le (for_each l b1) (for_each l b2).
Proof.
  intros Hb. induction l as [|x l IH]; simpl; [apply fuel_le_refl|].
  apply fuel_le_bind; auto.
Qed.

Lemma visit_fuel_le (rec1 rec2 : option handle -> M unit) F h i :
  (forall x, fuel_le (rec1 x) (rec2 x)) ->
  fuel_le (Api_bookmark_v1.visit rec1 F h i) (Api_bookmark_v1.visit rec2 F h i).
Proof.
  intros Hrec. unfold Api_bookmark_v1.visit.
  apply fuel_le_bind; [apply fuel_le_refl|]. intros [c|]; [|apply fuel_le_refl].
  apply fuel_le_bind; [apply Hrec|]. intros _. apply fuel_le_refl.
Qed.

Lemma clean_bwd_fuel_le F (f1 : nat) :
  forall f2 parent, f1 <= f2 ->
    fuel_le (Api_bookmark_v1.clean F f1 parent) (Api_bookmark_v1.clean F f2 parent).
Proof.
  induction f1 as [|f1 IH]; intros f2 [p|] Hle;
    try (destruct f2; apply fuel_le_refl).
  - intros w. left. reflexivity.
  - destruct f2 as [|f2]; [lia|]. simpl.
    apply fuel_le_bind; [apply fuel_le_refl|]. intros count.
    apply fuel_le_for_each. intros i. apply visit_fuel_le. intros x. apply IH. lia.
Qed.

Lemma while_loop_fuel_le (rec1 rec2 : option handle -> M unit) F h (n1 : nat) :
  (forall x, fuel_le (rec1 x) (rec2 x)) ->
  forall n2 i count, n1 <= n2 ->
    fuel_le (Bookmark_app.while_loop rec1 F h n1 i count)
            (Bookmark_app.while_loop rec2 F h n2 i count).
Proof.
  intros Hrec. induction n1 as [|n1 IH]; intros n2 i count Hle.
  - intros w. left. reflexivity.
  - destruct n2 as [|n2]; [lia|]. simpl. destruct (i <? count); [|apply fuel_le_refl].
    apply fuel_le_bind; [apply fuel_le_refl|]. intros child.
    apply fuel_le_bind; [apply Hrec|]. intros _.
    apply fuel_le_bind; [apply fuel_le_refl|]. intros c.
    apply fuel_le_bind; [apply fuel_le_refl|]. intros title.
    destruct (is_filtered F title); [|apply IH; lia].
    apply fuel_le_bind; [apply fuel_le_refl|]. intros sub_count.
    apply fuel_le_bind; [apply fuel_le_refl|]. intros ic.
    apply fuel_le_bind; [apply fuel_le_refl|]. intros _. apply IH. lia.
Qed.

Lemma clean_fwd_fuel_le F (f1 : nat) :
  forall f2 parent, f1 <= f2 ->
    fuel_le (Bookmark_app.clean F f1 parent) (Bookmark_app.clean F f2 parent).
Proof.
  induction f1 as [|f1 IH]; intros f2 parent Hle.
  - intros w. left. reflexivity.
  - destruct f2 as [|f2]; [lia|]. simpl.
    apply fuel_le_bind; [apply fuel_le_refl|]. intros p.
    apply fuel_le_bind; [apply fuel_le_refl|]. intros count.
    apply while_loop_fuel_le; [|lia]. intros x. apply IH. lia.
Qed.

(** ** Every call of every run is in range *)

Lemma all_in_range_app d (l1 l2 : list (event * gmap handle bookmark)) :
  all_in_range d (l1 ++ l2) <-> all_in_range d l1 /\ all_in_range (last_store d l1) l2.
Proof.
  revert d. induction l1 as [|x l1 IH]; intros d; simpl.
  - tauto.
  - rewrite IH. unfold last_store. simpl. tauto.
Qed.

Lemma chained_refl w : chained w w.
Proof. exists []. rewrite app_nil_r. simpl. auto. Qed.

Lemma chained_trans w1 w2 w3 : chained w1 w2 -> chained w2 w3 -> chained w1 w3.
Proof.
  intros (n1 & Ht1 & Hr1 & Hh1) (n2 & Ht2 & Hr2 & Hh2). exists (n1 ++ n2).
  split; [rewrite Ht2, Ht1, app_assoc; reflexivity|]. split.
  - apply all_in_range_app. rewrite <- Hh1. auto.
  - rewrite Hh2, Hh1. unfold last_store. rewrite fold_left_app. reflexivity.
Qed.

Lemma chains_ret {A} (a : A) : chains (ret a).
Proof. intros w b w' H. apply ret_inv in H as [_ ->]. apply chained_refl. Qed.

Lemma chains_raise {A} (e : error) : chains (@raise A e).
Proof. intros w b w' H. discriminate. Qed.

Lemma chains_bind {A B} (m : M A) (k : A -> M B) :
  chains m -> (forall a, chains (k a)) -> chains (bind m k).
Proof.
  intros Hm Hk w b w' H. apply bind_inv in H as (a & w1 & H1 & H2).
  eapply chained_trans; [eapply Hm|eapply Hk]; eauto.
Qed.

Lemma chains_load n : chains (load n).
Proof.
  intros w b w' H. apply load_inv in H as (b' & _ & [= _ ->]). apply chained_refl.
Qed.

Lemma chains_GetNumChildren n : chains (GetNumChildren n).
Proof. apply chains_bind; [apply chains_load|]. intros b. apply chains_ret. Qed.

Lemma chains_GetChild n i : chains (GetChild n i).
Proof. apply chains_bind; [apply chains_load|]. intros b. apply chains_ret. Qed.

Lemma chains_GetTitle n : chains (GetTitle n).
Proof. apply chains_bind; [apply chains_load|]. intros b. apply chains_ret. Qed.

Lemma chains_deref h : chains (deref h).
Proof. destruct h; [apply chains_ret|apply chains_raise]. Qed.

Lemma chained_store e p b w u w' :
  in_range (heap w) e -> store e p b w = Ok (u, w') -> chained w w'.
Proof.
  intros He H. unfold store in H. injection H as _ <-.
  eexists. split; [reflexivity|]. simpl. auto.
Qed.

Lemma chains_AddChild p i sub : chains (AddChild p i sub).
Proof.
  intros w u w' H. unfold AddChild in H.
  apply bind_inv in H as (b & w1 & Hl & H).
  apply load_inv in Hl as (b' & Hb & [= <- <-]).
  destruct sub as [s|]; [|discriminate].
  destruct (i <=? length (bk_kids b)) eqn:Hi; [|discriminate].
  apply (chained_store _ _ _ _ _ _) in H; [exact H|].
  simpl. unfold kids_at. rewrite Hb. apply Nat.leb_le. exact Hi.
Qed.

Lemma chains_RemoveChild p i : chains (RemoveChild p i).
Proof.
  intros w u w' H. unfold RemoveChild in H.
  apply bind_inv in H as (b & w1 & Hl & H).
  apply load_inv in Hl as (b' & Hb & [= <- <-]).
  destruct (i <? length (bk_kids b)) eqn:Hi; [|discriminate].
  apply (chained_store _ _ _ _ _ _) in H; [exact H|].
  simpl. unfold kids_at. rewrite Hb. apply Nat.ltb_lt. exact Hi.
Qed.

Lemma chains_foldM {A S} (body : S -> A -> M S) (l : list A) :
  (forall s x, chains (body s x)) -> forall s, chains (foldM body l s).
Proof.
  intros Hb. induction l as [|x l IH]; intros s; simpl; [apply chains_ret|].
  apply chains_bind; auto.
Qed.

Lemma chains_for_each {A} (l : list A) (body : A -> M unit) :
  (forall x, chains (body x)) -> chains (for_each l body).
Proof.
  intros Hb. induction l as [|x l IH]; simpl; [apply chains_ret|].
  apply chains_bind; auto.
Qed.

Lemma chains_visit (rec : option handle -> M unit) F h i :
  (forall x, chains (rec x)) -> chains (Api_bookmark_v1.visit rec F h i).
Proof.
  intros Hrec. unfold Api_bookmark_v1.visit.
  apply chains_bind; [apply chains_GetChild|]. intros [c|]; [|apply chains_ret].
  apply chains_bind; [apply Hrec|]. intros _.
  apply chains_bind; [apply chains_GetTitle|]. intros title.
  destruct (is_filtered F title); [|apply chains_ret].
  apply chains_bind.
  { unfold Api_bookmark_v1.grandchildren_of.
    apply chains_bind; [apply chains_GetNumChildren|]. intros n.
    apply chains_foldM. intros acc j. unfold Api_bookmark_v1.collect.
    apply chains_bind; [apply chains_GetChild|]. intros sub. apply chains_ret. }
  intros gcs. apply chains_bind; [|intros _; apply chains_RemoveChild].
  unfold Api_bookmark_v1.move_up. apply chains_foldM. intros pos sub.
  unfold Api_bookmark_v1.insert_at.
  apply chains_bind; [apply chains_AddChild|]. intros _. apply chains_ret.
Qed.

Lemma chains_clean_bwd F (fuel : nat) :
  forall parent, chains (Api_bookmark_v1.clean F fuel parent).
Proof.
  induction fuel as [|fuel IH]; intros [p|]; simpl;
    try apply chains_ret; try apply chains_raise.
  apply chains_bind; [apply chains_GetNumChildren|]. intros count.
  apply chains_for_each. intros i. apply chains_visit. exact IH.
Qed.

Lemma chains_while_loop (rec : option handle -> M unit) F h (n : nat) :
  (forall x, chains (rec x)) ->
  forall i count, chains (Bookmark_app.while_loop rec F h n i count).
Proof.
  intros Hrec. induction n as [|n IH]; intros i count; simpl; [apply chains_raise|].
  destruct (i <? count); [|apply chains_ret].
  apply chains_bind; [apply chains_GetChild|]. intros child.
  apply chains_bind; [apply Hrec|]. intros _.
  apply chains_bind; [apply chains_deref|]. intros c.
  apply chains_bind; [apply chains_GetTitle|]. intros title.
  destruct (is_filtered F title); [|apply IH].
  apply chains_bind; [apply chains_GetNumChildren|]. intros sub_count.
  apply chains_bind.
  { unfold Bookmark_app.splice. apply chains_foldM. intros ic s.
    unfold Bookmark_app.splice_one.
    apply chains_bind; [apply chains_GetChild|]. intros sub.
    apply chains_bind; [apply chains_AddChild|]. intros _. apply chains_ret. }
  intros ic. apply chains_bind; [apply chains_RemoveChild|]. intros _. apply IH.
Qed.

Lemma chains_clean_fwd F (fuel : nat) :
  forall parent, chains (Bookmark_app.clean F fuel parent).
Proof.
  induction fuel as [|fuel IH]; intros parent; simpl; [apply chains_raise|].
  apply chains_bind; [apply chains_deref|]. intros p.
  apply chains_bind; [apply chains_GetNumChildren|]. intros count.
  apply chains_while_loop. exact IH.
Qed.

(** ** Links that every run preserves *)

Lemma GetChild_inv n i w r w' :
  GetChild n i w = Ok (r, w') ->
  w' = w /\ forall c, r = Some c -> edge (heap w) n c.
Proof.
  unfold GetChild. intros H. apply bind_inv in H as (b & w1 & Hl & H).
  apply load_inv in Hl as (b' & Hb & [= <- <-]). apply ret_inv in H as [-> ->].
  split; [reflexivity|]. intros c Hc. exists b. split; [exact Hb|].
  apply list_elem_of_lookup. eauto.
Qed.

Lemma GetTitle_inv n w r w' : GetTitle n w = Ok (r, w') -> w' = w.
Proof.
  unfold GetTitle. intros H. apply bind_inv in H as (b & w1 & Hl & H).
  apply load_inv in Hl as (b' & Hb & [= <- <-]). apply ret_inv in H as [-> ->].
  reflexivity.
Qed.

Lemma GetNumChildren_inv n w r w' : GetNumChildren n w = Ok (r, w') -> w' = w.
Proof.
  unfold GetNumChildren. intros H. apply bind_inv in H as (b & w1 & Hl & H).
  apply load_inv in Hl as (b' & Hb & [= <- <-]). apply ret_inv in H as [-> ->].
  reflexivity.
Qed.

Lemma collect_inv c (l : list nat) :
  forall acc w gcs w',
    foldM (Api_bookmark_v1.collect c) l acc w = Ok (gcs, w') ->
    w' = w /\ forall g, g ∈ gcs -> g ∈ acc \/ edge (heap w) c g.
Proof.
  induction l as [|j l IH]; intros acc w gcs w' H; simpl in H.
  - apply ret_inv in H as [-> ->]. auto.
  - apply bind_inv in H as (acc1 & w1 & Hc & H).
    unfold Api_bookmark_v1.collect in Hc.
    apply bind_inv in Hc as (sub & w2 & Hg & Hc).
    apply GetChild_inv in Hg as [-> Hsub]. apply ret_inv in Hc as [-> ->].
    apply IH in H as [-> Hg]. split; [reflexivity|].
    intros g Hin. destruct (Hg g Hin) as [Hacc|He]; [|auto].
    destruct sub as [s|]; [|auto].
    apply elem_of_app in Hacc as [Hacc|Hs]; [auto|].
    apply elem_of_cons in Hs as [->|Hs]; [auto|].
    apply elem_of_nil in Hs. destruct Hs.
Qed.

Lemma grandchildren_of_inv c w gcs w' :
  Api_bookmark_v1.grandchildren_of c w = Ok (gcs, w') ->
  w' = w /\ forall g, g ∈ gcs -> edge (heap w) c g.
Proof.
  unfold Api_bookmark_v1.grandchildren_of. intros H.
  apply bind_inv in H as (n & w1 & Hn & H).
  apply GetNumChildren_inv in Hn as ->.
  apply collect_inv in H as [-> Hg]. split; [reflexivity|].
  intros g Hin. destruct (Hg g Hin) as [Hnil|He]; [|exact He].
  apply elem_of_nil in Hnil. destruct Hnil.
Qed.

Lemma elem_of_insert_middle (l : list handle) (i : nat) (s k : handle) :
  k ∈ take i l ++ s :: drop i l -> k = s \/ k ∈ l.
Proof.
  rewrite elem_of_app, elem_of_cons. rewrite <- (take_drop i l) at 3.
  rewrite elem_of_app. tauto.
Qed.

Lemma elem_of_delete_middle (l : list handle) (i : nat) (k : handle) :
  k ∈ take i l ++ drop (S i) l -> k ∈ l.
Proof.
  rewrite elem_of_app. intros [Hk|Hk].
  - apply elem_of_take in Hk as (j & Hj & _). apply list_elem_of_lookup. eauto.
  - apply list_elem_of_lookup in Hk as (j & Hj). rewrite lookup_drop in Hj.
    apply list_elem_of_lookup. eauto.
Qed.

Section Links.

Variable R : relation handle.
Hypothesis R_trans : forall x y z, R x y -> R y z -> R x z.

Lemma store_links e p b w u w' :
  links_within R w ->
  (forall k, k ∈ bk_kids b -> R p k) ->
  store e p b w = Ok (u, w') ->
  links_within R w'.
Proof.
  intros [Hh Ht] Hb H. unfold store in H. injection H as _ <-.
  assert (edges_within R (<[p := b]> (heap w))) as He.
  { intros q bq k Hq Hk. destruct (decide (p = q)) as [<-|Hne].
    - rewrite lookup_insert_eq in Hq. injection Hq as <-. auto.
    - rewrite lookup_insert_ne in Hq by exact Hne. eauto. }
  split; [exact He|]. simpl. apply Forall_app. split; [exact Ht|].
  constructor; [exact He|constructor].
Qed.

Lemma AddChild_links p i s w u w' :
  links_within R w -> R p s ->
  AddChild p i (Some s) w = Ok (u, w') ->
  links_within R w'.
Proof.
  intros Hw Hs H. unfold AddChild in H.
  apply bind_inv in H as (b & w1 & Hl & H).
  apply load_inv in Hl as (b' & Hb & [= <- <-]).
  destruct (i <=? length (bk_kids b)); [|discriminate].
  apply (store_links _ _ _ _ _ _ Hw) in H; [exact H|].
  cbn [bk_kids]. intros k Hk. apply elem_of_insert_middle in Hk as [->|Hk]; [exact Hs|].
  destruct Hw as [Hh _]. eauto.
Qed.

Lemma RemoveChild_links p i w u w' :
  links_within R w ->
  RemoveChild p i w = Ok (u, w') ->
  links_within R w'.
Proof.
  intros Hw H. unfold RemoveChild in H.
  apply bind_inv in H as (b & w1 & Hl & H).
  apply load_inv in Hl as (b' & Hb & [= <- <-]).
  destruct (i <? length (bk_kids b)); [|discriminate].
  apply (store_links _ _ _ _ _ _ Hw) in H; [exact H|].
  cbn [bk_kids]. intros k Hk. apply elem_of_delete_middle in Hk.
  destruct Hw as [Hh _]. eauto.
Qed.

Lemma move_up_links p (gcs : list handle) :
  (forall g, g ∈ gcs -> R p g) ->
  forall pos w r w',
    links_within R w ->
    foldM (Api_bookmark_v1.insert_at p) gcs pos w = Ok (r, w') ->
    links_within R w'.
Proof.
  induction gcs as [|g gcs IH]; intros Hg pos w r w' Hw H; simpl in H.
  - apply ret_inv in H as [-> ->]. exact Hw.
  - apply bind_inv in H as (pos1 & w1 & Hi & H).
    unfold Api_bookmark_v1.insert_at in Hi.
    apply bind_inv in Hi as (u & w2 & Ha & Hi). apply ret_inv in Hi as [-> ->].
    apply (AddChild_links _ _ _ _ _ _ Hw) in Ha.
    + apply IH in H; auto. intros g' Hg'. apply Hg, elem_of_cons. auto.
    + apply Hg, elem_of_cons. auto.
Qed.

Lemma edge_links w p k : links_within R w -> edge (heap w) p k -> R p k.
Proof. intros [Hh _] (b & Hb & Hk). eauto. Qed.

Lemma visit_links (rec : option handle -> M unit) F h i :
  (forall x w u w', links_within R w -> rec x w = Ok (u, w') -> links_within R w') ->
  forall w u w',
    links_within R w ->
    Api_bookmark_v1.visit rec F h i w = Ok (u, w') ->
    links_within R w'.
Proof.
  intros Hrec w u w' Hw H. unfold Api_bookmark_v1.visit in H.
  apply bind_inv in H as (child & w1 & Hg & H).
  apply GetChild_inv in Hg as [-> Hchild].
  destruct child as [c|]; [|apply ret_inv in H as [-> ->]; exact Hw].
  assert (R h c) as Hhc by (eapply edge_links; eauto).
  apply bind_inv in H as (u1 & w1 & Hr & H).
  apply Hrec in Hr; [|exact Hw].
  apply bind_inv in H as (title & w2 & Ht & H). apply GetTitle_inv in Ht as ->.
  destruct (is_filtered F title); [|apply ret_inv in H as [-> ->]; exact Hr].
  apply bind_inv in H as (gcs & w2 & Hgc & H).
  apply grandchildren_of_inv in Hgc as [-> Hgcs].
  apply bind_inv in H as (pos & w3 & Hm & H).
  unfold Api_bookmark_v1.move_up in Hm.
  apply move_up_links in Hm; [|intros g Hg; eapply R_trans; [exact Hhc|]|exact Hr].
  - eapply RemoveChild_links; eauto.
  - eapply edge_links; eauto.
Qed.

Lemma for_each_links {A} (body : A -> M unit) (l : list A) :
  (forall x w u w', links_within R w -> body x w = Ok (u, w') -> links_within R w') ->
  forall w u w',
    links_within R w -> for_each l body w = Ok (u, w') -> links_within R w'.
Proof.
  intros Hbody. induction l as [|x l IH]; intros w u w' Hw H; simpl in H.
  - apply ret_inv in H as [-> ->]. exact Hw.
  - apply bind_inv in H as (u1 & w1 & Hb & H). eauto.
Qed.

(** Whatever the store, [clean] only adds links from a bookmark to a
    child of one of its children. *)
Lemma clean_bwd_links F (fuel : nat) :
  forall parent w u w',
    links_within R w ->
    Api_bookmark_v1.clean F fuel parent w = Ok (u, w') ->
    links_within R w'.
Proof.
  induction fuel as [|fuel IH]; intros [p|] w u w' Hw H; simpl in H;
    try discriminate; try (apply ret_inv in H as [-> ->]; exact Hw).
  apply bind_inv in H as (count & w1 & Hn & H). apply GetNumChildren_inv in Hn as ->.
  eapply for_each_links; [|exact Hw|exact H].
  intros i. apply visit_links. exact IH.
Qed.

End Links.

Lemma tc_within (d d' : gmap handle bookmark) x y :
  edges_within (tc (edge d)) d' -> tc (edge d') x y -> tc (edge d) x y.
Proof.
  intros He. induction 1 as [x y (b & Hb & Hk)|x y z (b & Hb & Hk) _ IH].
  - eauto.
  - eapply tc_transitive; [|exact IH]. eauto.
Qed.

Lemma rtc_within (d d' : gmap handle bookmark) x y :
  edges_within (tc (edge d)) d' -> rtc (edge d') x y -> rtc (edge d) x y.
Proof.
  intros He H. apply rtc_tc in H as [->|H]; [apply rtc_refl|].
  apply tc_rtc. eapply tc_within; eauto.
Qed.

Lemma acyclic_within (d d' : gmap handle bookmark) (t : tree) :
  repr d t -> NoDup (ids t) ->
  edges_within (tc (edge d)) d' ->
  acyclic_from d' (root_of t).
Proof.
  intros Hr Hnd He n Hn Hcyc.
  apply (proper_acyclic d t n Hr Hnd).
  - apply (reachable_ids d t n Hr). eapply rtc_within; eauto.
  - eapply tc_within; eauto.
Qed.

Lemma links_initially (d : gmap handle bookmark) :
  links_within (tc (edge d)) (World d []).
Proof.
  split; [|constructor]. intros p b k Hb Hk. apply tc_once. exists b. auto.
Qed.

(** ** The substring test *)

Lemma append_cons (a : ascii) (s t : string) :
  String.append (String a s) t = String a (String.append s t).
Proof. reflexivity. Qed.

Lemma starts_with_spec (pat s : string) :
  starts_with pat s = true <-> exists post, s = String.append pat post.
Proof.
  revert s. induction pat as [|a pat IH]; intros s; simpl.
  - split; [eauto|reflexivity].
  - destruct s as [|b s].
    + split; [discriminate|]. intros (post & H). rewrite append_cons in H. discriminate.
    + destruct (Ascii.eqb_spec a b) as [->|Hne].
      * rewrite IH. split; intros (post & H); exists post;
          rewrite append_cons in *; congruence.
      * split; [discriminate|]. intros (post & H). rewrite append_cons in H. congruence.
Qed.

Lemma contains_unfold (pat s : string) :
  contains pat s =
  starts_with pat s || match s with
                       | EmptyString => false
                       | String _ s' => contains pat s'
                       end.
Proof. destruct s; reflexivity. Qed.

Lemma contains_spec (pat s : string) :
  contains pat s = true <->
  exists pre post, s = String.append pre (String.append pat post).
Proof.
  split.
  - induction s as [|a s IH]; rewrite contains_unfold; intros H;
      apply orb_true_iff in H as [H|H].
    + apply starts_with_spec in H as (post & H). exists EmptyString, post. exact H.
    + discriminate.
    + apply starts_with_spec in H as (post & H). exists EmptyString, post. exact H.
    + destruct (IH H) as (pre & post & ->). exists (String a pre), post.
      rewrite append_cons. reflexivity.
  - intros (pre & post & ->). induction pre as [|a pre IH]; rewrite contains_unfold.
    + apply orb_true_iff. left. apply starts_with_spec. eauto.
    + apply orb_true_iff. right. exact IH.
Qed.

Lemma contains_empty (s : string) : contains EmptyString s = true.
Proof. destruct s; reflexivity. Qed.

Lemma contains_nonempty (pat : string) : pat <> EmptyString -> contains pat EmptyString = false.
Proof. destruct pat; [congruence|reflexivity]. Qed.

Lemma lower_empty (s : string) : lower s = EmptyString -> s = EmptyString.
Proof. destruct s; [reflexivity|discriminate]. Qed.

(** ** Labels and survivors *)

Lemma nodes_label_repr (d : gmap handle bookmark) (t : tree) x :
  repr d t -> x ∈ nodes t -> label_at d x.1 = x.2.
Proof.
  induction t as [h ti ks IH] using tree_ind'. intros Hr Hx.
  inversion Hr as [? ? ? Hh Hks]; subst. simpl in Hx.
  apply elem_of_cons in Hx as [->|Hx].
  - unfold label_at. simpl. rewrite Hh. reflexivity.
  - apply elem_of_flat_map in Hx as (c & Hc & Hx).
    rewrite Forall_forall in IH, Hks. exact (IH c Hc (Hks c Hc) Hx).
Qed.

Lemma nodes_label_cleaned F (d : gmap handle bookmark) (t : tree) x :
  cleaned F d t -> x ∈ nodes t -> label_at d x.1 = x.2.
Proof.
  induction t as [h ti ks IH] using tree_ind'. intros Hr Hx.
  inversion Hr as [? ? ? Hh Hks]; subst. simpl in Hx.
  apply elem_of_cons in Hx as [->|Hx].
  - unfold label_at. simpl. rewrite Hh. reflexivity.
  - apply elem_of_flat_map in Hx as (c & Hc & Hx).
    rewrite Forall_forall in IH, Hks. exact (IH c Hc (Hks c Hc) Hx).
Qed.

Lemma below_nodes (t : tree) x : x ∈ below t -> x ∈ nodes t.
Proof. rewrite nodes_eq, elem_of_cons. auto. Qed.

Lemma reach_repr (d : gmap handle bookmark) (t : tree) (n : handle) :
  repr d t ->
  (reachable d (root_of t) n <-> n = root_of t \/ exists ti, (n, ti) ∈ below t).
Proof.
  intros Hr. rewrite (reachable_ids d t n Hr), ids_eq, elem_of_cons, elem_of_map.
  split; (intros [Hn|Hx]; [left; exact Hn|right]).
  - destruct Hx as ([m ti] & -> & Hx). eauto.
  - destruct Hx as (ti & Hx). exists (n, ti). auto.
Qed.

Lemma reach_cleaned F (d : gmap handle bookmark) (t : tree) (n : handle) :
  cleaned F d t ->
  (reachable d (root_of t) n <->
   n = root_of t \/ exists ti, (n, ti) ∈ below t /\ is_filtered F ti = false).
Proof.
  intros Hc. pose proof (cleaned_repr F d t Hc) as Hr.
  rewrite <- (root_rebuild F t), (reachable_ids d _ n Hr), ids_rebuild.
  rewrite root_rebuild, elem_of_cons, elem_of_map.
  split; (intros [Hn|Hx]; [left; exact Hn|right]).
  - destruct Hx as ([m ti] & -> & Hx). apply elem_of_filter_bool in Hx as [Hx Hk].
    apply negb_true_iff in Hk. eauto.
  - destruct Hx as (ti & Hx & Hk). exists (n, ti). split; [reflexivity|].
    apply elem_of_filter_bool. split; [exact Hx|]. apply negb_true_iff. exact Hk.
Qed.

(** Who is left under the root of a cleaned store. *)
Lemma survivors (F : list string) (d d' : gmap handle bookmark) (t : tree) (n : handle) :
  repr d t -> cleaned F d' t -> n ≠ root_of t ->
  (reachable d' (root_of t) n <->
   reachable d (root_of t) n /\ is_filtered F (label_at d n) = false).
Proof.
  intros Hr Hc Hn. rewrite (reach_cleaned F d' t n Hc), (reach_repr d t n Hr). split.
  - intros [?|(ti & Hx & Hk)]; [contradiction|]. split; [eauto|].
    pose proof (nodes_label_repr d t (n, ti) Hr (below_nodes _ _ Hx)) as Hl.
    simpl in Hl. rewrite Hl. exact Hk.
  - intros [[?|(ti & Hx)] Hk]; [contradiction|]. right. exists ti. split; [exact Hx|].
    pose proof (nodes_label_repr d t (n, ti) Hr (below_nodes _ _ Hx)) as Hl.
    simpl in Hl. rewrite Hl in Hk. exact Hk.
Qed.

Lemma labels_kept (F : list string) (d d' : gmap handle bookmark) (t : tree) (n : handle) :
  repr d t -> cleaned F d' t -> n ∈ ids t -> label_at d' n = label_at d n.
Proof.
  intros Hr Hc Hn. rewrite ids_nodes in Hn. apply elem_of_map in Hn as ([m ti] & -> & Hx).
  pose proof (nodes_label_repr d t _ Hr Hx) as H1.
  pose proof (nodes_label_cleaned F d' t _ Hc Hx) as H2.
  simpl in *. congruence.
Qed.

Lemma is_filtered_matches (filters : list string) (label : option string) :
  is_filtered (map lower filters) label = true <-> matches filters label.
Proof.
  unfold is_filtered, matches. rewrite existsb_exists. split.
  - intros (p & Hp & Hc). apply in_map_iff in Hp as (f & <- & Hf).
    apply contains_spec in Hc as (pre & post & Hc).
    exists f, pre, post. rewrite list_elem_of_In. auto.
  - intros (f & pre & post & Hf & Hc). exists (lower f). split.
    + apply in_map_iff. exists f. rewrite <- list_elem_of_In. auto.
    + apply contains_spec. eauto.
Qed.

Lemma unmatched_empty_label (filters : list string) (label : option string) :
  (forall f, f ∈ filters -> f <> EmptyString) ->
  label = None \/ label = Some EmptyString ->
  is_filtered (map lower filters) label = false.
Proof.
  intros Hne Hl. apply not_true_is_false. intros H.
  apply existsb_exists in H as (p & Hp & Hc).
  apply in_map_iff in Hp as (f & <- & Hf). apply list_elem_of_In in Hf.
  assert (lower (title_or_empty label) = EmptyString) as Hlow
    by (destruct Hl as [-> | ->]; reflexivity).
  rewrite Hlow, contains_nonempty in Hc; [discriminate|].
  intros He. apply (Hne f Hf), lower_empty, He.
Qed.

Lemma matched_by_empty (filters : list string) (label : option string) :
  EmptyString ∈ filters -> is_filtered (map lower filters) label = true.
Proof.
  intros Hin. apply existsb_exists. exists EmptyString. split.
  - apply in_map_iff. exists EmptyString. rewrite <- list_elem_of_In. auto.
  - apply contains_empty.
Qed.

Lemma rebuild_all_matched (F : list string) (t : tree) :
  (forall label, is_filtered F label = true) -> kids_of (rebuild F t) = [].
Proof.
  intros Hall. induction t as [h ti ks IH] using tree_ind'. simpl.
  induction IH as [|c ks Hc _ IHks]; simpl; [reflexivity|].
  rewrite Hall, Hc, IHks. reflexivity.
Qed.

(** The child lists of a cleaned store, from those of the store given. *)
Lemma cleaned_spliced (F : list string) (d d' : gmap handle bookmark) (t : tree) (p : handle) :
  repr d t -> cleaned F d' t -> p ∈ ids t ->
  kids_at d' p = spliced F d d' (kids_at d p).
Proof.
  induction t as [h ti ks IH] using tree_ind'. intros Hr Hc Hp.
  inversion Hr as [? ? ? Hh Hks]; subst. inversion Hc as [? ? ? Hh' Hks']; subst.
  rewrite Forall_forall in IH, Hks, Hks'.
  simpl in Hp. apply elem_of_cons in Hp as [->|Hp].
  - unfold kids_at at 1 2. rewrite Hh, Hh'. cbn [bk_kids]. unfold spliced.
    rewrite map_flat_map, flat_map_map. apply flat_map_Forall_ext.
    apply Forall_forall. intros c Hin.
    unfold label_at, kids_at.
    rewrite (repr_lookup d c (Hks c Hin)), (cleaned_lookup F d' c (Hks' c Hin)).
    cbn [bk_title bk_kids]. unfold promoted.
    destruct (is_filtered F (title_of c)); [reflexivity|].
    simpl. rewrite root_rebuild. reflexivity.
  - apply elem_of_flat_map in Hp as (c & Hin & Hp). eauto.
Qed.

Lemma spliced_app F (d d' : gmap handle bookmark) (l1 l2 : list handle) :
  spliced F d d' (l1 ++ l2) = spliced F d d' l1 ++ spliced F d d' l2.
Proof. apply flat_map_app. Qed.

(** Both variants run to the end on a proper tree and leave it cleaned. *)
Lemma both_sound (F : list string) (t : tree) (fuel : nat) w :
  size t < fuel -> NoDup (ids t) -> repr (heap w) t ->
  exists w1 w2,
    Api_bookmark_v1.clean F fuel (Some (root_of t)) w = Ok (tt, w1) /\
    Bookmark_app.clean F fuel (Some (root_of t)) w = Ok (tt, w2) /\
    cleaned F (heap w1) t /\ cleaned F (heap w2) t /\
    heap w1 = heap w2.
Proof.
  intros Hfuel Hnd Hr.
  destruct (clean_bwd_sound F t fuel w Hfuel Hnd Hr) as (w1 & H1 & Hc1 & Hf1 & _).
  destruct (clean_fwd_sound F t fuel w Hfuel Hnd Hr) as (w2 & H2 & Hc2 & Hf2).
  exists w1, w2. repeat split; auto.
  apply map_eq. intros n. destruct (decide (n ∈ ids t)) as [Hn|Hn].
  - apply (cleaned_agree F _ _ t n Hc1 Hc2 Hn).
  - rewrite Hf1, Hf2 by exact Hn. reflexivity.
Qed.

(** ** The example inputs are proper trees *)

Ltac holds_tree := repeat (constructor; try reflexivity).
Ltac no_dup := apply (bool_decide_unpack _); vm_compute; exact I.

Lemma nested_match_repr : repr nested_match nested_match_tree.
Proof. holds_tree. Qed.

Lemma nested_match_NoDup : NoDup (ids nested_match_tree).
Proof. no_dup. Qed.

Lemma adjacent_repr : repr adjacent adjacent_tree.
Proof. holds_tree. Qed.

Lemma adjacent_NoDup : NoDup (ids adjacent_tree).
Proof. no_dup. Qed.

Lemma one_match_repr : repr one_match one_match_tree.
Proof. holds_tree. Qed.

Lemma one_match_NoDup : NoDup (ids one_match_tree).
Proof. no_dup. Qed.

Lemma titled_root_repr : repr titled_root titled_root_tree.
Proof. holds_tree. Qed.

Lemma titled_root_NoDup : NoDup (ids titled_root_tree).
Proof. no_dup. Qed.

Lemma untitled_root_repr : repr untitled_root untitled_root_tree.
Proof. holds_tree. Qed.

Lemma untitled_root_NoDup : NoDup (ids untitled_root_tree).
Proof. no_dup. Qed.

(** Scenario 3 of the specification, on both variants: two cascading
    removals leave the one surviving leaf under the root. *)
Example scenario3_backward :
  exists w', Api_bookmark_v1.remove_filtered_bookmarks 5 (Some 0) [".pdf"] (World nested_match [])
             = Ok (tt, w') /\ kids_at (heap w') 0 = [3].
Proof. eexists. split; vm_compute; reflexivity. Qed.

Example scenario3_forward :
  exists w', Bookmark_app.remove_filtered_bookmarks 5 (Some 0) [".pdf"] (World nested_match [])
             = Ok (tt, w') /\ kids_at (heap w') 0 = [3].
Proof. eexists. split; vm_compute; reflexivity. Qed.

(** Adjacent matched siblings, on both variants. *)
Example adjacent_backward :
  exists w', Api_bookmark_v1.remove_filtered_bookmarks 9 (Some 0)
               [".pdf"; "outline placeholder"] (World adjacent [])
             = Ok (tt, w') /\ kids_at (heap w') 0 = [1; 5; 6; 7; 4].
Proof. eexists. split; vm_compute; reflexivity. Qed.

Example adjacent_forward :
  exists w', Bookmark_app.remove_filtered_bookmarks 9 (Some 0)
               [".pdf"; "outline placeholder"] (World adjacent [])
             = Ok (tt, w') /\ kids_at (heap w') 0 = [1; 5; 6; 7; 4].
Proof. eexists. split; vm_compute; reflexivity. Qed.

(** * The claims *)

(** C1, as stated, fails at the root: [clean] never tests the bookmark it
    is called on. With the empty pattern in the filter the untitled root,
    whose label (the empty string) contains the pattern, is left after
    filtering; and a root whose title contains ".pdf" is left when the
    filter is [".pdf"]. *)
Lemma matched_root_survives :
  (exists w',
     Api_bookmark_v1.clean [""] 3 (Some 0) (World untitled_root []) = Ok (tt, w') /\
     reachable (heap w') 0 0 /\
     is_filtered [""] (label_at (heap w') 0) = true) /\
  (exists w',
     Api_bookmark_v1.clean [".pdf"] 3 (Some 0) (World titled_root []) = Ok (tt, w') /\
     reachable (heap w') 0 0 /\
     is_filtered [".pdf"] (label_at (heap w') 0) = true).
Proof.
  split; eexists; (split; [vm_compute; reflexivity|]);
    (split; [apply rtc_refl|vm_compute; reflexivity]).
Qed.

(** C1, amended: on every proper tree and for every filter, [clean]
    returns, and the bookmarks left under the root are exactly the
    bookmarks that were under the root and whose title is not matched, at
    whatever depth; their titles are unchanged, so none of them is matched
    after filtering. The root itself is not tested. *)
Theorem clean_survivors_below_root (F : list string) (t : tree) (fuel : nat) (w : world) :
  size t < fuel -> NoDup (ids t) -> repr (heap w) t ->
  exists w',
    Api_bookmark_v1.clean F fuel (Some (root_of t)) w = Ok (tt, w') /\
    forall n, n ≠ root_of t ->
      (reachable (heap w') (root_of t) n <->
       reachable (heap w) (root_of t) n /\ is_filtered F (label_at (heap w) n) = false) /\
      (reachable (heap w') (root_of t) n ->
       label_at (heap w') n = label_at (heap w) n /\
       is_filtered F (label_at (heap w') n) = false).
Proof.
  intros Hfuel Hnd Hr.
  destruct (clean_bwd_sound F t fuel w Hfuel Hnd Hr) as (w' & Hrun & Hc & _).
  exists w'. split; [exact Hrun|]. intros n Hn.
  pose proof (survivors F (heap w) (heap w') t n Hr Hc Hn) as Hs.
  split; [exact Hs|]. intros Hreach. apply Hs in Hreach as [Hreach Hkeep].
  assert (label_at (heap w') n = label_at (heap w) n) as Hl.
  { apply (labels_kept F _ _ t); auto. apply (reachable_ids _ _ _ Hr). exact Hreach. }
  rewrite Hl. auto.
Qed.

Lemma clean_survivors_below_root_witness :
  exists w',
    Api_bookmark_v1.clean [".pdf"] 5 (Some (root_of nested_match_tree)) (World nested_match [])
    = Ok (tt, w') /\
    forall n, n ≠ root_of nested_match_tree ->
      (reachable (heap w') (root_of nested_match_tree) n <->
       reachable (heap (World nested_match [])) (root_of nested_match_tree) n /\
       is_filtered [".pdf"] (label_at (heap (World nested_match [])) n) = false) /\
      (reachable (heap w') (root_of nested_match_tree) n ->
       label_at (heap w') n = label_at (heap (World nested_match [])) n /\
       is_filtered [".pdf"] (label_at (heap w') n) = false).
Proof.
  apply (clean_survivors_below_root [".pdf"] nested_match_tree 5 (World nested_match []));
    [vm_compute; lia|exact nested_match_NoDup|exact nested_match_repr].
Defined.

(** C2: after [clean] on a proper tree, the child list of every bookmark
    of the tree is its old child list in which every matched child has
    given way, on the spot, to its own (already filtered) children in
    their order, and every unmatched child has stayed. So the children of
    a matched child [C] stand between what is left of the siblings before
    [C] and what is left of the siblings after [C]. *)
Theorem promoted_children_in_place (F : list string) (t : tree) (fuel : nat) (w : world) :
  size t < fuel -> NoDup (ids t) -> repr (heap w) t ->
  exists w',
    Api_bookmark_v1.clean F fuel (Some (root_of t)) w = Ok (tt, w') /\
    forall p, p ∈ ids t ->
      kids_at (heap w') p = spliced F (heap w) (heap w') (kids_at (heap w) p) /\
      forall before C after,
        kids_at (heap w) p = before ++ C :: after ->
        (is_filtered F (label_at (heap w) C) = true ->
         kids_at (heap w') p =
         spliced F (heap w) (heap w') before ++ kids_at (heap w') C ++
         spliced F (heap w) (heap w') after) /\
        (is_filtered F (label_at (heap w) C) = false ->
         kids_at (heap w') p =
         spliced F (heap w) (heap w') before ++ C ::
         spliced F (heap w) (heap w') after).
Proof.
  intros Hfuel Hnd Hr.
  destruct (clean_bwd_sound F t fuel w Hfuel Hnd Hr) as (w' & Hrun & Hc & _).
  exists w'. split; [exact Hrun|]. intros p Hp.
  pose proof (cleaned_spliced F (heap w) (heap w') t p Hr Hc Hp) as Hs.
  split; [exact Hs|]. intros before C after Hk.
  rewrite Hs, Hk, spliced_app. unfold spliced at 2 5. simpl.
  split; intros ->; reflexivity.
Qed.

Lemma promoted_children_in_place_witness :
  exists w',
    Api_bookmark_v1.clean [".pdf"; "outline placeholder"] 9 (Some (root_of adjacent_tree))
      (World adjacent []) = Ok (tt, w') /\
    forall p, p ∈ ids adjacent_tree ->
      kids_at (heap w') p =
      spliced [".pdf"; "outline placeholder"] adjacent (heap w') (kids_at adjacent p) /\
      forall before C after,
        kids_at adjacent p = before ++ C :: after ->
        (is_filtered [".pdf"; "outline placeholder"] (label_at adjacent C) = true ->
         kids_at (heap w') p =
         spliced [".pdf"; "outline placeholder"] adjacent (heap w') before ++
         kids_at (heap w') C ++
         spliced [".pdf"; "outline placeholder"] adjacent (heap w') after) /\
        (is_filtered [".pdf"; "outline placeholder"] (label_at adjacent C) = false ->
         kids_at (heap w') p =
         spliced [".pdf"; "outline placeholder"] adjacent (heap w') before ++ C ::
         spliced [".pdf"; "outline placeholder"] adjacent (heap w') after).
Proof.
  apply (promoted_children_in_place [".pdf"; "outline placeholder"] adjacent_tree 9
           (World adjacent []));
    [vm_compute; lia|exact adjacent_NoDup|exact adjacent_repr].
Defined.

(** C3: on every proper tree and for every filter, the forward variant of
    [app.py] and the backward variant of [Api_bookmark_v1.py] both return,
    and leave the same store: the same child list for every bookmark. *)
Theorem forward_backward_agree (F : list string) (t : tree) (fuel : nat) (w : world) :
  size t < fuel -> NoDup (ids t) -> repr (heap w) t ->
  exists w1 w2,
    Bookmark_app.clean F fuel (Some (root_of t)) w = Ok (tt, w1) /\
    Api_bookmark_v1.clean F fuel (Some (root_of t)) w = Ok (tt, w2) /\
    heap w1 = heap w2.
Proof.
  intros Hfuel Hnd Hr.
  destruct (both_sound F t fuel w Hfuel Hnd Hr) as (w1 & w2 & H1 & H2 & _ & _ & Heq).
  exists w2, w1. auto.
Qed.

Lemma forward_backward_agree_witness :
  exists w1 w2,
    Bookmark_app.clean [".pdf"; "outline placeholder"] 9 (Some (root_of adjacent_tree))
      (World adjacent []) = Ok (tt, w1) /\
    Api_bookmark_v1.clean [".pdf"; "outline placeholder"] 9 (Some (root_of adjacent_tree))
      (World adjacent []) = Ok (tt, w2) /\
    heap w1 = heap w2.
Proof.
  apply (forward_backward_agree [".pdf"; "outline placeholder"] adjacent_tree 9
           (World adjacent []));
    [vm_compute; lia|exact adjacent_NoDup|exact adjacent_repr].
Defined.

(** C4, as stated, fails between the promotion inserts and the removal:
    on the root 0 with the matched child 1 and its child 2, the run
    passes through a store in which bookmark 2 is a child of both 0 and 1,
    with 1 still reachable from the root; that store holds no proper
    tree. *)
Lemma promoted_child_has_two_parents :
  (exists w',
     Api_bookmark_v1.clean [".pdf"] 3 (Some 0) (World one_match []) = Ok (tt, w') /\
     (Inserted 0 1 2, one_match_midway) ∈ trace w') /\
  edge one_match_midway 0 2 /\
  edge one_match_midway 1 2 /\
  reachable one_match_midway 0 1 /\
  ~ proper_tree one_match_midway 0.
Proof.
  split; [|split; [|split; [|split]]].
  - eexists. split; [vm_compute; reflexivity|]. vm_compute. left.
  - exists (Bookmark None [1; 2]). split; [reflexivity|]. apply elem_of_cons. right.
    apply elem_of_cons. left. reflexivity.
  - exists (Bookmark (Some "x.pdf") [2]). split; [reflexivity|]. apply elem_of_cons.
    left. reflexivity.
  - apply rtc_once. exists (Bookmark None [1; 2]). split; [reflexivity|].
    apply elem_of_cons. left. reflexivity.
  - intros ([h ti ks] & Hroot & Hr & Hnd). simpl in Hroot. subst h.
    inversion Hr as [? ? ? H0 Hks]; subst.
    vm_compute in H0. injection H0 as _ H0.
    destruct ks as [|[h1 t1 k1] [|[h2 t2 k2] [|? ?]]]; try discriminate.
    injection H0 as ? ?. subst h1 h2.
    apply Forall_inv in Hks. inversion Hks as [? ? ? H1 _]; subst.
    vm_compute in H1. injection H1 as _ H1.
    destruct k1 as [|[h3 t3 k3] [|? ?]]; try discriminate.
    injection H1 as ?. subst h3.
    simpl in Hnd. apply NoDup_cons in Hnd as [_ Hnd].
    apply NoDup_cons in Hnd as [_ Hnd].
    apply NoDup_cons in Hnd as [Hnd _]. apply Hnd.
    rewrite !elem_of_app, elem_of_cons. auto.
Qed.

(** C4, amended: during a run of [clean] on a proper tree the structure
    under the root is acyclic in every intermediate store; every store
    that a removal leaves, and so the store that the run leaves, holds a
    proper rooted tree under the root (acyclic, no bookmark with two
    parents: [proper_tree_one_parent]). The stores between the promotion
    inserts and the removal of the matched child are left out: there the
    promoted bookmarks are children of two bookmarks. *)
Theorem clean_stays_acyclic (F : list string) (t : tree) (fuel : nat)
    (d : gmap handle bookmark) :
  size t < fuel -> NoDup (ids t) -> repr d t ->
  exists w',
    Api_bookmark_v1.clean F fuel (Some (root_of t)) (World d []) = Ok (tt, w') /\
    Forall (fun x => acyclic_from x.2 (root_of t)) (trace w') /\
    Forall (fun x => is_removal x.1 = true -> proper_tree x.2 (root_of t)) (trace w') /\
    proper_tree (heap w') (root_of t).
Proof.
  intros Hfuel Hnd Hr.
  destruct (clean_bwd_sound F t fuel (World d []) Hfuel Hnd Hr)
    as (w' & Hrun & Hc & _ & new & Ht & Hnew).
  exists w'. split; [exact Hrun|].
  destruct (clean_bwd_links (tc (edge d)) (@tc_transitive _ _) F fuel _ _ _ _
              (links_initially d) Hrun) as [Hh Hl].
  split; [|split].
  - eapply Forall_impl; [exact Hl|]. intros [e d'] Hd'. simpl.
    apply (acyclic_within d d' t); auto.
  - rewrite Ht. simpl. eapply Forall_impl; [exact Hnew|].
    intros x [_ Hx] Hrm. destruct (Hx Hrm) as (t' & Hroot & Hr' & Hnd' & _).
    exists t'. auto.
  - exists (rebuild F t). split; [apply root_rebuild|]. split.
    + apply cleaned_repr. exact Hc.
    + apply NoDup_rebuild. exact Hnd.
Qed.

Lemma clean_stays_acyclic_witness :
  exists w',
    Api_bookmark_v1.clean [".pdf"] 5 (Some (root_of nested_match_tree)) (World nested_match [])
    = Ok (tt, w') /\
    Forall (fun x => acyclic_from x.2 (root_of nested_match_tree)) (trace w') /\
    Forall (fun x => is_removal x.1 = true -> proper_tree x.2 (root_of nested_match_tree))
           (trace w') /\
    proper_tree (heap w') (root_of nested_match_tree).
Proof.
  apply (clean_stays_acyclic [".pdf"] nested_match_tree 5 nested_match);
    [vm_compute; lia|exact nested_match_NoDup|exact nested_match_repr].
Defined.

(** C5: on a proper tree neither variant is ever refused by the host:
    whatever the fuel, no run ends in [StructuralAccessError] (an index
    out of range, an unknown or absent bookmark) nor in a call on [None];
    with fuel beyond the size of the tree both variants return, and every
    index they have passed to [AddChild] was at most the child count of
    the parent at that moment, every index passed to [RemoveChild] below
    it. *)
Theorem no_structural_access_error (F : list string) (t : tree) (fuel : nat)
    (d : gmap handle bookmark) :
  NoDup (ids t) -> repr d t ->
  Api_bookmark_v1.clean F fuel (Some (root_of t)) (World d []) <> Raise StructuralAccessError /\
  Api_bookmark_v1.clean F fuel (Some (root_of t)) (World d []) <> Raise NoneDereference /\
  Bookmark_app.clean F fuel (Some (root_of t)) (World d []) <> Raise StructuralAccessError /\
  Bookmark_app.clean F fuel (Some (root_of t)) (World d []) <> Raise NoneDereference /\
  forall k, exists w1 w2,
    Api_bookmark_v1.clean F (S (size t + k)) (Some (root_of t)) (World d []) = Ok (tt, w1) /\
    Bookmark_app.clean F (S (size t + k)) (Some (root_of t)) (World d []) = Ok (tt, w2) /\
    all_in_range d (trace w1) /\
    all_in_range d (trace w2).
Proof.
  intros Hnd Hr. set (w := World d []).
  assert (forall k, exists w1 w2,
            Api_bookmark_v1.clean F (S (size t + k)) (Some (root_of t)) w = Ok (tt, w1) /\
            Bookmark_app.clean F (S (size t + k)) (Some (root_of t)) w = Ok (tt, w2))
    as Hret.
  { intros k. destruct (both_sound F t (S (size t + k)) w) as (w1 & w2 & H1 & H2 & _);
      [lia|exact Hnd|exact Hr|]. eauto. }
  destruct (Hret fuel) as (w1 & w2 & H1 & H2).
  assert (forall e, e <> OutOfFuel ->
            Api_bookmark_v1.clean F fuel (Some (root_of t)) w <> Raise e) as Hb.
  { intros e He.
    destruct (clean_bwd_fuel_le F fuel (S (size t + fuel)) (Some (root_of t))
                ltac:(lia) w) as [H|H]; rewrite H; [congruence|].
    rewrite H1. discriminate. }
  assert (forall e, e <> OutOfFuel ->
            Bookmark_app.clean F fuel (Some (root_of t)) w <> Raise e) as Hf.
  { intros e He.
    destruct (clean_fwd_fuel_le F fuel (S (size t + fuel)) (Some (root_of t))
                ltac:(lia) w) as [H|H]; rewrite H; [congruence|].
    rewrite H2. discriminate. }
  repeat split; try (apply Hb; discriminate); try (apply Hf; discriminate).
  intros k. destruct (Hret k) as (v1 & v2 & K1 & K2). exists v1, v2.
  split; [exact K1|]. split; [exact K2|].
  destruct (chains_clean_bwd F _ _ _ _ _ K1) as (n1 & Ht1 & Hr1 & _).
  destruct (chains_clean_fwd F _ _ _ _ _ K2) as (n2 & Ht2 & Hr2 & _).
  rewrite Ht1, Ht2. simpl. auto.
Qed.

Lemma no_structural_access_error_witness :
  Api_bookmark_v1.clean [".pdf"; "outline placeholder"] 2 (Some (root_of adjacent_tree))
    (World adjacent []) <> Raise StructuralAccessError /\
  Api_bookmark_v1.clean [".pdf"; "outline placeholder"] 2 (Some (root_of adjacent_tree))
    (World adjacent []) <> Raise NoneDereference /\
  Bookmark_app.clean [".pdf"; "outline placeholder"] 2 (Some (root_of adjacent_tree))
    (World adjacent []) <> Raise StructuralAccessError /\
  Bookmark_app.clean [".pdf"; "outline placeholder"] 2 (Some (root_of adjacent_tree))
    (World adjacent []) <> Raise NoneDereference /\
  forall k, exists w1 w2,
    Api_bookmark_v1.clean [".pdf"; "outline placeholder"] (S (size adjacent_tree + k))
      (Some (root_of adjacent_tree)) (World adjacent []) = Ok (tt, w1) /\
    Bookmark_app.clean [".pdf"; "outline placeholder"] (S (size adjacent_tree + k))
      (Some (root_of adjacent_tree)) (World adjacent []) = Ok (tt, w2) /\
    all_in_range adjacent (trace w1) /\
    all_in_range adjacent (trace w2).
Proof.
  apply (no_structural_access_error [".pdf"; "outline placeholder"] adjacent_tree 2 adjacent);
    [exact adjacent_NoDup|exact adjacent_repr].
Defined.

(** C6: in both variants a bookmark under the root is removed if and only
    if its title, lower-cased, contains one of the patterns, lower-cased;
    and when no pattern is empty, a bookmark without a title or with the
    empty title is never removed. *)
Theorem removed_iff_label_matches (filters : list string) (t : tree) (fuel : nat)
    (w : world) :
  size t < fuel -> NoDup (ids t) -> repr (heap w) t ->
  exists w1 w2,
    Api_bookmark_v1.remove_filtered_bookmarks fuel (Some (root_of t)) filters w
    = Ok (tt, w1) /\
    Bookmark_app.remove_filtered_bookmarks fuel (Some (root_of t)) filters w
    = Ok (tt, w2) /\
    forall n, n ≠ root_of t -> reachable (heap w) (root_of t) n ->
      (~ reachable (heap w1) (root_of t) n <-> matches filters (label_at (heap w) n)) /\
      (~ reachable (heap w2) (root_of t) n <-> matches filters (label_at (heap w) n)) /\
      ((forall f, f ∈ filters -> f <> EmptyString) ->
       label_at (heap w) n = None \/ label_at (heap w) n = Some EmptyString ->
       reachable (heap w1) (root_of t) n /\ reachable (heap w2) (root_of t) n).
Proof.
  intros Hfuel Hnd Hr. unfold Api_bookmark_v1.remove_filtered_bookmarks,
    Bookmark_app.remove_filtered_bookmarks.
  destruct (both_sound (map lower filters) t fuel w Hfuel Hnd Hr)
    as (w1 & w2 & H1 & H2 & Hc1 & Hc2 & _).
  exists w1, w2. split; [exact H1|]. split; [exact H2|]. intros n Hn Hreach.
  pose proof (survivors _ (heap w) (heap w1) t n Hr Hc1 Hn) as Hs1.
  pose proof (survivors _ (heap w) (heap w2) t n Hr Hc2 Hn) as Hs2.
  rewrite <- is_filtered_matches.
  destruct (is_filtered (map lower filters) (label_at (heap w) n)) eqn:Hf.
  - split; [|split].
    + split; [reflexivity|]. intros _ Hr1. apply Hs1 in Hr1 as [_ ?]. discriminate.
    + split; [reflexivity|]. intros _ Hr2. apply Hs2 in Hr2 as [_ ?]. discriminate.
    + intros Hne Hl. rewrite (unmatched_empty_label filters _ Hne Hl) in Hf. discriminate.
  - assert (reachable (heap w1) (root_of t) n) as Hr1 by (apply Hs1; auto).
    assert (reachable (heap w2) (root_of t) n) as Hr2 by (apply Hs2; auto).
    split; [|split]; [split; [contradiction|discriminate]..|auto].
Qed.

Lemma removed_iff_label_matches_witness :
  exists w1 w2,
    Api_bookmark_v1.remove_filtered_bookmarks 9 (Some (root_of adjacent_tree))
      [".pdf"; "outline placeholder"] (World adjacent []) = Ok (tt, w1) /\
    Bookmark_app.remove_filtered_bookmarks 9 (Some (root_of adjacent_tree))
      [".pdf"; "outline placeholder"] (World adjacent []) = Ok (tt, w2) /\
    forall n, n ≠ root_of adjacent_tree -> reachable adjacent (root_of adjacent_tree) n ->
      (~ reachable (heap w1) (root_of adjacent_tree) n <->
       matches [".pdf"; "outline placeholder"] (label_at adjacent n)) /\
      (~ reachable (heap w2) (root_of adjacent_tree) n <->
       matches [".pdf"; "outline placeholder"] (label_at adjacent n)) /\
      ((forall f, f ∈ [".pdf"; "outline placeholder"] -> f <> EmptyString) ->
       label_at adjacent n = None \/ label_at adjacent n = Some EmptyString ->
       reachable (heap w1) (root_of adjacent_tree) n /\
       reachable (heap w2) (root_of adjacent_tree) n).
Proof.
  apply (removed_iff_label_matches [".pdf"; "outline placeholder"] adjacent_tree 9
           (World adjacent []));
    [vm_compute; lia|exact adjacent_NoDup|exact adjacent_repr].
Defined.

(** ** The title of the root *)

Lemma retitle_repr (t : tree) (title : option string) (d : gmap handle bookmark) :
  NoDup (ids t) -> repr d t ->
  repr (retitle (root_of t) title d) (Node (root_of t) title (kids_of t)).
Proof.
  intros Hnd Hr. pose proof (repr_lookup d t Hr) as Hl. constructor.
  - unfold retitle, kids_at. rewrite Hl, lookup_insert_eq. reflexivity.
  - pose proof (repr_kids d t Hr) as Hk. rewrite Forall_forall in Hk |- *.
    intros c Hc. apply (repr_frame d); [|auto]. intros n Hn.
    unfold retitle. apply lookup_insert_ne. intros <-.
    exact (root_not_in_child t c Hnd Hc Hn).
Qed.

Lemma retitle_cleaned (F : list string) (t : tree) (title : option string)
    (d d1 d1' : gmap handle bookmark) :
  cleaned F d1 t -> (forall n, n ∉ ids t -> d1 !! n = d !! n) ->
  cleaned F d1' (Node (root_of t) title (kids_of t)) ->
  (forall n, n ∉ ids t -> d1' !! n = retitle (root_of t) title d !! n) ->
  d1' = retitle (root_of t) title d1.
Proof.
  intros Hc Hf Hc' Hf'. destruct t as [h ti ks]. cbn [root_of kids_of] in *.
  apply map_eq. intros n. unfold retitle in *.
  destruct (decide (n = h)) as [->|Hn].
  - rewrite lookup_insert_eq. pose proof (cleaned_lookup F _ _ Hc') as H'.
    pose proof (cleaned_lookup F _ _ Hc) as H. cbn [root_of title_of] in H, H'.
    unfold kids_at. rewrite H, H'. reflexivity.
  - rewrite lookup_insert_ne by congruence.
    destruct (decide (n ∈ ids (Node h ti ks))) as [Hin|Hout].
    + cbn [ids] in Hin. apply elem_of_cons in Hin as [->|Hin]; [congruence|].
      apply elem_of_flat_map in Hin as (c & Hck & Hnc).
      pose proof (cleaned_kids F _ _ Hc) as Hk. pose proof (cleaned_kids F _ _ Hc') as Hk'.
      cbn [kids_of] in Hk, Hk'. rewrite Forall_forall in Hk, Hk'.
      exact (cleaned_agree F d1' d1 c n (Hk' c Hck) (Hk c Hck) Hnc).
    + rewrite (Hf' n Hout), (Hf n Hout). apply lookup_insert_ne. congruence.
Qed.

Lemma root_record (F : list string) (t : tree) (d d' : gmap handle bookmark) :
  repr d t -> cleaned F d' t ->
  d' !! root_of t
  = Some (Bookmark (title_of t) (spliced F d d' (kids_at d (root_of t)))).
Proof.
  intros Hr Hc. pose proof (cleaned_lookup F _ _ Hc) as Hl.
  rewrite <- (cleaned_spliced F d d' t (root_of t) Hr Hc (root_in_ids t)).
  unfold kids_at. rewrite Hl. reflexivity.
Qed.

(** C7: without a root both variants return at once and leave the state
    as it is, the trace of mutations included. With a root, on a proper
    tree, the root is not tested: it keeps its title, its child list is
    the old one with every matched child replaced by that child's own
    children and every other child in place, whether or not the title of
    the root is matched, and it heads a proper tree; and with any other
    title at the root the run leaves the same store, but for that
    title. *)
Theorem root_is_never_filtered (filters : list string) (fuel : nat) :
  (forall w,
     Api_bookmark_v1.remove_filtered_bookmarks fuel None filters w = Ok (tt, w) /\
     Bookmark_app.remove_filtered_bookmarks fuel None filters w = Ok (tt, w)) /\
  (forall t w,
     size t < fuel -> NoDup (ids t) -> repr (heap w) t ->
     exists w1 w2,
       Api_bookmark_v1.remove_filtered_bookmarks fuel (Some (root_of t)) filters w
       = Ok (tt, w1) /\
       Bookmark_app.remove_filtered_bookmarks fuel (Some (root_of t)) filters w
       = Ok (tt, w2) /\
       heap w1 !! root_of t
       = Some (Bookmark (title_of t)
                 (spliced (map lower filters) (heap w) (heap w1)
                    (kids_at (heap w) (root_of t)))) /\
       heap w2 !! root_of t
       = Some (Bookmark (title_of t)
                 (spliced (map lower filters) (heap w) (heap w2)
                    (kids_at (heap w) (root_of t)))) /\
       proper_tree (heap w1) (root_of t) /\
       proper_tree (heap w2) (root_of t) /\
       forall title,
         exists w1' w2',
           Api_bookmark_v1.remove_filtered_bookmarks fuel (Some (root_of t)) filters
             (World (retitle (root_of t) title (heap w)) (trace w)) = Ok (tt, w1') /\
           Bookmark_app.remove_filtered_bookmarks fuel (Some (root_of t)) filters
             (World (retitle (root_of t) title (heap w)) (trace w)) = Ok (tt, w2') /\
           heap w1' = retitle (root_of t) title (heap w1) /\
           heap w2' = retitle (root_of t) title (heap w2)).
Proof.
  split; [intros w; split; reflexivity|].
  intros t w Hfuel Hnd Hr. unfold Api_bookmark_v1.remove_filtered_bookmarks,
    Bookmark_app.remove_filtered_bookmarks.
  set (F := map lower filters).
  destruct (clean_bwd_sound F t fuel w Hfuel Hnd Hr) as (w1 & H1 & Hc1 & Hf1 & _).
  destruct (clean_fwd_sound F t fuel w Hfuel Hnd Hr) as (w2 & H2 & Hc2 & Hf2).
  exists w1, w2. split; [exact H1|]. split; [exact H2|].
  split; [apply root_record; assumption|].
  split; [apply root_record; assumption|].
  split.
  { exists (rebuild F t). split; [apply root_rebuild|].
    split; [apply cleaned_repr; assumption|]. apply NoDup_rebuild; exact Hnd. }
  split.
  { exists (rebuild F t). split; [apply root_rebuild|].
    split; [apply cleaned_repr; assumption|]. apply NoDup_rebuild; exact Hnd. }
  intros title.
  set (t' := Node (root_of t) title (kids_of t)).
  set (w' := World (retitle (root_of t) title (heap w)) (trace w)).
  assert (ids t' = ids t) as Hids by (destruct t; reflexivity).
  assert (size t' = size t) as Hsize by (destruct t; reflexivity).
  assert (repr (heap w') t') as Hr' by (apply retitle_repr; assumption).
  assert (NoDup (ids t')) as Hnd' by (rewrite Hids; exact Hnd).
  assert (size t' < fuel) as Hfuel' by (rewrite Hsize; exact Hfuel).
  destruct (clean_bwd_sound F t' fuel w' Hfuel' Hnd' Hr') as (w1' & H1' & Hc1' & Hf1' & _).
  destruct (clean_fwd_sound F t' fuel w' Hfuel' Hnd' Hr') as (w2' & H2' & Hc2' & Hf2').
  exists w1', w2'. split; [exact H1'|]. split; [exact H2'|].
  rewrite Hids in Hf1', Hf2'.
  split; eapply retitle_cleaned; eauto.
Qed.

Lemma root_is_never_filtered_witness :
  is_filtered (map lower [".pdf"]) (title_of titled_root_tree) = true /\
  exists w1 w2,
    Api_bookmark_v1.remove_filtered_bookmarks 3 (Some (root_of titled_root_tree)) [".pdf"]
      (World titled_root []) = Ok (tt, w1) /\
    Bookmark_app.remove_filtered_bookmarks 3 (Some (root_of titled_root_tree)) [".pdf"]
      (World titled_root []) = Ok (tt, w2) /\
    heap w1 !! root_of titled_root_tree
    = Some (Bookmark (title_of titled_root_tree)
              (spliced (map lower [".pdf"]) titled_root (heap w1)
                 (kids_at titled_root (root_of titled_root_tree)))) /\
    heap w2 !! root_of titled_root_tree
    = Some (Bookmark (title_of titled_root_tree)
              (spliced (map lower [".pdf"]) titled_root (heap w2)
                 (kids_at titled_root (root_of titled_root_tree)))) /\
    proper_tree (heap w1) (root_of titled_root_tree) /\
    proper_tree (heap w2) (root_of titled_root_tree) /\
    forall title,
      exists w1' w2',
        Api_bookmark_v1.remove_filtered_bookmarks 3 (Some (root_of titled_root_tree))
          [".pdf"] (World (retitle (root_of titled_root_tree) title titled_root) [])
        = Ok (tt, w1') /\
        Bookmark_app.remove_filtered_bookmarks 3 (Some (root_of titled_root_tree))
          [".pdf"] (World (retitle (root_of titled_root_tree) title titled_root) [])
        = Ok (tt, w2') /\
        heap w1' = retitle (root_of titled_root_tree) title (heap w1) /\
        heap w2' = retitle (root_of titled_root_tree) title (heap w2).
Proof.
  split; [reflexivity|].
  apply (proj2 (root_is_never_filtered [".pdf"] 3) titled_root_tree (World titled_root []));
    [vm_compute; lia|exact titled_root_NoDup|exact titled_root_repr].
Defined.

(** A bookmark below the root is tested: with another title at the
    matched bookmark 1 of [one_match] the run leaves another store, not
    only another title. *)
Example matched_child_is_tested :
  exists w1 w1',
    Api_bookmark_v1.remove_filtered_bookmarks 4 (Some 0) [".pdf"] (World one_match [])
    = Ok (tt, w1) /\
    Api_bookmark_v1.remove_filtered_bookmarks 4 (Some 0) [".pdf"]
      (World (retitle 1 (Some "Intro") one_match) []) = Ok (tt, w1') /\
    heap w1' <> retitle 1 (Some "Intro") (heap w1).
Proof.
  eexists _, _. split; [vm_compute; reflexivity|]. split; [vm_compute; reflexivity|].
  intros H. apply (f_equal (fun d => kids_at d 0)) in H. vm_compute in H. discriminate.
Qed.

(** C8: [clean] run again on the state that [clean] has left returns that
    very state: the store is the same, and the trace has no new entry, so
    there has been no insertion and no removal. *)
Theorem clean_idempotent (F : list string) (t : tree) (fuel : nat) (w : world) :
  size t < fuel -> NoDup (ids t) -> repr (heap w) t ->
  exists w',
    Api_bookmark_v1.clean F fuel (Some (root_of t)) w = Ok (tt, w') /\
    Api_bookmark_v1.clean F fuel (Some (root_of t)) w' = Ok (tt, w').
Proof.
  intros Hfuel Hnd Hr.
  destruct (clean_bwd_sound F t fuel w Hfuel Hnd Hr) as (w' & Hrun & Hc & _).
  exists w'. split; [exact Hrun|].
  rewrite <- (root_rebuild F t). apply clean_bwd_noop.
  - pose proof (size_rebuild F t). lia.
  - apply cleaned_repr. exact Hc.
  - apply below_rebuild_unmatched.
Qed.

Lemma clean_idempotent_witness :
  exists w',
    Api_bookmark_v1.clean [".pdf"; "outline placeholder"] 9 (Some (root_of adjacent_tree))
      (World adjacent []) = Ok (tt, w') /\
    Api_bookmark_v1.clean [".pdf"; "outline placeholder"] 9 (Some (root_of adjacent_tree))
      w' = Ok (tt, w').
Proof.
  apply (clean_idempotent [".pdf"; "outline placeholder"] adjacent_tree 9
           (World adjacent []));
    [vm_compute; lia|exact adjacent_NoDup|exact adjacent_repr].
Defined.

(** C9: on a proper tree both variants terminate: every child is a
    strictly smaller tree and there are fewer children than bookmarks, so
    fuel beyond the size of the tree is never used up; both variants
    return, and with any further fuel they return the same state. *)
Theorem clean_terminates (F : list string) (t : tree) (fuel : nat) (w : world) :
  size t < fuel -> NoDup (ids t) -> repr (heap w) t ->
  Forall (fun c => size c < size t) (kids_of t) /\
  length (kids_of t) < size t /\
  exists w1 w2,
    Api_bookmark_v1.clean F fuel (Some (root_of t)) w = Ok (tt, w1) /\
    Bookmark_app.clean F fuel (Some (root_of t)) w = Ok (tt, w2) /\
    forall k,
      Api_bookmark_v1.clean F (fuel + k) (Some (root_of t)) w = Ok (tt, w1) /\
      Bookmark_app.clean F (fuel + k) (Some (root_of t)) w = Ok (tt, w2).
Proof.
  intros Hfuel Hnd Hr.
  split; [apply Forall_forall; apply size_child|]. split; [apply size_kids|].
  destruct (both_sound F t fuel w Hfuel Hnd Hr) as (w1 & w2 & H1 & H2 & _).
  exists w1, w2. split; [exact H1|]. split; [exact H2|]. intros k. split.
  - destruct (clean_bwd_fuel_le F fuel (fuel + k) (Some (root_of t)) ltac:(lia) w)
      as [H|H]; congruence.
  - destruct (clean_fwd_fuel_le F fuel (fuel + k) (Some (root_of t)) ltac:(lia) w)
      as [H|H]; congruence.
Qed.

Lemma clean_terminates_witness :
  Forall (fun c => size c < size adjacent_tree) (kids_of adjacent_tree) /\
  length (kids_of adjacent_tree) < size adjacent_tree /\
  exists w1 w2,
    Api_bookmark_v1.clean [".pdf"] 9 (Some (root_of adjacent_tree)) (World adjacent [])
    = Ok (tt, w1) /\
    Bookmark_app.clean [".pdf"] 9 (Some (root_of adjacent_tree)) (World adjacent [])
    = Ok (tt, w2) /\
    forall k,
      Api_bookmark_v1.clean [".pdf"] (9 + k) (Some (root_of adjacent_tree))
        (World adjacent []) = Ok (tt, w1) /\
      Bookmark_app.clean [".pdf"] (9 + k) (Some (root_of adjacent_tree))
        (World adjacent []) = Ok (tt, w2).
Proof.
  apply (clean_terminates [".pdf"] adjacent_tree 9 (World adjacent []));
    [vm_compute; lia|exact adjacent_NoDup|exact adjacent_repr].
Defined.

(** C10: when the empty string is one of the patterns every title is
    matched, the absent and the empty title too, and both variants leave
    the root without children: no bookmark under the root is left. *)
Theorem empty_pattern_removes_all (filters : list string) (t : tree) (fuel : nat)
    (w : world) :
  EmptyString ∈ filters ->
  size t < fuel -> NoDup (ids t) -> repr (heap w) t ->
  (forall label, is_filtered (map lower filters) label = true) /\
  exists w1 w2,
    Api_bookmark_v1.remove_filtered_bookmarks fuel (Some (root_of t)) filters w
    = Ok (tt, w1) /\
    Bookmark_app.remove_filtered_bookmarks fuel (Some (root_of t)) filters w
    = Ok (tt, w2) /\
    kids_at (heap w1) (root_of t) = [] /\
    kids_at (heap w2) (root_of t) = [] /\
    forall n, n ≠ root_of t ->
      ~ reachable (heap w1) (root_of t) n /\ ~ reachable (heap w2) (root_of t) n.
Proof.
  intros Hin Hfuel Hnd Hr.
  assert (forall label, is_filtered (map lower filters) label = true) as Hall.
  { intros label. apply matched_by_empty. exact Hin. }
  split; [exact Hall|].
  unfold Api_bookmark_v1.remove_filtered_bookmarks, Bookmark_app.remove_filtered_bookmarks.
  destruct (both_sound (map lower filters) t fuel w Hfuel Hnd Hr)
    as (w1 & w2 & H1 & H2 & Hc1 & Hc2 & _).
  exists w1, w2. split; [exact H1|]. split; [exact H2|].
  unfold kids_at.
  rewrite (cleaned_lookup _ _ _ Hc1), (cleaned_lookup _ _ _ Hc2). cbn [bk_kids].
  rewrite (rebuild_all_matched _ t Hall).
  split; [reflexivity|]. split; [reflexivity|]. intros n Hn.
  split; intros Hreach.
  - apply (reach_cleaned _ _ t n Hc1) in Hreach as [?|(ti & _ & Hk)]; [contradiction|].
    rewrite Hall in Hk. discriminate.
  - apply (reach_cleaned _ _ t n Hc2) in Hreach as [?|(ti & _ & Hk)]; [contradiction|].
    rewrite Hall in Hk. discriminate.
Qed.

Lemma empty_pattern_removes_all_witness :
  (forall label, is_filtered (map lower [".pdf"; ""]) label = true) /\
  exists w1 w2,
    Api_bookmark_v1.remove_filtered_bookmarks 9 (Some (root_of adjacent_tree)) [".pdf"; ""]
      (World adjacent []) = Ok (tt, w1) /\
    Bookmark_app.remove_filtered_bookmarks 9 (Some (root_of adjacent_tree)) [".pdf"; ""]
      (World adjacent []) = Ok (tt, w2) /\
    kids_at (heap w1) (root_of adjacent_tree) = [] /\
    kids_at (heap w2) (root_of adjacent_tree) = [] /\
    forall n, n ≠ root_of adjacent_tree ->
      ~ reachable (heap w1) (root_of adjacent_tree) n /\
      ~ reachable (heap w2) (root_of adjacent_tree) n.
Proof.
  apply (empty_pattern_removes_all [".pdf"; ""] adjacent_tree 9 (World adjacent []));
    [apply elem_of_cons; right; apply elem_of_cons; left; reflexivity
    |vm_compute; lia|exact adjacent_NoDup|exact adjacent_repr].
Defined.

(** * Further properties of the two [clean] procedures *)

(** ** Titles and bookmarks are never touched *)

Lemma same_titles_refl d : same_titles d d.
Proof. intros n. reflexivity. Qed.

Lemma same_titles_trans d1 d2 d3 :
  same_titles d1 d2 -> same_titles d2 d3 -> same_titles d1 d3.
Proof. intros H1 H2 n. rewrite H2, H1. reflexivity. Qed.

Lemma titles_kept_refl w : titles_kept w w.
Proof.
  split; [apply same_titles_refl|]. exists []. rewrite app_nil_r. auto.
Qed.

Lemma titles_kept_trans w1 w2 w3 :
  titles_kept w1 w2 -> titles_kept w2 w3 -> titles_kept w1 w3.
Proof.
  intros (H1 & n1 & Ht1 & Hn1) (H2 & n2 & Ht2 & Hn2).
  split; [eapply same_titles_trans; eauto|].
  exists (n1 ++ n2). split; [rewrite Ht2, Ht1, app_assoc; reflexivity|].
  apply Forall_app. split; [exact Hn1|].
  eapply Forall_impl; [exact Hn2|]. intros x Hx. simpl.
  eapply same_titles_trans; eauto.
Qed.

Lemma kept_store e p b b' w u w' :
  heap w !! p = Some b -> bk_title b' = bk_title b ->
  store e p b' w = Ok (u, w') -> titles_kept w w'.
Proof.
  intros Hb Ht H. unfold store in H. injection H as _ <-.
  assert (same_titles (heap w) (<[p := b']> (heap w))) as Hs.
  { intros n. destruct (decide (p = n)) as [<-|Hne].
    - rewrite lookup_insert_eq, Hb. simpl. rewrite Ht. reflexivity.
    - rewrite lookup_insert_ne by exact Hne. reflexivity. }
  split; [exact Hs|]. eexists. split; [reflexivity|].
  constructor; [exact Hs|constructor].
Qed.

Lemma keeps_AddChild p i sub : keeps_titles (AddChild p i sub).
Proof.
  intros w u w' H. unfold AddChild in H.
  apply bind_inv in H as (b & w1 & Hl & H).
  apply load_inv in Hl as (b' & Hb & [= <- <-]).
  destruct sub as [s|]; [|discriminate].
  destruct (i <=? length (bk_kids b)); [|discriminate].
  eapply kept_store; [exact Hb| |exact H]. reflexivity.
Qed.

Lemma keeps_RemoveChild p i : keeps_titles (RemoveChild p i).
Proof.
  intros w u w' H. unfold RemoveChild in H.
  apply bind_inv in H as (b & w1 & Hl & H).
  apply load_inv in Hl as (b' & Hb & [= <- <-]).
  destruct (i <? length (bk_kids b)); [|discriminate].
  eapply kept_store; [exact Hb| |exact H]. reflexivity.
Qed.

(** * Runs that do not return *)

(** ** The two monads agree *)

Lemma erase_lift {A} (m : M A) w : Logged.erase (Logged.lift m) w = m w.
Proof.
  unfold Logged.erase, Logged.lift. destruct (m w) as [[a w']|e]; reflexivity.
Qed.

Lemma erase_bind {A B} (m : M A) (l : Logged.L A) (k : A -> M B) (k' : A -> Logged.L B) :
  (forall w, Logged.erase l w = m w) ->
  (forall a w, Logged.erase (k' a) w = k a w) ->
  forall w, Logged.erase (Logged.bind l k') w = bind m k w.
Proof.
  intros Hm Hk w. unfold bind. rewrite <- Hm. unfold Logged.erase, Logged.bind.
  destruct (l w) as [[e|a] w']; [reflexivity|]. apply Hk.
Qed.

Lemma erase_foldM {A S} (body : S -> A -> M S) (body' : S -> A -> Logged.L S)
    (l : list A) :
  (forall s x w, Logged.erase (body' s x) w = body s x w) ->
  forall s w, Logged.erase (Logged.foldM body' l s) w = foldM body l s w.
Proof.
  intros Hb. induction l as [|x l IH]; intros s w; [reflexivity|].
  cbn [Logged.foldM foldM]. apply erase_bind; auto.
Qed.

Lemma erase_for_each {A} (body : A -> M unit) (body' : A -> Logged.L unit) (l : list A) :
  (forall x w, Logged.erase (body' x) w = body x w) ->
  forall w, Logged.erase (Logged.for_each l body') w = for_each l body w.
Proof.
  intros Hb. induction l as [|x l IH]; intros w; [reflexivity|].
  cbn [Logged.for_each for_each]. apply erase_bind; auto.
Qed.

Lemma erase_deref h w : Logged.erase (Logged.deref h) w = deref h w.
Proof. destruct h; reflexivity. Qed.

Lemma erase_visit (rec : option handle -> M unit) (rec' : option handle -> Logged.L unit)
    F h i :
  (forall x w, Logged.erase (rec' x) w = rec x w) ->
  forall w, Logged.erase (Logged.Api_bookmark_v1.visit rec' F h i) w
            = Api_bookmark_v1.visit rec F h i w.
Proof.
  intros Hrec. unfold Logged.Api_bookmark_v1.visit, Api_bookmark_v1.visit.
  apply erase_bind; [apply erase_lift|]. intros [c|] w; [|reflexivity].
  apply erase_bind; [apply Hrec|]. intros _.
  apply erase_bind; [apply erase_lift|]. intros title w1.
  destruct (is_filtered F title); [|reflexivity].
  apply erase_bind.
  { unfold Logged.Api_bookmark_v1.grandchildren_of, Api_bookmark_v1.grandchildren_of.
    apply erase_bind; [apply erase_lift|]. intros n. apply erase_foldM.
    intros acc j. unfold Logged.Api_bookmark_v1.collect, Api_bookmark_v1.collect.
    apply erase_bind; [apply erase_lift|]. reflexivity. }
  intros gcs. apply erase_bind; [|intros _; apply erase_lift].
  unfold Logged.Api_bookmark_v1.move_up, Api_bookmark_v1.move_up. apply erase_foldM.
  intros pos sub. unfold Logged.Api_bookmark_v1.insert_at, Api_bookmark_v1.insert_at.
  apply erase_bind; [apply erase_lift|]. reflexivity.
Qed.

Lemma erase_clean_bwd F (fuel : nat) :
  forall parent w,
    Logged.erase (Logged.Api_bookmark_v1.clean F fuel parent) w
    = Api_bookmark_v1.clean F fuel parent w.
Proof.
  induction fuel as [|fuel IH]; intros [p|] w; try reflexivity.
  cbn [Logged.Api_bookmark_v1.clean Api_bookmark_v1.clean].
  apply erase_bind; [apply erase_lift|]. intros count.
  apply erase_for_each. intros i. apply erase_visit. exact IH.
Qed.

Lemma erase_while_loop (rec : option handle -> M unit)
    (rec' : option handle -> Logged.L unit) F h (n : nat) :
  (forall x w, Logged.erase (rec' x) w = rec x w) ->
  forall i count w,
    Logged.erase (Logged.Bookmark_app.while_loop rec' F h n i count) w
    = Bookmark_app.while_loop rec F h n i count w.
Proof.
  intros Hrec. induction n as [|n IH]; intros i count w; [reflexivity|].
  cbn [Logged.Bookmark_app.while_loop Bookmark_app.while_loop].
  destruct (i <? count); [|reflexivity].
  apply erase_bind; [apply erase_lift|]. intros child.
  apply erase_bind; [apply Hrec|]. intros _.
  apply erase_bind; [apply erase_deref|]. intros c.
  apply erase_bind; [apply erase_lift|]. intros title w1.
  destruct (is_filtered F title); [|apply IH].
  apply erase_bind; [apply erase_lift|]. intros sub_count.
  apply erase_bind.
  { unfold Logged.Bookmark_app.splice, Bookmark_app.splice. apply erase_foldM.
    intros ic s. unfold Logged.Bookmark_app.splice_one, Bookmark_app.splice_one.
    apply erase_bind; [apply erase_lift|]. intros sub.
    apply erase_bind; [apply erase_lift|]. reflexivity. }
  intros ic. apply erase_bind; [apply erase_lift|]. intros _. apply IH.
Qed.

Lemma erase_clean_fwd F (fuel : nat) :
  forall parent w,
    Logged.erase (Logged.Bookmark_app.clean F fuel parent) w
    = Bookmark_app.clean F fuel parent w.
Proof.
  induction fuel as [|fuel IH]; intros parent w; [reflexivity|].
  cbn [Logged.Bookmark_app.clean Bookmark_app.clean].
  apply erase_bind; [apply erase_deref|]. intros p.
  apply erase_bind; [apply erase_lift|]. intros count.
  apply erase_while_loop. exact IH.
Qed.

(** ** What every run keeps, returning or not *)

Section LoggedRuns.

Variable w0 : world.
Variable R : relation handle.
Hypothesis R_trans : forall x y z, R x y -> R y z -> R x z.

Lemma holds_ret {A} (a : A) (Q : A -> Prop) : Q a -> holds w0 R (Logged.ret a) Q.
Proof. intros HQ w Hw. split; [exact Hw|]. intros b [= <-]. exact HQ. Qed.

Lemma holds_raise {A} (e : error) (Q : A -> Prop) : holds w0 R (Logged.raise e) Q.
Proof. intros w Hw. split; [exact Hw|]. intros b H. discriminate. Qed.

Lemma holds_bind {A B} (m : Logged.L A) (k : A -> Logged.L B)
    (Q1 : A -> Prop) (Q2 : B -> Prop) :
  holds w0 R m Q1 -> (forall a, Q1 a -> holds w0 R (k a) Q2) ->
  holds w0 R (Logged.bind m k) Q2.
Proof.
  intros Hm Hk w Hw. destruct (Hm w Hw) as [Hs Hv]. unfold Logged.bind.
  destruct (m w) as [[e|a] w1]; cbn [fst snd] in *.
  - split; [exact Hs|]. intros b H. discriminate.
  - apply Hk; auto.
Qed.

Lemma holds_lift {A} (m : M A) (Q : A -> Prop) :
  (forall w a w', stays w0 R w -> m w = Ok (a, w') -> stays w0 R w' /\ Q a) ->
  holds w0 R (Logged.lift m) Q.
Proof.
  intros H w Hw. unfold Logged.lift. destruct (m w) as [[a w']|e] eqn:Hm; cbn [fst snd].
  - destruct (H w a w' Hw Hm) as [Hs HQ]. split; [exact Hs|]. intros b [= <-]. exact HQ.
  - split; [exact Hw|]. intros b Hb. discriminate.
Qed.

Lemma holds_GetChild n i :
  holds w0 R (Logged.lift (GetChild n i)) (fun r => forall c, r = Some c -> R n c).
Proof.
  apply holds_lift. intros w r w' Hw H. apply GetChild_inv in H as [-> Hc].
  split; [exact Hw|]. intros c Hr. destruct Hw as [_ Hl].
  apply (edge_links R w n c Hl), Hc, Hr.
Qed.

Lemma holds_GetTitle n : holds w0 R (Logged.lift (GetTitle n)) (fun _ => True).
Proof.
  apply holds_lift. intros w r w' Hw H. apply GetTitle_inv in H as ->. auto.
Qed.

Lemma holds_GetNumChildren n : holds w0 R (Logged.lift (GetNumChildren n)) (fun _ => True).
Proof.
  apply holds_lift. intros w r w' Hw H. apply GetNumChildren_inv in H as ->. auto.
Qed.

Lemma holds_AddChild p i sub :
  (forall s, sub = Some s -> R p s) ->
  holds w0 R (Logged.lift (AddChild p i sub)) (fun _ => True).
Proof.
  intros Hs. apply holds_lift. intros w u w' [Ht Hl] H. split; [|exact I]. split.
  - eapply titles_kept_trans; [exact Ht|]. eapply keeps_AddChild. exact H.
  - destruct sub as [s|].
    + exact (AddChild_links R p i s w u w' Hl (Hs s eq_refl) H).
    + unfold AddChild in H. apply bind_inv in H as (b & w4 & _ & H). discriminate.
Qed.

Lemma holds_RemoveChild p i : holds w0 R (Logged.lift (RemoveChild p i)) (fun _ => True).
Proof.
  apply holds_lift. intros w u w' [Ht Hl] H. split; [|exact I]. split.
  - eapply titles_kept_trans; [exact Ht|]. eapply keeps_RemoveChild. exact H.
  - exact (RemoveChild_links R p i w u w' Hl H).
Qed.

Lemma holds_deref h (Q : handle -> Prop) :
  (forall c, h = Some c -> Q c) -> holds w0 R (Logged.deref h) Q.
Proof.
  intros HQ. destruct h as [c|]; [apply holds_ret; auto|apply holds_raise].
Qed.

Lemma holds_foldM {A S} (body : S -> A -> Logged.L S) (P : S -> Prop) (l : list A) :
  (forall s x, x ∈ l -> P s -> holds w0 R (body s x) P) ->
  forall s, P s -> holds w0 R (Logged.foldM body l s) P.
Proof.
  induction l as [|x l IH]; intros Hb s Hs; cbn [Logged.foldM]; [apply holds_ret, Hs|].
  eapply holds_bind; [apply Hb; [apply elem_of_cons; auto|exact Hs]|].
  intros s' Hs'. apply IH; [|exact Hs'].
  intros s1 y Hy. apply Hb, elem_of_cons. auto.
Qed.

Lemma holds_for_each {A} (l : list A) (body : A -> Logged.L unit) :
  (forall x, holds w0 R (body x) (fun _ => True)) ->
  holds w0 R (Logged.for_each l body) (fun _ => True).
Proof.
  intros Hb. induction l as [|x l IH]; cbn [Logged.for_each]; [apply holds_ret; exact I|].
  eapply holds_bind; [apply Hb|]. intros _ _. exact IH.
Qed.

Lemma holds_visit (rec : option handle -> Logged.L unit) F h i :
  (forall x, holds w0 R (rec x) (fun _ => True)) ->
  holds w0 R (Logged.Api_bookmark_v1.visit rec F h i) (fun _ => True).
Proof.
  intros Hrec. unfold Logged.Api_bookmark_v1.visit.
  eapply holds_bind; [apply holds_GetChild|].
  intros [c|] Hc; [|apply holds_ret; exact I]. specialize (Hc c eq_refl).
  eapply holds_bind; [apply Hrec|]. intros _ _.
  eapply holds_bind; [apply holds_GetTitle|]. intros title _.
  destruct (is_filtered F title); [|apply holds_ret; exact I].
  eapply (holds_bind _ _ (fun gcs => forall g, g ∈ gcs -> R c g)).
  { unfold Logged.Api_bookmark_v1.grandchildren_of.
    eapply holds_bind; [apply holds_GetNumChildren|]. intros n _.
    apply holds_foldM.
    - intros acc j _ Hacc. unfold Logged.Api_bookmark_v1.collect.
      eapply holds_bind; [apply holds_GetChild|]. intros sub Hsub. apply holds_ret.
      destruct sub as [s|]; [|exact Hacc]. intros g Hg.
      apply elem_of_app in Hg as [Hg|Hg]; [auto|].
      apply elem_of_cons in Hg as [->|Hg]; [auto|].
      apply elem_of_nil in Hg. destruct Hg.
    - intros g Hg. apply elem_of_nil in Hg. destruct Hg. }
  intros gcs Hg.
  eapply holds_bind; [|intros _ _; apply holds_RemoveChild].
  unfold Logged.Api_bookmark_v1.move_up.
  apply (holds_foldM _ (fun _ => True)); [|exact I].
  intros pos sub Hsub _. unfold Logged.Api_bookmark_v1.insert_at.
  eapply holds_bind; [|intros _ _; apply holds_ret; exact I].
  apply holds_AddChild. intros s [= <-]. eapply R_trans; [exact Hc|]. auto.
Qed.

Lemma holds_clean_bwd F (fuel : nat) :
  forall parent, holds w0 R (Logged.Api_bookmark_v1.clean F fuel parent) (fun _ => True).
Proof.
  induction fuel as [|fuel IH]; intros [p|]; cbn [Logged.Api_bookmark_v1.clean];
    try (apply holds_ret; exact I); try apply holds_raise.
  eapply holds_bind; [apply holds_GetNumChildren|]. intros count _.
  apply holds_for_each. intros i. apply holds_visit. exact IH.
Qed.

Lemma holds_while_loop (rec : option handle -> Logged.L unit) F h (n : nat) :
  (forall x, holds w0 R (rec x) (fun _ => True)) ->
  forall i count,
    holds w0 R (Logged.Bookmark_app.while_loop rec F h n i count) (fun _ => True).
Proof.
  intros Hrec. induction n as [|n IH]; intros i count;
    cbn [Logged.Bookmark_app.while_loop]; [apply holds_raise|].
  destruct (i <? count); [|apply holds_ret; exact I].
  eapply holds_bind; [apply holds_GetChild|]. intros child Hchild.
  eapply holds_bind; [apply Hrec|]. intros _ _.
  eapply (holds_bind _ _ (fun c => R h c)); [apply holds_deref; exact Hchild|].
  intros c Hc.
  eapply holds_bind; [apply holds_GetTitle|]. intros title _.
  destruct (is_filtered F title); [|apply IH].
  eapply holds_bind; [apply holds_GetNumChildren|]. intros sub_count _.
  eapply (holds_bind _ _ (fun _ => True)).
  { unfold Logged.Bookmark_app.splice. apply holds_foldM; [|exact I].
    intros ic s _ _. unfold Logged.Bookmark_app.splice_one.
    eapply holds_bind; [apply holds_GetChild|]. intros sub Hsub.
    eapply holds_bind; [|intros _ _; apply holds_ret; exact I].
    apply holds_AddChild. intros x Hx. eapply R_trans; [exact Hc|]. auto. }
  intros ic _. eapply holds_bind; [apply holds_RemoveChild|]. intros _ _. apply IH.
Qed.

Lemma holds_clean_fwd F (fuel : nat) :
  forall parent, holds w0 R (Logged.Bookmark_app.clean F fuel parent) (fun _ => True).
Proof.
  induction fuel as [|fuel IH]; intros parent; cbn [Logged.Bookmark_app.clean];
    [apply holds_raise|].
  eapply (holds_bind _ _ (fun _ => True)); [apply holds_deref; auto|]. intros p _.
  eapply holds_bind; [apply holds_GetNumChildren|]. intros count _.
  apply holds_while_loop. exact IH.
Qed.

End LoggedRuns.

Lemma stays_titles (w : world) : stays w (fun _ _ => True) w.
Proof.
  split; [apply titles_kept_refl|]. split; [intros p b k _ _; exact I|].
  apply Forall_forall. intros x _ p b k _ _. exact I.
Qed.

Lemma stays_paths (d : gmap handle bookmark) : stays (World d []) (tc (edge d)) (World d []).
Proof. split; [apply titles_kept_refl|apply links_initially]. Qed.

(** X1: no run of either variant, on any store, changes a title, adds a
    bookmark to the store or drops one from it, whether the run returns,
    raises, or goes on for ever and stops where its fuel ends: this holds
    of the state in which the run ends and of every store on the way.
    The procedures that keep the state of a run that raises end as
    [clean] itself ends. *)
Theorem clean_never_retitles (F : list string) (fuel : nat) (parent : option handle)
    (w : world) :
  (forall r w', Logged.Api_bookmark_v1.clean F fuel parent w = (r, w') ->
                titles_kept w w') /\
  (forall r w', Logged.Bookmark_app.clean F fuel parent w = (r, w') ->
                titles_kept w w') /\
  Api_bookmark_v1.clean F fuel parent w
  = Logged.erase (Logged.Api_bookmark_v1.clean F fuel parent) w /\
  Bookmark_app.clean F fuel parent w
  = Logged.erase (Logged.Bookmark_app.clean F fuel parent) w.
Proof.
  assert (forall x y z : handle, True -> True -> True) as Htrans by auto.
  split; [|split; [|split]].
  - intros r w' H.
    pose proof (holds_clean_bwd w (fun _ _ => True) Htrans F fuel parent w
                  (stays_titles w)) as [[Hk _] _].
    rewrite H in Hk. exact Hk.
  - intros r w' H.
    pose proof (holds_clean_fwd w (fun _ _ => True) Htrans F fuel parent w
                  (stays_titles w)) as [[Hk _] _].
    rewrite H in Hk. exact Hk.
  - symmetry. apply erase_clean_bwd.
  - symmetry. apply erase_clean_fwd.
Qed.

Lemma clean_never_retitles_witness :
  exists w1 w2,
    Logged.Api_bookmark_v1.clean [".pdf"] 6 (Some 0) (World cyclic_middle [])
    = (inl OutOfFuel, w1) /\
    Logged.Bookmark_app.clean [".pdf"] 6 (Some 0) (World cyclic_middle [])
    = (inl OutOfFuel, w2) /\
    kids_at (heap w1) 0 = [2; 1; 5] /\ kids_at (heap w2) 0 = [3; 1; 4] /\
    titles_kept (World cyclic_middle []) w1 /\ titles_kept (World cyclic_middle []) w2.
Proof.
  destruct (Logged.Api_bookmark_v1.clean [".pdf"] 6 (Some 0) (World cyclic_middle []))
    as [r1 w1] eqn:H1.
  destruct (Logged.Bookmark_app.clean [".pdf"] 6 (Some 0) (World cyclic_middle []))
    as [r2 w2] eqn:H2.
  pose proof (proj1 (clean_never_retitles [".pdf"] 6 (Some 0) (World cyclic_middle []))
                r1 w1 H1) as K1.
  pose proof (proj1 (proj2 (clean_never_retitles [".pdf"] 6 (Some 0)
                              (World cyclic_middle []))) r2 w2 H2) as K2.
  vm_compute in H1. vm_compute in H2.
  injection H1 as <- Hw1. injection H2 as <- Hw2.
  exists w1, w2. split; [reflexivity|]. split; [reflexivity|].
  split; [rewrite <- Hw1; vm_compute; reflexivity|].
  split; [rewrite <- Hw2; vm_compute; reflexivity|].
  split; [exact K1|exact K2].
Defined.

(** ** Paths *)

Lemma links_no_new_paths (d : gmap handle bookmark) w' :
  links_within (tc (edge d)) w' -> no_new_paths d w'.
Proof.
  intros [Hh Ht]. split.
  - intros r n. apply rtc_within. exact Hh.
  - eapply Forall_impl; [exact Ht|]. intros x Hx r n. apply rtc_within. exact Hx.
Qed.

(** X2: whatever the store, with shared or cyclic child lists too, a run
    of either variant links a bookmark only to bookmarks that were below
    it: every bookmark reachable from some bookmark when the run ends,
    or in a store on the way, was reachable from it before. This holds
    of the runs that return, of those that raise, and of those that go
    on for ever and stop where their fuel ends. *)
Theorem clean_makes_no_new_paths (F : list string) (fuel : nat) (parent : option handle)
    (d : gmap handle bookmark) :
  (forall r w', Logged.Api_bookmark_v1.clean F fuel parent (World d []) = (r, w') ->
                no_new_paths d w') /\
  (forall r w', Logged.Bookmark_app.clean F fuel parent (World d []) = (r, w') ->
                no_new_paths d w') /\
  Api_bookmark_v1.clean F fuel parent (World d [])
  = Logged.erase (Logged.Api_bookmark_v1.clean F fuel parent) (World d []) /\
  Bookmark_app.clean F fuel parent (World d [])
  = Logged.erase (Logged.Bookmark_app.clean F fuel parent) (World d []).
Proof.
  split; [|split; [|split]].
  - intros r w' H. apply links_no_new_paths.
    pose proof (holds_clean_bwd (World d []) (tc (edge d)) (@tc_transitive _ _) F fuel
                  parent (World d []) (stays_paths d)) as [[_ Hl] _].
    rewrite H in Hl. exact Hl.
  - intros r w' H. apply links_no_new_paths.
    pose proof (holds_clean_fwd (World d []) (tc (edge d)) (@tc_transitive _ _) F fuel
                  parent (World d []) (stays_paths d)) as [[_ Hl] _].
    rewrite H in Hl. exact Hl.
  - symmetry. apply erase_clean_bwd.
  - symmetry. apply erase_clean_fwd.
Qed.

Lemma clean_makes_no_new_paths_witness :
  exists w1 w2,
    Logged.Api_bookmark_v1.clean [".pdf"] 6 (Some 0) (World cyclic_middle [])
    = (inl OutOfFuel, w1) /\
    Logged.Bookmark_app.clean [".pdf"] 6 (Some 0) (World cyclic_middle [])
    = (inl OutOfFuel, w2) /\
    kids_at (heap w1) 0 = [2; 1; 5] /\ kids_at (heap w2) 0 = [3; 1; 4] /\
    no_new_paths cyclic_middle w1 /\ no_new_paths cyclic_middle w2.
Proof.
  destruct (Logged.Api_bookmark_v1.clean [".pdf"] 6 (Some 0) (World cyclic_middle []))
    as [r1 w1] eqn:H1.
  destruct (Logged.Bookmark_app.clean [".pdf"] 6 (Some 0) (World cyclic_middle []))
    as [r2 w2] eqn:H2.
  pose proof (proj1 (clean_makes_no_new_paths [".pdf"] 6 (Some 0) cyclic_middle)
                r1 w1 H1) as K1.
  pose proof (proj1 (proj2 (clean_makes_no_new_paths [".pdf"] 6 (Some 0) cyclic_middle))
                r2 w2 H2) as K2.
  vm_compute in H1. vm_compute in H2.
  injection H1 as <- Hw1. injection H2 as <- Hw2.
  exists w1, w2. split; [reflexivity|]. split; [reflexivity|].
  split; [rewrite <- Hw1; vm_compute; reflexivity|].
  split; [rewrite <- Hw2; vm_compute; reflexivity|].
  split; [exact K1|exact K2].
Defined.

(** ** An outline without matched titles *)

Section UnmatchedForward.

Import Bookmark_app.

Variable F : list string.

Lemma while_noop (rec : option handle -> M unit) (h : handle) (b : bookmark) w :
  heap w !! h = Some b ->
  (forall c, c ∈ bk_kids b ->
     rec (Some c) w = Ok (tt, w) /\
     exists bc, heap w !! c = Some bc /\ is_filtered F (bk_title bc) = false) ->
  forall n i, length (bk_kids b) - i < n ->
    while_loop rec F h n i (length (bk_kids b)) w = Ok (tt, w).
Proof.
  intros Hh Hkids. induction n as [|n IH]; intros i Hn; [lia|]. cbn [while_loop].
  destruct (i <? length (bk_kids b)) eqn:Hi; [|reflexivity].
  apply Nat.ltb_lt in Hi.
  destruct (lookup_lt_is_Some_2 (bk_kids b) i Hi) as [c Hc].
  destruct (Hkids c) as (Hrec & bc & Hbc & Hkeep).
  { apply list_elem_of_lookup. eauto. }
  rewrite (bind_ok _ _ _ _ _ (GetChild_ok _ _ _ _ Hh)), Hc.
  rewrite (bind_ok _ _ _ _ _ Hrec). unfold deref.
  rewrite (bind_ok _ _ w c w) by reflexivity.
  rewrite (bind_ok _ _ _ _ _ (GetTitle_ok _ _ _ Hbc)), Hkeep.
  apply IH. lia.
Qed.

Lemma clean_fwd_noop (t : tree) :
  forall fuel w,
    size t < fuel -> repr (heap w) t ->
    (forall x, x ∈ below t -> is_filtered F x.2 = false) ->
    clean F fuel (Some (root_of t)) w = Ok (tt, w).
Proof.
  induction t as [h ti ks IH] using tree_ind'. intros fuel w Hfuel Hr Hkeep.
  destruct fuel as [|fuel]; [lia|]. simpl clean. simpl root_of. unfold deref.
  rewrite (bind_ok _ _ w h w) by reflexivity.
  pose proof (repr_lookup _ _ Hr) as Hp. simpl in Hp.
  pose proof (repr_kids _ _ Hr) as Hks. simpl in Hks.
  rewrite (bind_ok _ _ _ _ _ (GetNumChildren_ok _ _ _ Hp)).
  apply (while_noop _ h _ w Hp).
  - cbn [bk_kids]. intros x Hx. apply elem_of_map in Hx as (c & -> & Hc).
    rewrite Forall_forall in IH, Hks.
    assert (forall y, y ∈ nodes c -> is_filtered F y.2 = false) as Hkc.
    { intros y Hy. apply Hkeep. apply (nodes_child (Node h ti ks) c); auto. }
    split.
    + apply IH; auto.
      * pose proof (size_child (Node h ti ks) c Hc). lia.
      * intros y Hy. apply Hkc. rewrite nodes_eq. apply elem_of_cons. auto.
    + eexists. split; [apply repr_lookup; auto|]. cbn [bk_title].
      apply (Hkc (root_of c, title_of c)). rewrite nodes_eq. apply elem_of_cons. auto.
  - cbn [bk_kids]. rewrite length_map.
    pose proof (size_kids (Node h ti ks)). simpl in *. lia.
Qed.

End UnmatchedForward.

(** X3: when no bookmark under the root has a matched title (always so
    with an empty list of filters), both variants return the state they
    were given: the store is the same and no call of [AddChild] or
    [RemoveChild] has been made. The store need not hold a proper tree:
    it is enough that it unfolds into a tree. *)
Theorem unmatched_outline_left_alone (F : list string) (t : tree) (fuel : nat) (w : world) :
  size t < fuel -> repr (heap w) t ->
  Forall (fun x => is_filtered F x.2 = false) (below t) ->
  Api_bookmark_v1.clean F fuel (Some (root_of t)) w = Ok (tt, w) /\
  Bookmark_app.clean F fuel (Some (root_of t)) w = Ok (tt, w).
Proof.
  intros Hfuel Hr Hkeep. rewrite Forall_forall in Hkeep. split.
  - apply clean_bwd_noop; auto.
  - apply clean_fwd_noop; auto.
Qed.

Lemma unmatched_outline_left_alone_witness :
  Api_bookmark_v1.clean [] 9 (Some (root_of adjacent_tree)) (World adjacent [])
  = Ok (tt, World adjacent []) /\
  Bookmark_app.clean [] 9 (Some (root_of adjacent_tree)) (World adjacent [])
  = Ok (tt, World adjacent []).
Proof.
  apply (unmatched_outline_left_alone [] adjacent_tree 9 (World adjacent []));
    [vm_compute; lia|exact adjacent_repr|repeat constructor].
Defined.

(** ** Document order and count *)

Lemma nodes_rebuild (F : list string) (t : tree) :
  nodes (rebuild F t) =
  (root_of t, title_of t) :: List.filter (fun x => negb (matched_node F x)) (below t).
Proof. rewrite nodes_eq, root_rebuild, title_rebuild, below_rebuild. reflexivity. Qed.

(** X4: after either variant the outline under the root, read in
    document order (pre-order), is the old outline in document order
    with the bookmarks of matched title struck out: filtering never
    reorders the bookmarks that stay. *)
Theorem document_order_kept (F : list string) (t : tree) (fuel : nat) (w : world) :
  size t < fuel -> NoDup (ids t) -> repr (heap w) t ->
  exists w1 w2 t',
    Api_bookmark_v1.clean F fuel (Some (root_of t)) w = Ok (tt, w1) /\
    Bookmark_app.clean F fuel (Some (root_of t)) w = Ok (tt, w2) /\
    repr (heap w1) t' /\ repr (heap w2) t' /\
    nodes t' =
    (root_of t, title_of t) :: List.filter (fun x => negb (matched_node F x)) (below t).
Proof.
  intros Hfuel Hnd Hr.
  destruct (both_sound F t fuel w Hfuel Hnd Hr) as (w1 & w2 & H1 & H2 & Hc1 & Hc2 & _).
  exists w1, w2, (rebuild F t). split; [exact H1|]. split; [exact H2|].
  split; [apply cleaned_repr; exact Hc1|]. split; [apply cleaned_repr; exact Hc2|].
  apply nodes_rebuild.
Qed.

Lemma document_order_kept_witness :
  exists w1 w2 t',
    Api_bookmark_v1.clean [".pdf"; "outline placeholder"] 9 (Some (root_of adjacent_tree))
      (World adjacent []) = Ok (tt, w1) /\
    Bookmark_app.clean [".pdf"; "outline placeholder"] 9 (Some (root_of adjacent_tree))
      (World adjacent []) = Ok (tt, w2) /\
    repr (heap w1) t' /\ repr (heap w2) t' /\
    nodes t' =
    (root_of adjacent_tree, title_of adjacent_tree)
    :: List.filter (fun x => negb (matched_node [".pdf"; "outline placeholder"] x))
         (below adjacent_tree).
Proof.
  apply (document_order_kept [".pdf"; "outline placeholder"] adjacent_tree 9
           (World adjacent []));
    [vm_compute; lia|exact adjacent_NoDup|exact adjacent_repr].
Defined.

(** X5: the outline under the root after either variant has as many
    bookmarks as the outline before, less the bookmarks under the root
    whose title is matched. *)
Theorem count_accounting (F : list string) (t : tree) (fuel : nat) (w : world) :
  size t < fuel -> NoDup (ids t) -> repr (heap w) t ->
  exists w1 w2 t',
    Api_bookmark_v1.clean F fuel (Some (root_of t)) w = Ok (tt, w1) /\
    Bookmark_app.clean F fuel (Some (root_of t)) w = Ok (tt, w2) /\
    root_of t' = root_of t /\
    repr (heap w1) t' /\ repr (heap w2) t' /\ NoDup (ids t') /\
    size t' + length (List.filter (matched_node F) (below t)) = size t.
Proof.
  intros Hfuel Hnd Hr.
  destruct (both_sound F t fuel w Hfuel Hnd Hr) as (w1 & w2 & H1 & H2 & Hc1 & Hc2 & _).
  exists w1, w2, (rebuild F t). split; [exact H1|]. split; [exact H2|].
  split; [apply root_rebuild|].
  split; [apply cleaned_repr; exact Hc1|]. split; [apply cleaned_repr; exact Hc2|].
  split; [apply NoDup_rebuild; exact Hnd|].
  rewrite !size_ids, ids_rebuild, (ids_eq t). simpl. rewrite !length_map.
  pose proof (filter_length (matched_node F) (below t)) as Hl.
  unfold matched_node in *. lia.
Qed.

Lemma count_accounting_witness :
  exists w1 w2 t',
    Api_bookmark_v1.clean [".pdf"; "outline placeholder"] 9 (Some (root_of adjacent_tree))
      (World adjacent []) = Ok (tt, w1) /\
    Bookmark_app.clean [".pdf"; "outline placeholder"] 9 (Some (root_of adjacent_tree))
      (World adjacent []) = Ok (tt, w2) /\
    root_of t' = root_of adjacent_tree /\
    repr (heap w1) t' /\ repr (heap w2) t' /\ NoDup (ids t') /\
    size t' + length (List.filter (matched_node [".pdf"; "outline placeholder"])
                        (below adjacent_tree)) = size adjacent_tree.
Proof.
  apply (count_accounting [".pdf"; "outline placeholder"] adjacent_tree 9
           (World adjacent []));
    [vm_compute; lia|exact adjacent_NoDup|exact adjacent_repr].
Defined.

(** * The route of [app.py]: filters of the form, tests on the upload *)

(** ** Stripping *)

Lemma rstrip_rstrip (s : string) : str_rstrip (str_rstrip s) = str_rstrip s.
Proof.
  induction s as [|c s IH]; simpl; [reflexivity|].
  destruct (str_rstrip s) as [|a r] eqn:Hr.
  - destruct (is_space c) eqn:Hc; simpl; [reflexivity|]. rewrite Hc. reflexivity.
  - simpl in IH |- *. rewrite IH. reflexivity.
Qed.

Lemma lstrip_head (s : string) :
  str_lstrip s = EmptyString \/
  exists c r, str_lstrip s = String c r /\ is_space c = false.
Proof.
  induction s as [|c s IH]; simpl; [auto|].
  destruct (is_space c) eqn:Hc; [exact IH|]. right. eauto.
Qed.

Lemma rstrip_head (c : ascii) (r : string) :
  is_space c = false -> exists r', str_rstrip (String c r) = String c r'.
Proof.
  intros Hc. simpl. destruct (str_rstrip r); [rewrite Hc|]; eauto.
Qed.

Lemma strip_head (s : string) :
  str_strip s = EmptyString \/
  exists c r, str_strip s = String c r /\ is_space c = false.
Proof.
  unfold str_strip. destruct (lstrip_head s) as [-> |(c & r & -> & Hc)]; [auto|].
  right. destruct (rstrip_head c r Hc) as [r' ->]. eauto.
Qed.

Lemma strip_strip (s : string) : str_strip (str_strip s) = str_strip s.
Proof.
  destruct (strip_head s) as [-> |(c & r & Hs & Hc)]; [reflexivity|].
  unfold str_strip at 1. rewrite Hs. simpl str_lstrip. rewrite Hc, <- Hs.
  unfold str_strip. apply rstrip_rstrip.
Qed.

Lemma lstrip_has_char (a : ascii) (s : string) :
  has_char a s = false -> has_char a (str_lstrip s) = false.
Proof.
  induction s as [|c s IH]; simpl; [auto|].
  intros H. apply orb_false_iff in H as [H1 H2].
  destruct (is_space c); [auto|]. simpl. rewrite H1, H2. reflexivity.
Qed.

Lemma rstrip_has_char (a : ascii) (s : string) :
  has_char a s = false -> has_char a (str_rstrip s) = false.
Proof.
  induction s as [|c s IH]; simpl; [auto|].
  intros H. apply orb_false_iff in H as [H1 H2]. specialize (IH H2).
  destruct (str_rstrip s) as [|b r].
  - destruct (is_space c); simpl; [reflexivity|]. rewrite H1. reflexivity.
  - simpl in IH |- *. rewrite H1, IH. reflexivity.
Qed.

Lemma strip_has_char (a : ascii) (s : string) :
  has_char a s = false -> has_char a (str_strip s) = false.
Proof. intros H. apply rstrip_has_char, lstrip_has_char, H. Qed.

(** ** Splitting and joining *)

Lemma split_nonempty (sep : ascii) (s : string) : str_split sep s <> [].
Proof.
  induction s as [|c s IH]; simpl; [discriminate|].
  destruct (Ascii.eqb c sep); [discriminate|].
  destruct (str_split sep s); discriminate.
Qed.

Lemma split_pieces (sep : ascii) (s x : string) :
  x ∈ str_split sep s -> has_char sep x = false.
Proof.
  revert x. induction s as [|c s IH]; simpl; intros x Hx.
  - apply elem_of_cons in Hx as [->|Hx]; [reflexivity|].
    apply elem_of_nil in Hx. destruct Hx.
  - destruct (Ascii.eqb c sep) eqn:Hc.
    + apply elem_of_cons in Hx as [->|Hx]; [reflexivity|auto].
    + destruct (str_split sep s) as [|y ys] eqn:Hs.
      * apply elem_of_cons in Hx as [->|Hx]; [simpl; rewrite Hc; reflexivity|].
        apply elem_of_nil in Hx. destruct Hx.
      * apply elem_of_cons in Hx as [->|Hx].
        -- simpl. rewrite Hc. apply IH, elem_of_cons. auto.
        -- apply IH, elem_of_cons. auto.
Qed.

Lemma split_before_sep (sep : ascii) (x rest : string) :
  has_char sep x = false ->
  str_split sep (String.append x (String sep rest)) = x :: str_split sep rest.
Proof.
  induction x as [|c x IH]; simpl; intros H.
  - rewrite Ascii.eqb_refl. reflexivity.
  - apply orb_false_iff in H as [H1 H2]. rewrite H1, (IH H2). reflexivity.
Qed.

Lemma split_no_sep (sep : ascii) (x : string) :
  has_char sep x = false -> str_split sep x = [x].
Proof.
  induction x as [|c x IH]; simpl; intros H; [reflexivity|].
  apply orb_false_iff in H as [H1 H2]. rewrite H1, (IH H2). reflexivity.
Qed.

Lemma join_cons (sep x y : string) (l : list string) :
  str_join sep (x :: y :: l) = String.append x (String.append sep (str_join sep (y :: l))).
Proof. reflexivity. Qed.

Lemma split_joined (l : list string) :
  l <> [] -> Forall tidy l ->
  str_split "," (String " " (str_join ", " l)) = map (String " ") l.
Proof.
  induction l as [|x l IH]; intros Hne Hl; [congruence|].
  apply Forall_cons in Hl as [(_ & _ & Hx) Hl].
  destruct l as [|y l].
  - simpl str_join. simpl map. apply (split_no_sep "," (String " " x)).
    simpl. exact Hx.
  - rewrite join_cons. simpl map.
    change (String " " (String.append x (String.append ", " (str_join ", " (y :: l)))))
      with (String.append (String " " x)
                          (String "," (String " " (str_join ", " (y :: l))))).
    rewrite split_before_sep by (simpl; exact Hx).
    rewrite IH by (try discriminate; exact Hl). reflexivity.
Qed.

Lemma strip_after_space (f : string) : str_strip (String " " f) = str_strip f.
Proof. reflexivity. Qed.

Lemma parse_piece (f : string) :
  tidy f ->
  match str_strip f with EmptyString => [] | g => [g] end = [f].
Proof. intros (Hne & -> & _). destruct f; [congruence|reflexivity]. Qed.

Lemma parse_spaced (l : list string) :
  Forall tidy l ->
  flat_map (fun f => match str_strip f with EmptyString => [] | g => [g] end)
           (map (String " ") l) = l.
Proof.
  induction 1 as [|x l Hx _ IH]; simpl; [reflexivity|].
  rewrite strip_after_space, (parse_piece x Hx), IH. reflexivity.
Qed.

Lemma parse_filters_tidy (filters_input f : string) :
  f ∈ Bookmark_app_route.parse_filters filters_input -> tidy f.
Proof.
  unfold Bookmark_app_route.parse_filters. intros Hf.
  apply elem_of_flat_map in Hf as (piece & Hp & Hf).
  apply split_pieces in Hp.
  destruct (str_strip piece) as [|c g] eqn:Hs.
  - apply elem_of_nil in Hf. destruct Hf.
  - apply elem_of_cons in Hf as [->|Hf]; [|apply elem_of_nil in Hf; destruct Hf].
    rewrite <- Hs. split; [rewrite Hs; discriminate|].
    split; [apply strip_strip|]. apply strip_has_char. exact Hp.
Qed.

(** X6: whatever the form sends, the filters that the route of [app.py]
    hands to [remove_filtered_bookmarks] are not empty, have no white
    space at either end and no comma. *)
Theorem form_filters_are_tidy (filters_input : string) :
  Forall tidy (Bookmark_app_route.parse_filters filters_input).
Proof. apply Forall_forall. intros f. apply parse_filters_tidy. Qed.

(** X7: the filters that the route reports in its log, joined by a comma
    and a space, are read back from that text as they were: parsing
    [', '.join(filters)] gives [filters], for every list of tidy
    filters. *)
Theorem parse_join_round_trip (filters : list string) :
  Forall tidy filters ->
  Bookmark_app_route.parse_filters (str_join ", " filters) = filters.
Proof.
  intros Hl. unfold Bookmark_app_route.parse_filters.
  destruct filters as [|x l]; [reflexivity|].
  apply Forall_cons in Hl as [Hx Hl].
  destruct l as [|y l].
  - simpl str_join. destruct Hx as (Hne & Hs & Hc).
    rewrite (split_no_sep "," x Hc). simpl. rewrite Hs.
    destruct x; [congruence|reflexivity].
  - rewrite join_cons.
    change (String.append ", " (str_join ", " (y :: l)))
      with (String "," (String " " (str_join ", " (y :: l)))).
    rewrite split_before_sep by apply Hx.
    rewrite split_joined by (try discriminate; exact Hl).
    cbn [flat_map]. rewrite (parse_piece x Hx), (parse_spaced (y :: l) Hl). reflexivity.
Qed.

Lemma parse_join_round_trip_witness :
  Bookmark_app_route.parse_filters (str_join ", " [".pdf"; "outline placeholder"])
  = [".pdf"; "outline placeholder"].
Proof.
  apply (parse_join_round_trip [".pdf"; "outline placeholder"]).
  repeat constructor; discriminate.
Defined.

(** X8: the form cannot make the route of [app.py] remove a bookmark
    without a title: whatever the field of filters, absent too, the
    filter run on a proper outline leaves every bookmark of absent or
    empty title in place. *)
Theorem form_never_removes_untitled (field : option string) (t : tree) (fuel : nat)
    (w : world) :
  size t < fuel -> NoDup (ids t) -> repr (heap w) t ->
  exists w',
    Bookmark_app_route.filter_outline fuel (Some (root_of t)) field w = Ok (tt, w') /\
    forall n,
      reachable (heap w) (root_of t) n ->
      label_at (heap w) n = None \/ label_at (heap w) n = Some EmptyString ->
      reachable (heap w') (root_of t) n.
Proof.
  intros Hfuel Hnd Hr. unfold Bookmark_app_route.filter_outline,
    Bookmark_app.remove_filtered_bookmarks.
  set (filters := Bookmark_app_route.parse_filters (Bookmark_app_route.form_filters field)).
  destruct (both_sound (map lower filters) t fuel w Hfuel Hnd Hr)
    as (w1 & w2 & _ & H2 & _ & Hc2 & _).
  exists w2. split; [exact H2|]. intros n Hreach Hl.
  destruct (decide (n = root_of t)) as [->|Hn]; [apply rtc_refl|].
  apply (survivors _ (heap w) (heap w2) t n Hr Hc2 Hn). split; [exact Hreach|].
  apply unmatched_empty_label; [|exact Hl].
  intros f Hf. apply (parse_filters_tidy _ f Hf).
Qed.

Lemma form_never_removes_untitled_witness :
  exists w',
    Bookmark_app_route.filter_outline 3 (Some (root_of untitled_root_tree)) (Some ", ,x,")
      (World untitled_root []) = Ok (tt, w') /\
    forall n,
      reachable untitled_root (root_of untitled_root_tree) n ->
      label_at untitled_root n = None \/ label_at untitled_root n = Some EmptyString ->
      reachable (heap w') (root_of untitled_root_tree) n.
Proof.
  apply (form_never_removes_untitled (Some ", ,x,") untitled_root_tree 3
           (World untitled_root []));
    [vm_compute; lia|exact untitled_root_NoDup|exact untitled_root_repr].
Defined.

(** ** The tests on the upload *)

Lemma endswith_unfold (suffix s : string) :
  str_endswith suffix s =
  String.eqb s suffix || match s with
                         | EmptyString => false
                         | String _ s' => str_endswith suffix s'
                         end.
Proof. destruct s; reflexivity. Qed.

Lemma endswith_spec (suffix s : string) :
  str_endswith suffix s = true <-> exists pre, s = String.append pre suffix.
Proof.
  induction s as [|c s IH]; rewrite endswith_unfold.
  - rewrite orb_false_r, String.eqb_eq. split.
    + intros <-. exists EmptyString. reflexivity.
    + intros ([|a pre] & H); [exact H|discriminate].
  - rewrite orb_true_iff, String.eqb_eq, IH. split.
    + intros [<-|(pre & ->)]; [exists EmptyString; reflexivity|].
      exists (String c pre). reflexivity.
    + intros ([|a pre] & H); [left; exact H|right].
      rewrite append_cons in H. injection H as _ ->. eauto.
Qed.

Lemma lower_app (a b : string) :
  lower (String.append a b) = String.append (lower a) (lower b).
Proof. induction a as [|c a IH]; simpl; [reflexivity|]. rewrite IH. reflexivity. Qed.

Lemma lower_split (x y : string) :
  forall s, lower s = String.append x y ->
    exists a b, s = String.append a b /\ lower a = x /\ lower b = y.
Proof.
  induction x as [|c x IH]; intros s H.
  - exists EmptyString, s. auto.
  - destruct s as [|d s]; [discriminate|]. simpl in H. injection H as Hc H.
    destruct (IH s H) as (a & b & -> & Ha & Hb).
    exists (String d a), b. simpl. rewrite Hc, Ha. auto.
Qed.

Lemma pdf_name (filename : string) :
  str_endswith ".pdf" (lower filename) = true <->
  exists stem ext, filename = String.append stem ext /\ lower ext = ".pdf".
Proof.
  rewrite endswith_spec. split.
  - intros (pre & H). apply lower_split in H as (a & b & -> & _ & Hb). eauto.
  - intros (stem & ext & -> & He). exists (lower stem). rewrite lower_app, He. reflexivity.
Qed.

(** X9: the routes of [app.py], [Api_bookmark_v1.py] and
    [Bookmark_URL_v1.py] let the same uploads through: those with a file
    whose name ends in ".pdf", in any letter case. The test for an empty
    name that only [app.py] makes changes the message of the refusal, not
    what is refused; every refusal has status 400. *)
Theorem upload_tests_agree (has_file : bool) (filename : string) :
  (Bookmark_app_route.refuse_upload has_file filename = None <->
   has_file = true /\
   exists stem ext, filename = String.append stem ext /\ lower ext = ".pdf") /\
  (Api_bookmark_v1_route.refuse_upload has_file filename = None <->
   Bookmark_app_route.refuse_upload has_file filename = None) /\
  (forall msg status,
     Bookmark_app_route.refuse_upload has_file filename = Some (msg, status) \/
     Api_bookmark_v1_route.refuse_upload has_file filename = Some (msg, status) ->
     status = 400).
Proof.
  unfold Bookmark_app_route.refuse_upload, Api_bookmark_v1_route.refuse_upload.
  rewrite <- pdf_name.
  destruct has_file; simpl.
  - destruct (String.eqb_spec filename "") as [->|Hne]; simpl.
    + repeat split; try discriminate; try (intros [_ H]; discriminate).
      intros msg status [H|H]; congruence.
    + destruct (str_endswith ".pdf" (lower filename)); simpl.
      * repeat split; auto. intros msg status [H|H]; discriminate.
      * repeat split; try discriminate; try (intros [_ H]; discriminate).
        intros msg status [H|H]; congruence.
  - repeat split; try discriminate; try (intros [H _]; discriminate).
    intros msg status [H|H]; congruence.
Qed.

(** * [remove_filtered_bookmarks] with its document, and the worker *)

(** X10: when the document library is there, the document opens with no
    outline or with a proper outline, and [Save] succeeds, the worker of
    [Api_bookmark_v1.py] puts the message of success on the queue, and
    [remove_filtered_bookmarks] of [app.py] returns; both have opened the
    input, saved to the output path the filtered outline (the bookmarks
    of unmatched title, in document order; the document as it was when it
    has no outline) and then closed the document. *)
Theorem worker_saves_filtered_outline (env : sdk) (ot : option tree) (fuel : nat)
    (input_pdf output_pdf : string) (filters : list string) :
  pdfix env = true -> save_ok env = true -> outline_of env ot -> size_of ot < fuel ->
  exists d1 d2,
    Api_bookmark_v1_doc.bookmark_worker env fuel input_pdf output_pdf filters
    = ([OpenDoc input_pdf; Save output_pdf d1; Close], Message true None) /\
    Bookmark_app_doc.remove_filtered_bookmarks env fuel input_pdf output_pdf filters
    = ([OpenDoc input_pdf; Save output_pdf d2; Close], Returned) /\
    d1 = d2 /\
    filtered_outline env filters ot d1.
Proof.
  intros Hp Hs Ho Hfuel.
  unfold Api_bookmark_v1_doc.bookmark_worker,
    Api_bookmark_v1_doc.remove_filtered_bookmarks,
    Bookmark_app_doc.remove_filtered_bookmarks.
  rewrite Hp, Hs. simpl negb. cbv iota.
  destruct Ho as [d Hd|d t Hd Hr Hnd]; rewrite Hd.
  - exists d, d. simpl. repeat split; eauto.
  - simpl. simpl in Hfuel.
    destruct (both_sound (map lower filters) t fuel (World d []) Hfuel Hnd Hr)
      as (w1 & w2 & H1 & H2 & Hc1 & Hc2 & Heq).
    rewrite H1, H2. exists (heap w1), (heap w2).
    split; [reflexivity|]. split; [reflexivity|]. split; [exact Heq|].
    exists (rebuild (map lower filters) t).
    split; [apply cleaned_repr; exact Hc1|].
    split; [apply NoDup_rebuild; exact Hnd|]. apply nodes_rebuild.
Qed.

Lemma worker_saves_filtered_outline_witness :
  exists d1 d2,
    Api_bookmark_v1_doc.bookmark_worker
      (Sdk true (Some (Some 0, adjacent)) true "" (fun _ => "")) 9 "in.pdf" "out.pdf"
      [".pdf"; "outline placeholder"]
    = ([OpenDoc "in.pdf"; Save "out.pdf" d1; Close], Message true None) /\
    Bookmark_app_doc.remove_filtered_bookmarks
      (Sdk true (Some (Some 0, adjacent)) true "" (fun _ => "")) 9 "in.pdf" "out.pdf"
      [".pdf"; "outline placeholder"]
    = ([OpenDoc "in.pdf"; Save "out.pdf" d2; Close], Returned) /\
    d1 = d2 /\
    filtered_outline (Sdk true (Some (Some 0, adjacent)) true "" (fun _ => ""))
      [".pdf"; "outline placeholder"] (Some adjacent_tree) d1.
Proof.
  apply (worker_saves_filtered_outline
           (Sdk true (Some (Some 0, adjacent)) true "" (fun _ => ""))
           (Some adjacent_tree) 9 "in.pdf" "out.pdf" [".pdf"; "outline placeholder"]);
    [reflexivity|reflexivity| |vm_compute; lia].
  apply (proper_outline _ adjacent adjacent_tree);
    [reflexivity|exact adjacent_repr|exact adjacent_NoDup].
Defined.

(** X11: on a document without outline or with a proper outline the
    filter is never the reason of a failure: whatever the library
    returns elsewhere, the worker reports success exactly when the
    library is there, the document opens and [Save] succeeds, and else
    its message is one of "PDFix initialization failed", "Failed to open
    PDF: ..." and "Save failed: ..."; the document is closed exactly when
    it has been opened. *)
Theorem worker_fails_only_on_the_library (env : sdk) (ot : option tree) (fuel : nat)
    (input_pdf output_pdf : string) (filters : list string) :
  document env = None \/ outline_of env ot -> size_of ot < fuel ->
  exists calls msg,
    Api_bookmark_v1_doc.bookmark_worker env fuel input_pdf output_pdf filters = (calls, msg) /\
    (success msg = true <-> pdfix env = true /\ document env <> None /\ save_ok env = true) /\
    (success msg = true -> error_field msg = None) /\
    (success msg = false ->
     error_field msg = Some "PDFix initialization failed" \/
     error_field msg = Some (String.append "Failed to open PDF: " (error_text env)) \/
     error_field msg = Some (String.append "Save failed: " (error_text env))) /\
    (Close ∈ calls <-> pdfix env = true /\ document env <> None).
Proof.
  intros Ho Hfuel.
  unfold Api_bookmark_v1_doc.bookmark_worker,
    Api_bookmark_v1_doc.remove_filtered_bookmarks.
  destruct (pdfix env) eqn:Hp; simpl negb; cbv iota.
  2:{ eexists _, _. split; [reflexivity|]. simpl. split; [|split; [|split]].
      - split; [discriminate|]. intros (H & _). discriminate.
      - discriminate.
      - auto.
      - split; [|intros (H & _); discriminate].
        intros H. apply elem_of_nil in H. destruct H. }
  assert (forall d, Close ∈ [OpenDoc input_pdf; Save output_pdf d; Close]) as Hclose.
  { intros d. apply elem_of_cons. right. apply elem_of_cons. right.
    apply elem_of_cons. left. reflexivity. }
  assert (forall (x : option handle * gmap handle bookmark) w',
            document env = Some x ->
            exists calls msg,
              (let (calls, o) :=
                 if save_ok env
                 then ([OpenDoc input_pdf; Save output_pdf (heap w'); Close], Returned)
                 else ([OpenDoc input_pdf; Save output_pdf (heap w'); Close],
                       Exception (String.append "Save failed: " (error_text env)))
               in match o with
                  | Returned => (calls, Message true None)
                  | Exception m => (calls, Message false (Some m))
                  | HostRaised e => (calls, Message false (Some (describe env e)))
                  end) = (calls, msg) /\
              (success msg = true <->
               true = true /\ document env <> None /\ save_ok env = true) /\
              (success msg = true -> error_field msg = None) /\
              (success msg = false ->
               error_field msg = Some "PDFix initialization failed" \/
               error_field msg
               = Some (String.append "Failed to open PDF: " (error_text env)) \/
               error_field msg = Some (String.append "Save failed: " (error_text env))) /\
              (Close ∈ calls <-> true = true /\ document env <> None))
    as Hsaved.
  { intros x w' Hx. rewrite Hx.
    destruct (save_ok env); eexists _, _; (split; [reflexivity|]); simpl;
      (split; [|split; [|split]]).
    - split; [|auto]. intros _. split; [reflexivity|]. split; [discriminate|reflexivity].
    - auto.
    - discriminate.
    - split; [|intros _; apply Hclose]. intros _. split; [reflexivity|discriminate].
    - split; [discriminate|]. intros (_ & _ & H). discriminate.
    - discriminate.
    - auto.
    - split; [|intros _; apply Hclose]. intros _. split; [reflexivity|discriminate]. }
  destruct Ho as [Hd|Ho]; [|destruct Ho as [d Hd|d t Hd Hr Hnd]].
  - rewrite Hd. eexists _, _. split; [reflexivity|]. simpl. split; [|split; [|split]].
    + split; [discriminate|]. intros (_ & H & _). congruence.
    + discriminate.
    + auto.
    + split; [|intros (_ & H); congruence].
      intros H. apply elem_of_cons in H as [H|H]; [discriminate|].
      apply elem_of_nil in H. destruct H.
  - pose proof (Hsaved _ (World d []) Hd) as H. rewrite Hd in H |- *. exact H.
  - simpl in Hfuel.
    destruct (clean_bwd_sound (map lower filters) t fuel (World d []) Hfuel Hnd Hr)
      as (w' & Hrun & _).
    pose proof (Hsaved _ w' Hd) as H. rewrite Hd in H |- *. simpl.
    rewrite Hrun. exact H.
Qed.

Lemma worker_fails_only_on_the_library_witness :
  exists calls msg,
    Api_bookmark_v1_doc.bookmark_worker
      (Sdk true (Some (Some 0, adjacent)) false "disk full" (fun _ => "")) 9
      "in.pdf" "out.pdf" [".pdf"] = (calls, msg) /\
    (success msg = true <->
     true = true /\ Some (Some 0, adjacent) <> None /\ false = true) /\
    (success msg = true -> error_field msg = None) /\
    (success msg = false ->
     error_field msg = Some "PDFix initialization failed" \/
     error_field msg = Some (String.append "Failed to open PDF: " "disk full") \/
     error_field msg = Some (String.append "Save failed: " "disk full")) /\
    (Close ∈ calls <-> true = true /\ Some (Some 0, adjacent) <> None).
Proof.
  apply (worker_fails_only_on_the_library
           (Sdk true (Some (Some 0, adjacent)) false "disk full" (fun _ => ""))
           (Some adjacent_tree) 9 "in.pdf" "out.pdf" [".pdf"]);
    [|vm_compute; lia].
  right. apply (proper_outline _ adjacent adjacent_tree);
    [reflexivity|exact adjacent_repr|exact adjacent_NoDup].
Defined.

(** * Page labels *)

(** ** [int_to_roman] *)

Section Roman.

Import Transformer.
Local Open Scope Z_scope.

Lemma append_nil_r (s : string) : String.append s "" = s.
Proof. induction s as [|c s IH]; [reflexivity|]. rewrite append_cons, IH. reflexivity. Qed.

Lemma append_assoc (a b c : string) :
  String.append (String.append a b) c = String.append a (String.append b c).
Proof. induction a as [|x a IH]; [reflexivity|]. rewrite !append_cons, IH. reflexivity. Qed.

Lemma for_range_spec (k : nat) (v : Z) (sym r : string) (n : Z) :
  for_range k v sym r n = (String.append r (str_repeat sym k), n - Z.of_nat k * v).
Proof.
  revert r n. induction k as [|k IH]; intros r n.
  - cbn [for_range str_repeat]. rewrite append_nil_r. f_equal. lia.
  - cbn [for_range str_repeat]. rewrite IH, append_assoc. f_equal. lia.
Qed.

Lemma roman_while_cons (v : Z) (sym : string) (rest : list (Z * string)) (r : string)
    (n : Z) :
  roman_while ((v, sym) :: rest) r n =
  if 0 <? n
  then roman_while rest (String.append r (str_repeat sym (Z.to_nat (n / v))))
         (n - Z.of_nat (Z.to_nat (n / v)) * v)
  else r.
Proof. cbn [roman_while]. rewrite for_range_spec. reflexivity. Qed.

Lemma roman_while_prefix (rest : list (Z * string)) (r : string) (n : Z) :
  roman_while rest r n = String.append r (roman_while rest "" n).
Proof.
  revert r n. induction rest as [|[v sym] rest IH]; intros r n.
  - cbn [roman_while]. rewrite append_nil_r. reflexivity.
  - rewrite !roman_while_cons. destruct (0 <? n); [|rewrite append_nil_r; reflexivity].
    rewrite (IH (String.append r _)), (IH (String.append "" _)).
    change (String.append "" ?s) with s. apply append_assoc.
Qed.

Lemma int_to_roman_units (m : Z) :
  0 <= m < 10 ->
  int_to_roman m = roman_while [(9, "ix"); (5, "v"); (4, "iv"); (1, "i")] "" m.
Proof.
  intros Hm. unfold int_to_roman. cbn [zip zip_with val syms].
  rewrite roman_while_cons.
  destruct (0 <? m) eqn:H0.
  - rewrite (Z.div_small m 10) by lia. cbn [Z.to_nat str_repeat].
    rewrite append_nil_r. f_equal. lia.
  - apply Z.ltb_ge in H0. assert (m = 0) as -> by lia. reflexivity.
Qed.

Lemma int_to_roman_tens (n : Z) :
  0 <= n ->
  int_to_roman n =
  String.append (str_repeat "x" (Z.to_nat (n / 10))) (int_to_roman (n mod 10)).
Proof.
  intros Hn. pose proof (Z.mod_pos_bound n 10 ltac:(lia)) as Hm.
  pose proof (Z.div_mod n 10 ltac:(lia)) as Hd.
  pose proof (Z.div_pos n 10 Hn ltac:(lia)) as Hq.
  rewrite (int_to_roman_units (n mod 10) Hm).
  unfold int_to_roman. cbn [zip zip_with val syms]. rewrite roman_while_cons.
  destruct (0 <? n) eqn:H0.
  - rewrite roman_while_prefix. change (String.append "" ?s) with s.
    f_equal. rewrite Z2Nat.id by lia. f_equal. lia.
  - apply Z.ltb_ge in H0. assert (n = 0) as -> by lia. reflexivity.
Qed.

Lemma units_table (m : Z) :
  0 <= m < 10 ->
  int_to_roman m =
  nth (Z.to_nat m) [""; "i"; "ii"; "iii"; "iv"; "v"; "vi"; "vii"; "viii"; "ix"] "".
Proof.
  intros Hm.
  assert (m = 0 \/ m = 1 \/ m = 2 \/ m = 3 \/ m = 4 \/ m = 5 \/ m = 6 \/ m = 7 \/
          m = 8 \/ m = 9) as H by lia.
  repeat (destruct H as [->|H]; [reflexivity|]). subst m. reflexivity.
Qed.

Lemma letter_value_le (c : ascii) : letter_value c <= 10.
Proof.
  unfold letter_value.
  destruct (Ascii.eqb c "x"); [lia|]. destruct (Ascii.eqb c "v"); [lia|].
  destruct (Ascii.eqb c "i"); lia.
Qed.

Lemma roman_value_x (s : string) : roman_value (String "x" s) = roman_value s + 10.
Proof.
  destruct s as [|d s]; [reflexivity|]. cbn [roman_value].
  change (letter_value "x") with 10. pose proof (letter_value_le d) as Hd.
  destruct (10 <? letter_value d) eqn:H; [apply Z.ltb_lt in H; lia|reflexivity].
Qed.

Lemma roman_value_tens (k : nat) (s : string) :
  roman_value (String.append (str_repeat "x" k) s) = 10 * Z.of_nat k + roman_value s.
Proof.
  induction k as [|k IH]; cbn [str_repeat].
  - change (String.append "" s) with s. lia.
  - rewrite !append_cons. change (String.append "" ?t) with t.
    rewrite roman_value_x, IH. lia.
Qed.

Lemma roman_value_units (m : Z) : 0 <= m < 10 -> roman_value (int_to_roman m) = m.
Proof.
  intros Hm.
  assert (m = 0 \/ m = 1 \/ m = 2 \/ m = 3 \/ m = 4 \/ m = 5 \/ m = 6 \/ m = 7 \/
          m = 8 \/ m = 9) as H by lia.
  repeat (destruct H as [->|H]; [reflexivity|]). subst m. reflexivity.
Qed.

Lemma roman_value_int_to_roman (n : Z) : 0 <= n -> roman_value (int_to_roman n) = n.
Proof.
  intros Hn. rewrite (int_to_roman_tens n Hn), roman_value_tens.
  pose proof (Z.mod_pos_bound n 10 ltac:(lia)) as Hm.
  rewrite (roman_value_units _ Hm). rewrite Z2Nat.id by (apply Z.div_pos; lia).
  pose proof (Z.div_mod n 10 ltac:(lia)). lia.
Qed.

Lemma int_to_roman_nonpositive (n : Z) : n <= 0 -> int_to_roman n = "".
Proof.
  intros Hn. unfold int_to_roman. cbn [zip zip_with val syms roman_while].
  destruct (0 <? n) eqn:H0; [apply Z.ltb_lt in H0; lia|reflexivity].
Qed.

End Roman.

(** ** The array of page labels *)

Section Labels.

Import Transformer.
Local Open Scope Z_scope.

Lemma clear_ok (fuel : nat) (nums : list pdf_object) :
  (length nums < fuel)%nat -> clear fuel nums = Some [].
Proof.
  revert nums. induction fuel as [|fuel IH]; intros nums H; [lia|].
  cbn [clear]. destruct nums as [|x nums]; [reflexivity|].
  cbn [length]. replace (0 <? S (length nums))%nat with true
    by (symmetry; apply Nat.ltb_lt; lia).
  cbn [drop]. rewrite drop_0. apply IH. simpl in H. lia.
Qed.

Lemma above_le (skip : list Z) (r : Z) : (above skip (r + 1) <= above skip r)%nat.
Proof.
  unfold above. induction skip as [|x skip IH]; [reflexivity|].
  rewrite !filter_cons.
  destruct (decide (r + 1 <= x)), (decide (r <= x)); simpl; lia.
Qed.

Lemma above_lt (skip : list Z) (r : Z) :
  r ∈ skip -> (above skip (r + 1) < above skip r)%nat.
Proof.
  induction skip as [|x skip IH]; intros H; [apply elem_of_nil in H; destruct H|].
  pose proof (above_le skip r) as Hle. unfold above in *. rewrite !filter_cons.
  apply elem_of_cons in H as [<-|H].
  - destruct (decide (r + 1 <= r)); [lia|]. destruct (decide (r <= r)); [|lia].
    simpl. lia.
  - specialize (IH H).
    destruct (decide (r + 1 <= x)), (decide (r <= x)); simpl; lia.
Qed.

Lemma above_length (skip : list Z) (r : Z) : (above skip r <= length skip)%nat.
Proof. apply length_filter. Qed.

Lemma skip_roman_ok (skip : list Z) (max : Z) :
  forall (fuel : nat) r,
    (above skip r < fuel)%nat ->
    exists r',
      skip_roman fuel skip max r = Some r' /\ r <= r' /\
      (forall v, r <= v < r' -> v ∈ skip) /\ (r' ∉ skip \/ max < r').
Proof.
  induction fuel as [|fuel IH]; intros r H; [lia|]. cbn [skip_roman].
  destruct (bool_decide (r ∈ skip)) eqn:Hin; cbn [andb].
  - apply bool_decide_eq_true in Hin. destruct (r <=? max) eqn:Hm.
    + destruct (IH (r + 1)) as (r' & -> & Hle & Hall & Hend).
      { pose proof (above_lt skip r Hin). lia. }
      exists r'. split; [reflexivity|]. split; [lia|]. split; [|exact Hend].
      intros v Hv. destruct (decide (v = r)) as [->|Hne]; [exact Hin|apply Hall; lia].
    + apply Z.leb_gt in Hm. exists r. split; [reflexivity|]. split; [lia|].
      split; [intros; lia|]. right. lia.
  - apply bool_decide_eq_false in Hin. exists r. split; [reflexivity|]. split; [lia|].
    split; [intros; lia|]. left. exact Hin.
Qed.

Lemma skip_arabic_ok (skip : list Z) :
  forall (fuel : nat) a,
    (above skip a < fuel)%nat ->
    exists a',
      skip_arabic fuel skip a = Some a' /\ a <= a' /\
      (forall v, a <= v < a' -> v ∈ skip) /\ a' ∉ skip.
Proof.
  induction fuel as [|fuel IH]; intros a H; [lia|]. cbn [skip_arabic].
  destruct (bool_decide (a ∈ skip)) eqn:Hin.
  - apply bool_decide_eq_true in Hin.
    destruct (IH (a + 1)) as (a' & -> & Hle & Hall & Hend).
    { pose proof (above_lt skip a Hin). lia. }
    exists a'. split; [reflexivity|]. split; [lia|]. split; [|exact Hend].
    intros v Hv. destruct (decide (v = a)) as [->|Hne]; [exact Hin|apply Hall; lia].
  - apply bool_decide_eq_false in Hin. exists a. split; [reflexivity|]. split; [lia|].
    split; [intros; lia|]. exact Hin.
Qed.

Lemma unskipped_nil (skip : list Z) (first last : Z) :
  last < first -> unskipped skip first last = [].
Proof. intros H. unfold unskipped. rewrite seqZ_nil by lia. reflexivity. Qed.

Lemma unskipped_cons (skip : list Z) (first last : Z) :
  first ∉ skip -> first <= last ->
  unskipped skip first last = first :: unskipped skip (first + 1) last.
Proof.
  intros Hf Hle. unfold unskipped. rewrite seqZ_cons by lia.
  rewrite filter_cons_True by exact Hf. do 3 f_equal; lia.
Qed.

Lemma unskipped_skip (skip : list Z) (first last : Z) :
  first ∈ skip -> unskipped skip first last = unskipped skip (first + 1) last.
Proof.
  intros Hf. destruct (decide (first <= last)) as [Hle|Hgt].
  - unfold unskipped. rewrite seqZ_cons by lia.
    rewrite filter_cons_False by (intros Hn; apply Hn, Hf). do 2 f_equal; lia.
  - rewrite !unskipped_nil by lia. reflexivity.
Qed.

Lemma unskipped_jump (skip : list Z) (last : Z) (k : nat) :
  forall r r',
    r' = r + Z.of_nat k -> (forall v, r <= v < r' -> v ∈ skip) ->
    unskipped skip r last = unskipped skip r' last.
Proof.
  induction k as [|k IH]; intros r r' Hk Hall.
  - replace r' with r by lia. reflexivity.
  - rewrite unskipped_skip by (apply Hall; lia).
    apply IH; [lia|]. intros v Hv. apply Hall. lia.
Qed.

Lemma unskipped_length (skip : list Z) (first last : Z) :
  (Z.to_nat (last + 1 - first) <= length (unskipped skip first last) + length skip)%nat.
Proof.
  unfold unskipped. set (l := seqZ first (last + 1 - first)).
  rewrite <- (length_seqZ first (last + 1 - first)). fold l.
  rewrite <- (Permutation_length (filter_app_complement (fun v => v ∉ skip) l)) at 1.
  rewrite length_app. apply Nat.add_le_mono_l.
  apply submseteq_length, NoDup_submseteq.
  - apply NoDup_filter, NoDup_seqZ.
  - intros x Hx. apply list_elem_of_filter in Hx as [Hx _].
    destruct (decide (x ∈ skip)) as [Hin|Hout]; [exact Hin|]. destruct (Hx Hout).
Qed.

Lemma roman_section_ok (num_pages : Z) (skip : list Z) (max : Z) :
  forall (fuel : nat) nums p r,
    (Z.to_nat (num_pages - p) + length skip < fuel)%nat ->
    roman_section fuel num_pages skip max nums p r =
    Some (nums ++ numbered roman_dict p
                    (take (Z.to_nat (num_pages - p)) (unskipped skip r max)),
          p + Z.of_nat (length (take (Z.to_nat (num_pages - p)) (unskipped skip r max)))).
Proof.
  induction fuel as [|fuel IH]; intros nums p r H; [lia|]. cbn [roman_section].
  destruct (p <? num_pages) eqn:Hp; cbn [andb].
  2:{ apply Z.ltb_ge in Hp. replace (Z.to_nat (num_pages - p)) with 0%nat by lia.
      rewrite take_0. cbn [numbered length]. rewrite app_nil_r. do 2 f_equal. lia. }
  apply Z.ltb_lt in Hp. destruct (r <=? max) eqn:Hr.
  2:{ apply Z.leb_gt in Hr. rewrite unskipped_nil by lia. rewrite take_nil.
      cbn [numbered length]. rewrite app_nil_r. do 2 f_equal. lia. }
  destruct (skip_roman_ok skip max fuel r) as (r' & -> & Hle & Hall & Hend).
  { pose proof (above_length skip r). lia. }
  rewrite (unskipped_jump skip max (Z.to_nat (r' - r)) r r') by (try lia; exact Hall).
  destruct (max <? r') eqn:Hmax.
  - apply Z.ltb_lt in Hmax. rewrite unskipped_nil by lia. rewrite take_nil.
    cbn [numbered length]. rewrite app_nil_r. do 2 f_equal. lia.
  - apply Z.ltb_ge in Hmax. destruct Hend as [Hend|Hend]; [|lia].
    rewrite (unskipped_cons skip r' max Hend Hmax).
    rewrite IH by lia.
    replace (Z.to_nat (num_pages - p)) with (S (Z.to_nat (num_pages - (p + 1)))) by lia.
    cbn [take length numbered]. unfold put_range. rewrite <- app_assoc.
    cbn [app]. do 2 f_equal. lia.
Qed.

Lemma arabic_section_ok (num_pages : Z) (skip : list Z) (last : Z) :
  forall (fuel : nat) nums p a,
    (Z.to_nat (num_pages - p) + length skip < fuel)%nat ->
    (Z.to_nat (num_pages - p) <= length (unskipped skip a last))%nat ->
    arabic_section fuel num_pages skip nums p a =
    Some (nums ++ numbered arabic_dict p
                    (take (Z.to_nat (num_pages - p)) (unskipped skip a last))).
Proof.
  induction fuel as [|fuel IH]; intros nums p a H Hfree; [lia|]. cbn [arabic_section].
  destruct (p <? num_pages) eqn:Hp.
  2:{ apply Z.ltb_ge in Hp. replace (Z.to_nat (num_pages - p)) with 0%nat by lia.
      rewrite take_0. cbn [numbered]. rewrite app_nil_r. reflexivity. }
  apply Z.ltb_lt in Hp.
  destruct (skip_arabic_ok skip fuel a) as (a' & -> & Hle & Hall & Hend).
  { pose proof (above_length skip a). lia. }
  rewrite (unskipped_jump skip last (Z.to_nat (a' - a)) a a') in Hfree |- *
    by (try lia; exact Hall).
  assert (a' <= last) as Hlast.
  { destruct (decide (a' <= last)) as [Hl|Hl]; [exact Hl|].
    rewrite unskipped_nil in Hfree by lia. simpl in Hfree. lia. }
  rewrite (unskipped_cons skip a' last Hend Hlast) in Hfree |- *.
  replace (Z.to_nat (num_pages - p)) with (S (Z.to_nat (num_pages - (p + 1))))
    in Hfree |- * by lia.
  cbn [length] in Hfree. rewrite IH by lia.
  cbn [take numbered]. unfold put_range. rewrite <- app_assoc. reflexivity.
Qed.

Lemma roman_starts_length (num_pages : Z) (roman_pages_count : option Z)
    (roman_skip : list Z) :
  (length (roman_starts num_pages roman_pages_count roman_skip)
   <= Z.to_nat (num_pages - 1))%nat.
Proof. unfold roman_starts. rewrite length_take. lia. Qed.

Lemma arabic_starts_length (num_pages : Z) (roman_pages_count : option Z)
    (roman_skip arabic_skip : list Z) :
  length (arabic_starts num_pages roman_pages_count roman_skip arabic_skip)
  = (Z.to_nat (num_pages - 1)
     - length (roman_starts num_pages roman_pages_count roman_skip))%nat.
Proof.
  unfold arabic_starts. apply length_take_le.
  pose proof (unskipped_length arabic_skip 1 (num_pages + Z.of_nat (length arabic_skip))).
  lia.
Qed.

Lemma label_array_ok (fuel : nat) (num_pages : Z) (roman_pages_count : option Z)
    (roman_skip arabic_skip : list Z) (nums_array : list pdf_object) :
  (length nums_array + Z.to_nat num_pages + length roman_skip + length arabic_skip
   < fuel)%nat ->
  label_array fuel num_pages roman_pages_count roman_skip arabic_skip nums_array =
  Some (labelled (roman_starts num_pages roman_pages_count roman_skip)
                 (arabic_starts num_pages roman_pages_count roman_skip arabic_skip)).
Proof.
  intros Hfuel. unfold label_array, labelled.
  rewrite clear_ok by lia. unfold put_range at 1. cbn [app].
  rewrite roman_section_ok by lia. fold (roman_starts num_pages roman_pages_count roman_skip).
  pose proof (roman_starts_length num_pages roman_pages_count roman_skip) as HR.
  set (R := roman_starts num_pages roman_pages_count roman_skip) in *.
  unfold arabic_starts. fold R.
  replace (Z.to_nat (num_pages - 1) - length R)%nat
    with (Z.to_nat (num_pages - (1 + Z.of_nat (length R)))) by lia.
  destruct (1 + Z.of_nat (length R) <? num_pages) eqn:Hp.
  - rewrite (arabic_section_ok num_pages arabic_skip
               (num_pages + Z.of_nat (length arabic_skip))).
    + reflexivity.
    + lia.
    + pose proof (unskipped_length arabic_skip 1
                    (num_pages + Z.of_nat (length arabic_skip))). lia.
  - apply Z.ltb_ge in Hp.
    replace (Z.to_nat (num_pages - (1 + Z.of_nat (length R)))) with 0%nat by lia.
    rewrite take_0. cbn [numbered]. rewrite app_nil_r. reflexivity.
Qed.

Lemma page_indices_numbered (dict : Z -> pdf_object) (starts : list Z) :
  forall p rest,
    page_indices (numbered dict p starts ++ rest)
    = seqZ p (Z.of_nat (length starts)) ++ page_indices rest.
Proof.
  induction starts as [|st starts IH]; intros p rest; [reflexivity|].
  cbn [numbered app page_indices length]. rewrite IH.
  rewrite (seqZ_cons p) by lia. cbn [app]. do 3 f_equal; lia.
Qed.

Lemma unskipped_none (first last : Z) :
  unskipped [] first last = seqZ first (last + 1 - first).
Proof.
  unfold unskipped. induction (seqZ first (last + 1 - first)) as [|x l IH]; [reflexivity|].
  rewrite filter_cons_True, IH; [reflexivity|]. apply not_elem_of_nil.
Qed.

Lemma take_seqZ (m n : Z) (k : nat) :
  Z.of_nat k <= n -> take k (seqZ m n) = seqZ m (Z.of_nat k).
Proof.
  intros H. replace n with (Z.of_nat k + (n - Z.of_nat k)) by lia.
  rewrite seqZ_app by lia. apply take_app_length'. rewrite length_seqZ. lia.
Qed.

Lemma increasing_sublist (l1 l2 : list Z) :
  sublist l1 l2 -> increasing l2 -> increasing l1.
Proof.
  induction 1 as [|x l1 l2 Hs IH|x l1 l2 Hs IH]; intros H2; [exact I| |].
  - destruct H2 as [Hx H2]. split; [|auto].
    rewrite Forall_forall in Hx |- *. intros y Hy. apply Hx.
    eapply elem_of_sublist; eauto.
  - destruct H2 as [_ H2]. auto.
Qed.

Lemma seqZ_increasing (n : nat) : forall m, increasing (seqZ m (Z.of_nat n)).
Proof.
  induction n as [|n IH]; intros m; [exact I|].
  rewrite seqZ_cons by lia. split.
  - apply Forall_forall. intros x Hx. apply elem_of_seqZ in Hx. lia.
  - replace (Z.pred (Z.of_nat (S n))) with (Z.of_nat n) by lia. apply IH.
Qed.

Lemma unskipped_increasing (skip : list Z) (first last : Z) :
  increasing (unskipped skip first last).
Proof.
  unfold unskipped. eapply increasing_sublist; [apply sublist_filter; apply _|].
  destruct (decide (0 <= last + 1 - first)) as [H|H].
  - rewrite <- (Z2Nat.id (last + 1 - first)) by lia. apply seqZ_increasing.
  - rewrite seqZ_nil by lia. exact I.
Qed.

Lemma unskipped_elem (skip : list Z) (first last v : Z) :
  v ∈ unskipped skip first last <-> (v ∉ skip) /\ (first <= v <= last).
Proof.
  unfold unskipped. rewrite list_elem_of_filter, elem_of_seqZ. split; intros [H1 H2]; (split; [exact H1|lia]).
Qed.

End Labels.

(** ** What [int_to_roman] writes *)

Section RomanNumerals.

Import Transformer.
Local Open Scope Z_scope.

(** X12: a numeral written by [int_to_roman] for a number that is not
    negative reads back as that number, so two such numbers never get
    the same numeral. *)
Theorem int_to_roman_reads_back (n m : Z) :
  0 <= n -> 0 <= m ->
  roman_value (int_to_roman n) = n /\
  (int_to_roman n = int_to_roman m -> n = m).
Proof.
  intros Hn Hm. split; [apply roman_value_int_to_roman, Hn|].
  intros H. rewrite <- (roman_value_int_to_roman n Hn), H.
  apply roman_value_int_to_roman, Hm.
Qed.

Lemma int_to_roman_reads_back_witness :
  roman_value (int_to_roman 39) = 39 /\
  (int_to_roman 39 = int_to_roman 14 -> 39 = 14).
Proof. apply (int_to_roman_reads_back 39 14); lia. Defined.

(** X13: [int_to_roman] writes the tens as that many letters x, from 40
    on too (40 is xxxx, there is no l or c), and after them the units as
    one of the nine numerals i to ix, or nothing. *)
Theorem int_to_roman_tens_and_units (n : Z) :
  0 <= n ->
  int_to_roman n =
  String.append
    (str_repeat "x" (Z.to_nat (n / 10)))
    (nth (Z.to_nat (n mod 10))
         [""; "i"; "ii"; "iii"; "iv"; "v"; "vi"; "vii"; "viii"; "ix"] "").
Proof.
  intros Hn. rewrite (int_to_roman_tens n Hn). f_equal.
  apply units_table, Z.mod_pos_bound. lia.
Qed.

Lemma int_to_roman_tens_and_units_witness :
  int_to_roman 44 =
  String.append
    (str_repeat "x" (Z.to_nat (44 / 10)))
    (nth (Z.to_nat (44 mod 10))
         [""; "i"; "ii"; "iii"; "iv"; "v"; "vi"; "vii"; "viii"; "ix"] "").
Proof. apply (int_to_roman_tens_and_units 44). lia. Defined.

(** X14: [int_to_roman] gives the empty string for zero and for the
    negative numbers, and for no other number. *)
Theorem int_to_roman_empty (n : Z) : int_to_roman n = "" <-> n <= 0.
Proof.
  split; [|apply int_to_roman_nonpositive].
  intros H. destruct (decide (n <= 0)) as [Hn|Hn]; [exact Hn|].
  pose proof (roman_value_int_to_roman n ltac:(lia)) as Hv.
  rewrite H in Hv. simpl in Hv. lia.
Qed.

End RomanNumerals.

(** ** What [set_page_labels] writes *)

Section PageLabels.

Import Transformer.
Local Open Scope Z_scope.

(** X15: with enough fuel the loops of [set_page_labels] end, and the
    array [Nums] they leave is: the cover at page index 0; from page
    index 1 on a Roman range to a page, with the numbers from 1 to the
    greatest Roman number that are not in [roman_skip] for start values,
    as far as the pages go; then an Arabic range to every page that is
    left, with the numbers from 1 on that are not in [arabic_skip]. What
    the array held before is gone. *)
Theorem label_array_closed_form (fuel : nat) (num_pages : Z)
    (roman_pages_count : option Z) (roman_skip arabic_skip : list Z)
    (nums_array : list pdf_object) :
  (length nums_array + Z.to_nat num_pages + length roman_skip + length arabic_skip
   < fuel)%nat ->
  label_array fuel num_pages roman_pages_count roman_skip arabic_skip nums_array =
  Some (labelled (roman_starts num_pages roman_pages_count roman_skip)
                 (arabic_starts num_pages roman_pages_count roman_skip arabic_skip)) /\
  (length (roman_starts num_pages roman_pages_count roman_skip)
   + length (arabic_starts num_pages roman_pages_count roman_skip arabic_skip))%nat
  = Z.to_nat (num_pages - 1).
Proof.
  intros Hfuel. split; [apply label_array_ok, Hfuel|].
  rewrite arabic_starts_length.
  pose proof (roman_starts_length num_pages roman_pages_count roman_skip). lia.
Qed.

Lemma label_array_closed_form_witness :
  label_array 20 6 (Some 3) [2] [1; 2] [Number 7] =
  Some (labelled (roman_starts 6 (Some 3) [2]) (arabic_starts 6 (Some 3) [2] [1; 2])) /\
  Nat.add (length (roman_starts 6 (Some 3) [2]))
          (length (arabic_starts 6 (Some 3) [2] [1; 2])) = Z.to_nat (6 - 1).
Proof. apply (label_array_closed_form 20 6 (Some 3) [2] [1; 2] [Number 7]). simpl. lia. Defined.

(** X16: in the array that [set_page_labels] leaves for a document of at
    least one page, every page starts a range of its own: the page
    indices of the array are 0, 1, ..., [num_pages - 1], in this
    order. *)
Theorem every_page_starts_a_range (fuel : nat) (num_pages : Z)
    (roman_pages_count : option Z) (roman_skip arabic_skip : list Z)
    (nums_array : list pdf_object) :
  1 <= num_pages ->
  (length nums_array + Z.to_nat num_pages + length roman_skip + length arabic_skip
   < fuel)%nat ->
  exists nums,
    label_array fuel num_pages roman_pages_count roman_skip arabic_skip nums_array
    = Some nums /\
    page_indices nums = seqZ 0 num_pages.
Proof.
  intros Hn Hfuel. eexists. split; [apply label_array_ok, Hfuel|].
  pose proof (arabic_starts_length num_pages roman_pages_count roman_skip arabic_skip)
    as HA.
  pose proof (roman_starts_length num_pages roman_pages_count roman_skip) as HR.
  unfold labelled. cbn [page_indices]. rewrite page_indices_numbered.
  rewrite <- (app_nil_r (numbered arabic_dict _ _)), page_indices_numbered.
  cbn [page_indices]. rewrite app_nil_r.
  set (R := roman_starts num_pages roman_pages_count roman_skip) in *.
  set (A := arabic_starts num_pages roman_pages_count roman_skip arabic_skip) in *.
  replace (seqZ 0 num_pages)
    with (seqZ 0 (1 + (Z.of_nat (length R) + Z.of_nat (length A)))) by (f_equal; lia).
  rewrite (seqZ_app 0 1) by lia. rewrite (seqZ_app (0 + 1)) by lia. reflexivity.
Qed.

Lemma every_page_starts_a_range_witness :
  exists nums,
    label_array 20 6 (Some 3) [2] [1; 2] [Number 7] = Some nums /\
    page_indices nums = seqZ 0 6.
Proof.
  apply (every_page_starts_a_range 20 6 (Some 3) [2] [1; 2] [Number 7]); [lia|simpl; lia].
Defined.

(** X17: [set_page_labels] never prints a skipped number and never a
    number twice in a section: the start values of the Roman ranges are
    not in [roman_skip], lie between 1 and the greatest Roman number and
    go up from page to page; those of the Arabic ranges are not in
    [arabic_skip], are at least 1 and go up from page to page. *)
Theorem no_skipped_number_printed (fuel : nat) (num_pages : Z)
    (roman_pages_count : option Z) (roman_skip arabic_skip : list Z)
    (nums_array : list pdf_object) :
  (length nums_array + Z.to_nat num_pages + length roman_skip + length arabic_skip
   < fuel)%nat ->
  exists R A,
    label_array fuel num_pages roman_pages_count roman_skip arabic_skip nums_array
    = Some (labelled R A) /\
    Forall (fun v => (v ∉ roman_skip) /\
                     (1 <= v <= roman_max_num num_pages roman_pages_count)) R /\
    Forall (fun v => (v ∉ arabic_skip) /\ 1 <= v) A /\
    increasing R /\ increasing A.
Proof.
  intros Hfuel. eexists _, _. split; [apply label_array_ok, Hfuel|].
  unfold roman_starts, arabic_starts. split; [|split; [|split]].
  - apply Forall_take, Forall_forall. intros v Hv. apply unskipped_elem in Hv. exact Hv.
  - apply Forall_take, Forall_forall. intros v Hv. apply unskipped_elem in Hv.
    split; [apply Hv|lia].
  - eapply increasing_sublist; [apply sublist_take|apply unskipped_increasing].
  - eapply increasing_sublist; [apply sublist_take|apply unskipped_increasing].
Qed.

Lemma no_skipped_number_printed_witness :
  exists R A,
    label_array 20 6 (Some 3) [2] [1; 2] [Number 7] = Some (labelled R A) /\
    Forall (fun v => (v ∉ [2]) /\ (1 <= v <= roman_max_num 6 (Some 3))) R /\
    Forall (fun v => (v ∉ [1; 2]) /\ 1 <= v) A /\
    increasing R /\ increasing A.
Proof.
  apply (no_skipped_number_printed 20 6 (Some 3) [2] [1; 2] [Number 7]). simpl. lia.
Defined.

(** X18: called with a page count only, [set_page_labels] gives the
    cover, then Roman numbers from 1 to the pages after the cover, 24 of
    them at most, then Arabic numbers from 1 to the pages that are
    left. *)
Theorem default_numbering (fuel : nat) (num_pages : Z) (nums_array : list pdf_object) :
  1 <= num_pages ->
  (length nums_array + Z.to_nat num_pages < fuel)%nat ->
  label_array fuel num_pages None [] [] nums_array =
  Some (labelled (seqZ 1 (Z.min 24 (num_pages - 1)))
                 (seqZ 1 (num_pages - 1 - Z.min 24 (num_pages - 1)))).
Proof.
  intros Hn Hfuel. rewrite label_array_ok by (simpl; lia). do 2 f_equal.
  - unfold roman_starts. rewrite unskipped_none. unfold roman_max_num.
    rewrite take_ge by (rewrite length_seqZ; lia). f_equal. lia.
  - unfold arabic_starts, roman_starts. rewrite !unskipped_none. unfold roman_max_num.
    rewrite length_take, length_seqZ, take_seqZ by (simpl; lia). f_equal. lia.
Qed.

Lemma default_numbering_witness :
  label_array 40 30 None [] [] [] =
  Some (labelled (seqZ 1 (Z.min 24 (30 - 1))) (seqZ 1 (30 - 1 - Z.min 24 (30 - 1)))).
Proof. apply (default_numbering 40 30 []); [lia|simpl; lia]. Defined.

(** X19: [set_page_labels] closes the document whenever it has opened
    it, on every way out: after the save, after a failed save, and when
    it raises for a document without pages or without root object. It
    returns exactly when the document opens, has pages and a root
    object and the save succeeds; it raises "PDF has no pages" exactly
    for an opened document of no page; what it saves is the array that
    the loops leave. *)
Theorem set_page_labels_closes_the_document (doc : pdf) (fuel : nat)
    (input_pdf output_pdf : string) (roman_pages_count : option Z)
    (roman_skip arabic_skip : option (list Z)) :
  (length (nums_of doc) + Z.to_nat (doc_pages doc) + length (default [] roman_skip)
   + length (default [] arabic_skip) < fuel)%nat ->
  exists calls o,
    set_page_labels doc fuel input_pdf output_pdf roman_pages_count roman_skip arabic_skip
    = Some (calls, o) /\
    (Close ∈ calls <-> doc_opens doc = true) /\
    (o = Returned <->
     doc_opens doc = true /\ doc_pages doc <> 0 /\ doc_root doc = true /\
     doc_saves doc = true) /\
    (o = Exception "PDF has no pages" <-> doc_opens doc = true /\ doc_pages doc = 0) /\
    (forall nums,
       Save output_pdf nums ∈ calls ->
       nums = labelled (roman_starts (doc_pages doc) roman_pages_count
                          (default [] roman_skip))
                       (arabic_starts (doc_pages doc) roman_pages_count
                          (default [] roman_skip) (default [] arabic_skip))).
Proof.
  intros Hfuel. unfold set_page_labels.
  rewrite (label_array_ok fuel _ _ _ _ _ Hfuel).
  assert (forall (l : list call) (c : call), c ∈ l <-> In c l) as Hin
    by (intros; apply list_elem_of_In).
  destruct (doc_opens doc); cbn [negb].
  2:{ eexists _, _. split; [reflexivity|]. split; [|split; [|split]].
      - split; [|discriminate]. intros H. apply Hin in H.
        destruct H as [H|[]]. discriminate.
      - split; [discriminate|]. intros [H _]. discriminate.
      - split; [|intros [H _]; discriminate]. intros H. cbn in H. discriminate.
      - intros nums H. apply Hin in H. destruct H as [H|[]]. discriminate. }
  assert (forall nums,
            Close ∈ [OpenDoc input_pdf; Save output_pdf nums; Close] <-> true = true)
    as Hsaved.
  { intros nums. split; [reflexivity|]. intros _. apply Hin. simpl. auto. }
  assert (Close ∈ [OpenDoc input_pdf; Close] <-> true = true) as Hclosed.
  { split; [reflexivity|]. intros _. apply Hin. simpl. auto. }
  assert (forall (nums nums' : list pdf_object),
            Save output_pdf nums ∈ [OpenDoc input_pdf; Save output_pdf nums'; Close] ->
            nums = nums') as Hsame.
  { intros nums nums' H. apply Hin in H.
    destruct H as [H|[H|[H|[]]]]; try discriminate. injection H as <-. reflexivity. }
  assert (forall (nums nums' : list pdf_object),
            Save output_pdf nums ∈ [OpenDoc input_pdf; Close] -> nums = nums') as Hnone.
  { intros nums nums' H. apply Hin in H. destruct H as [H|[H|[]]]; discriminate. }
  destruct (doc_pages doc =? 0) eqn:Hp.
  { apply Z.eqb_eq in Hp. eexists _, _. split; [reflexivity|]. split; [|split; [|split]].
    - exact Hclosed.
    - split; [discriminate|]. intros (_ & H & _). congruence.
    - split; [|reflexivity]. intros _. split; [reflexivity|exact Hp].
    - intros nums. apply Hnone. }
  apply Z.eqb_neq in Hp. destruct (doc_root doc); cbn [negb].
  2:{ eexists _, _. split; [reflexivity|]. split; [|split; [|split]].
      - exact Hclosed.
      - split; [discriminate|]. intros (_ & _ & H & _). discriminate.
      - split; [discriminate|]. intros [_ H]. congruence.
      - intros nums. apply Hnone. }
  destruct (doc_saves doc); eexists _, _; (split; [reflexivity|]);
    (split; [|split; [|split]]).
  - apply Hsaved.
  - split; [|reflexivity]. intros _. repeat split. exact Hp.
  - split; [discriminate|]. intros [_ H]. congruence.
  - intros nums. apply Hsame.
  - apply Hsaved.
  - split; [discriminate|]. intros (_ & _ & _ & H). discriminate.
  - split; [|intros [_ H]; congruence]. intros H. cbn in H. discriminate.
  - intros nums. apply Hsame.
Qed.

Lemma set_page_labels_closes_the_document_witness :
  exists calls o,
    set_page_labels (Pdf true "3" 6 true (Some (Some [Number 7])) false) 20
      "in.pdf" "out.pdf" (Some 3) (Some [2]) None = Some (calls, o) /\
    (Close ∈ calls <-> true = true) /\
    (o = Returned <-> true = true /\ 6 <> 0 /\ true = true /\ false = true) /\
    (o = Exception "PDF has no pages" <-> true = true /\ 6 = 0) /\
    (forall nums,
       Save "out.pdf" nums ∈ calls ->
       nums = labelled (roman_starts 6 (Some 3) [2]) (arabic_starts 6 (Some 3) [2] [])).
Proof.
  apply (set_page_labels_closes_the_document
           (Pdf true "3" 6 true (Some (Some [Number 7])) false) 20
           "in.pdf" "out.pdf" (Some 3) (Some [2]) None).
  simpl. lia.
Defined.

(** X20: the page labels that the document had are of no influence on
    what [set_page_labels] does: with any other labels in the document,
    or none, it makes the same calls, saves the same array and ends the
    same way. So a second run on the saved file changes nothing. *)
Theorem set_page_labels_overwrites (doc : pdf)
    (labels : option (option (list pdf_object))) (fuel fuel' : nat)
    (input_pdf output_pdf : string) (roman_pages_count : option Z)
    (roman_skip arabic_skip : option (list Z)) :
  (length (nums_of doc) + Z.to_nat (doc_pages doc) + length (default [] roman_skip)
   + length (default [] arabic_skip) < fuel)%nat ->
  (length (nums_of (with_labels doc labels)) + Z.to_nat (doc_pages doc)
   + length (default [] roman_skip) + length (default [] arabic_skip) < fuel')%nat ->
  set_page_labels (with_labels doc labels) fuel' input_pdf output_pdf roman_pages_count
    roman_skip arabic_skip
  = set_page_labels doc fuel input_pdf output_pdf roman_pages_count roman_skip arabic_skip.
Proof.
  intros Hfuel Hfuel'. unfold set_page_labels.
  rewrite (label_array_ok fuel _ _ _ _ _ Hfuel).
  change (doc_pages (with_labels doc labels)) with (doc_pages doc).
  rewrite (label_array_ok fuel' _ _ _ _ _ Hfuel'). reflexivity.
Qed.

Lemma set_page_labels_overwrites_witness :
  set_page_labels
    (with_labels (Pdf true "" 6 true None true) (Some (Some [Number 7; cover_dict])))
    20 "in.pdf" "out.pdf" (Some 3) (Some [2]) (Some [1; 2])
  = set_page_labels (Pdf true "" 6 true None true) 12 "in.pdf" "out.pdf" (Some 3)
      (Some [2]) (Some [1; 2]).
Proof.
  apply (set_page_labels_overwrites (Pdf true "" 6 true None true)
           (Some (Some [Number 7; cover_dict])) 12 20 "in.pdf" "out.pdf" (Some 3)
           (Some [2]) (Some [1; 2])); simpl; lia.
Defined.

End PageLabels.
